(** * Kyra: lexer, bytecode emitter, KBC v2 module format and stack VM

    A shallow embedding of the Go sources of the [kyra] toolchain:
    - package [bytecode] (the emitter: [Chunk], [emitStmt], [emitExpr],
      [emitBinaryOp], [patchJump], [parseNumber], [Emit]);
    - package [kvm] (the virtual machine: [loadModule], [push], [pop], [Run],
      [callFunction], [returnFromFunction], [readInt]);
    - package [lexer] (the lexer: [Lex], [nextToken], [lexIndentation] and
      the functions that read one token).

    Conventions of the embedding.
    - Go [int] is modelled by [Z]; every quantity the code computes stays far
      inside the 64-bit range, so no wrap-around is written for it.
      [uint32(v)] is written out as reduction modulo 2^32 where it occurs.
    - [[]byte] is [list byte]; a Go [string] is a Rocq [string] (a sequence of
      8-bit characters, exactly as a Go string is a sequence of bytes).
    - [float64] is Rocq's primitive binary64 [float].
    - [interface{}] values are the closed variant [Value].
    - A [panic] is the [Panic] case of the error monad [result]. *)

From Stdlib Require Import ZArith List Bool Lia Floats.
From Stdlib Require Import Strings.String Strings.Ascii Strings.Byte DecimalString.
From stdpp Require Import base list.
Import ListNotations.

Local Open Scope Z_scope.

(** ** Panics and the error monad *)

Inductive panic : Type :=
| Msg (s : string)            (* panic("...") raised by the program itself *)
| IndexOutOfRange             (* Go runtime: index out of range *)
| SliceBoundsOutOfRange       (* Go runtime: slice bounds out of range *)
| InterfaceConversion.        (* Go runtime: failed type assertion x.(T) *)

Inductive result (A : Type) : Type :=
| Ok (a : A)
| Panic (p : panic).
Arguments Ok {A} a.
Arguments Panic {A} p.

Definition bind {A B : Type} (r : result A) (k : A -> result B) : result B :=
  match r with
  | Ok a => k a
  | Panic p => Panic p
  end.

Declare Scope result_scope.
Delimit Scope result_scope with result.
Notation "'let*' x ':=' e 'in' k" := (bind e (fun x => k))
  (at level 10, x name, e at level 100, k at level 200) : result_scope.
Notation "'let*' ( x , y ) ':=' e 'in' k" :=
  (bind e (fun xy => let '(x, y) := xy in k))
  (at level 10, x name, y name, e at level 100, k at level 200) : result_scope.
Local Open Scope result_scope.

(** A panic of the Go runtime's bounds checks, as opposed to one the program
    raises with a message. *)
Definition is_bounds_panic (p : panic) : bool :=
  match p with
  | IndexOutOfRange | SliceBoundsOutOfRange => true
  | _ => false
  end.

(** ** Bytes and little-endian integers *)

Definition b2z (b : byte) : Z := Z.of_N (Byte.to_N b).

Definition z2b (z : Z) : byte :=
  match Byte.of_N (Z.to_N (z mod 256)) with
  | Some b => b
  | None => x00
  end.

Definition len {A : Type} (l : list A) : Z := Z.of_nat (length l).

(** [binary.LittleEndian.PutUint32 / PutUint64]: the [n] low bytes of [z]. *)
Fixpoint le_encode (n : nat) (z : Z) : list byte :=
  match n with
  | O => []
  | S n' => z2b z :: le_encode n' (z / 256)
  end.

Fixpoint le_decode (l : list byte) : Z :=
  match l with
  | [] => 0
  | b :: t => b2z b + 256 * le_decode t
  end.

(** [l[i]] with Go's bounds check. *)
Definition index {A : Type} (l : list A) (i : Z) : result A :=
  if (0 <=? i) && (i <? len l)
  then match l !! Z.to_nat i with
       | Some a => Ok a
       | None => Panic IndexOutOfRange
       end
  else Panic IndexOutOfRange.

(** [binary.LittleEndian.Uint32(code[off:])]: the slice expression needs
    [0 <= off <= len(code)], the read needs four bytes. *)
Definition Uint32At (code : list byte) (off : Z) : result Z :=
  if (0 <=? off) && (off <=? len code)
  then match drop (Z.to_nat off) code with
       | b0 :: b1 :: b2 :: b3 :: _ => Ok (le_decode [b0; b1; b2; b3])
       | _ => Panic IndexOutOfRange
       end
  else Panic SliceBoundsOutOfRange.

(** [binary.LittleEndian.Uint64(code[off:])]. *)
Definition Uint64At (code : list byte) (off : Z) : result Z :=
  if (0 <=? off) && (off <=? len code)
  then match drop (Z.to_nat off) code with
       | b0 :: b1 :: b2 :: b3 :: b4 :: b5 :: b6 :: b7 :: _ =>
           Ok (le_decode [b0; b1; b2; b3; b4; b5; b6; b7])
       | _ => Panic IndexOutOfRange
       end
  else Panic SliceBoundsOutOfRange.

(** ** float64 *)

Module F64.

(** [math.Float64bits]: the IEEE-754 binary64 encoding.  Primitive floats
    have a single NaN; it is given Go's [math.NaN()] pattern. *)
Definition bits_of_SF (x : spec_float) : Z :=
  match x with
  | S754_zero s => if s then 2 ^ 63 else 0
  | S754_infinity s => (if s then 2 ^ 63 else 0) + 2047 * 2 ^ 52
  | S754_nan => 2047 * 2 ^ 52 + 2 ^ 51 + 1
  | S754_finite s m e =>
      (if s then 2 ^ 63 else 0) +
      (if Z.pos m <? 2 ^ 52
       then Z.pos m
       else (e + 1075) * 2 ^ 52 + (Z.pos m - 2 ^ 52))
  end.

Definition SF_of_bits (z : Z) : spec_float :=
  let s := 2 ^ 63 <=? z in
  let ex := (z / 2 ^ 52) mod 2048 in
  let m := z mod 2 ^ 52 in
  if ex =? 2047 then (if m =? 0 then S754_infinity s else S754_nan)
  else if ex =? 0 then
    match m with
    | Z.pos p => S754_finite s p (-1074)
    | _ => S754_zero s
    end
  else
    match m + 2 ^ 52 with
    | Z.pos p => S754_finite s p (ex - 1075)
    | _ => S754_nan
    end.

Definition Float64bits (f : float) : Z := bits_of_SF (Prim2SF f).
Definition Float64frombits (z : Z) : float := SF2Prim (SF_of_bits z).

(** [math.Mod(x, y)]: the exact remainder of the truncated division, with
    the sign of [x]; NaN when [x] is infinite or [y] is zero. *)
Definition Mod (x y : float) : float :=
  match Prim2SF x, Prim2SF y with
  | S754_nan, _ | _, S754_nan => PrimFloat.nan
  | S754_infinity _, _ => PrimFloat.nan
  | _, S754_zero _ => PrimFloat.nan
  | _, S754_infinity _ => x
  | S754_zero _, _ => x
  | S754_finite sx mx ex, S754_finite _ my ey =>
      let e := Z.min ex ey in
      let X := Z.pos mx * 2 ^ (ex - e) in
      let Y := Z.pos my * 2 ^ (ey - e) in
      let R := X mod Y in
      if R =? 0 then (if sx then PrimFloat.neg_zero else PrimFloat.zero)
      else SF2Prim (binary_normalize prec emax (if sx then - R else R) e false)
  end.

(** [int(f)]: truncation toward zero.  For a value outside the int64 range
    (or NaN) Go leaves the result to the implementation; amd64 gives the
    minimal int64. *)
Definition to_int (f : float) : Z :=
  match Prim2SF f with
  | S754_zero _ => 0
  | S754_finite s m e =>
      let a := if 0 <=? e then Z.pos m * 2 ^ e else Z.pos m / 2 ^ (- e) in
      let v := if s then - a else a in
      if (- 2 ^ 63 <=? v) && (v <? 2 ^ 63) then v else - 2 ^ 63
  | _ => - 2 ^ 63
  end.

(** The decimal [n / 10^k], rounded to nearest even. *)
Definition of_decimal (n : Z) (k : Z) : float :=
  if n <=? 0 then PrimFloat.zero
  else
    let d := 10 ^ k in
    let s := Z.max 0 (Z.log2 d + 64 - Z.log2 n) in
    let q := (n * 2 ^ s) / d in
    let r := (n * 2 ^ s) mod d in
    SF2Prim (binary_normalize prec emax
               (2 * q + (if r =? 0 then 0 else 1)) (- (s + 1)) false).

End F64.

(** ** Values: what an [interface{}] of the program can hold *)

Inductive Value : Type :=
| VFloat (f : float)
| VString (s : string)
| VInt (z : Z).

(** Go's [a == b] on two interface values: different dynamic types are
    unequal, equal types compare their values ([float64] by IEEE equality). *)
Definition iface_eq (a b : Value) : bool :=
  match a, b with
  | VFloat x, VFloat y => PrimFloat.eqb x y
  | VString x, VString y => String.eqb x y
  | VInt x, VInt y => Z.eqb x y
  | _, _ => false
  end.

(** [v.(float64)] *)
Definition asFloat (v : Value) : result float :=
  match v with
  | VFloat f => Ok f
  | _ => Panic InterfaceConversion
  end.

Definition boolToFloat (b : bool) : float :=
  if b then 1%float else 0%float.

(** ** The virtual machine (package [kvm]) *)

Module kvm.

(** A constant pool.  [vm.constants] and [Frame.consts] are Go slices: two of
    them can share one backing array, and [OP_STORE] writes through it.  The
    pools therefore live in a store, [pools], and a slice is the address of
    its pool there. *)
Definition Pool : Type := list Value.

Module Frame.
Record t : Type := mk {
  ipBackup : Z;
  spBackup : Z;
  code : list byte;
  consts : nat
}.
End Frame.

Record VM : Type := mkVM {
  constants : nat;
  code : list byte;
  ip : Z;
  sp : Z;
  stack : list Value;
  callStack : list Frame.t;
  pools : list Pool
}.

(** The pool [vm.constants] points to. *)
Definition activePool (vm : VM) : Pool :=
  default [] (pools vm !! constants vm).

Definition set_ip (vm : VM) (i : Z) : VM :=
  mkVM (constants vm) (code vm) i (sp vm) (stack vm) (callStack vm) (pools vm).

(** ** Stack helpers *)

Definition push (v : Value) (vm : VM) : VM :=
  mkVM (constants vm) (code vm) (ip vm) (sp vm + 1) (stack vm ++ [v])
       (callStack vm) (pools vm).

Definition pop (vm : VM) : result (Value * VM) :=
  if sp vm =? 0 then Panic (Msg "Stack underflow")
  else
    let sp' := sp vm - 1 in
    let* v := index (stack vm) sp' in
    Ok (v, mkVM (constants vm) (code vm) (ip vm) sp'
                (take (Z.to_nat sp') (stack vm)) (callStack vm) (pools vm)).

Definition peek (vm : VM) : result Value :=
  if sp vm =? 0 then Panic (Msg "Stack empty")
  else index (stack vm) (sp vm - 1).

(** ** Helpers *)

Definition readInt (vm : VM) : result (Z * VM) :=
  let* v := Uint32At (code vm) (ip vm) in
  Ok (v, set_ip vm (ip vm + 4)).

Definition hexDigit (n : Z) : string :=
  String.substring (Z.to_nat n) 1 "0123456789ABCDEF".

(** [fmt.Sprintf("%02X", op)] *)
Definition hex2 (b : byte) : string :=
  (hexDigit (b2z b / 16) ++ hexDigit (b2z b mod 16))%string.

(** [fmt.Sprintf("%d", b)] *)
Definition decimal (b : byte) : string :=
  NilZero.string_of_uint (N.to_uint (Byte.to_N b)).

(** The outcome of one turn of [Run]'s loop: go on, or [return]. *)
Inductive outcome : Type :=
| Next (vm : VM)
| Done (r : option Value) (vm : VM).

(** [b := vm.pop().(float64); a := vm.pop().(float64); vm.push(f(a, b))] *)
Definition binaryFloat (f : float -> float -> float) (vm : VM) : result outcome :=
  let* (b, vm) := pop vm in
  let* b := asFloat b in
  let* (a, vm) := pop vm in
  let* a := asFloat a in
  Ok (Next (push (VFloat (f a b)) vm)).

(** [b := vm.pop(); a := vm.pop(); vm.push(boolToFloat(f(a, b)))] *)
Definition binaryAny (f : Value -> Value -> bool) (vm : VM) : result outcome :=
  let* (b, vm) := pop vm in
  let* (a, vm) := pop vm in
  Ok (Next (push (VFloat (boolToFloat (f a b))) vm)).

(** ** Loading a module

    The argument of [loadModule] is a Go slice: [code] holds its [len(code)]
    bytes and [slack] the bytes of its backing array between its length and
    its capacity.  An index expression [code[i]] and the low bound of
    [code[lo:]] are checked against the length; the high bound of a slice
    expression [code[lo:hi]] is checked against the capacity. *)

Definition slice (code slack : list byte) (lo hi : Z) : result (list byte) :=
  if (0 <=? lo) && (lo <=? hi) && (hi <=? len code + len slack)
  then Ok (take (Z.to_nat (hi - lo)) (drop (Z.to_nat lo) (code ++ slack)))
  else Panic SliceBoundsOutOfRange.

(** The inner loop over the constants of a function chunk, [n] turns left. *)
Fixpoint skipConstants (n : nat) (code : list byte) (offset : Z) : result Z :=
  match n with
  | O => Ok offset
  | S n' =>
      let* kind := index code offset in
      let offset := offset + 1 in
      let* offset :=
        match kind with
        | x01 => let* l := Uint32At code offset in Ok (offset + (4 + l))
        | x02 => Ok (offset + 8)
        | x03 => Ok (offset + 4)
        | _ => Panic (Msg "Unknown constant type in function chunk")
        end in
      skipConstants n' code offset
  end.

(** The loop that skips the function chunks, [n] turns left. *)
Fixpoint skipFunctions (n : nat) (code : list byte) (offset : Z) : result Z :=
  match n with
  | O => Ok offset
  | S n' =>
      let* cCount := Uint32At code offset in
      let offset := offset + 4 in
      let* offset := skipConstants (Z.to_nat cCount) code offset in
      let* l := Uint32At code offset in
      skipFunctions n' code (offset + (4 + l))
  end.

(** The loop over the constants of the main chunk, [n] turns left: the
    constants read and the offset after them. *)
Fixpoint readConstants (n : nat) (code slack : list byte) (offset : Z)
  : result (list Value * Z) :=
  match n with
  | O => Ok ([], offset)
  | S n' =>
      let* kind := index code offset in
      let offset := offset + 1 in
      let* (v, offset) :=
        match kind with
        | x01 =>
            let* l := Uint32At code offset in
            let offset := offset + 4 in
            let* str := slice code slack offset (offset + l) in
            Ok (VString (string_of_list_byte str), offset + l)
        | x02 =>
            let* bits := Uint64At code offset in
            Ok (VFloat (F64.Float64frombits bits), offset + 8)
        | x03 =>
            let* v := Uint32At code offset in
            Ok (VInt v, offset + 4)
        | _ => Panic (Msg "Unknown constant type in main chunk")
        end in
      let* (rest, offset) := readConstants n' code slack offset in
      Ok (v :: rest, offset)
  end.

(** The scan of [loadModule]: the constants and the code of the main chunk,
    and the offset just after the main code ([offset+codeLen]). *)
Definition scanModule (code slack : list byte) : result (Pool * list byte * Z) :=
  let* magic := slice code slack 0 3 in
  if negb (String.eqb (string_of_list_byte magic) "KBC")
  then Panic (Msg "Invalid bytecode header")
  else
    let* version := index code 3 in
    if negb (b2z version =? 2)
    then Panic (Msg ("Unsupported KBC version: " ++ decimal version))
    else
      let offset := 4 in
      let* fnCount := Uint32At code offset in
      let offset := offset + 4 in
      let* offset := skipFunctions (Z.to_nat fnCount) code offset in
      let* cCount := Uint32At code offset in
      let offset := offset + 4 in
      let* (consts, offset) := readConstants (Z.to_nat cCount) code slack offset in
      let* codeLen := Uint32At code offset in
      let offset := offset + 4 in
      let* mainCode := slice code slack offset (offset + codeLen) in
      Ok (consts, mainCode, offset + codeLen).

(** [loadModule]: the new pool is allocated at the end of the store. *)
Definition loadModule (vm : VM) (code slack : list byte) : result VM :=
  let* (cc, _) := scanModule code slack in
  let '(consts, mainCode) := cc in
  Ok (mkVM (length (pools vm)) mainCode 0 0 (stack vm) (callStack vm)
           (pools vm ++ [consts])).

Definition New (code slack : list byte) : result VM :=
  loadModule (mkVM 0 [] 0 0 [] [] []) code slack.

Section Machine.

(** [loadFunction] is not part of the sources at hand: it resolves a
    function identifier to the function's code and constant pool, or
    panics.  It may allocate the pool or hand out one that exists. *)
Variable loadFunction : Z -> list Pool -> result (list byte * nat * list Pool).

(** The loop [for i := 0; i < argCount; i++ { vm.push(vm.stack[base+i]) }],
    with [n] turns left. *)
Fixpoint pushArgs (n : nat) (i : Z) (base : Z) (vm : VM) : result VM :=
  match n with
  | O => Ok vm
  | S n' =>
      let* v := index (stack vm) (base + i) in
      pushArgs n' (i + 1) base (push v vm)
  end.

Definition callFunction (fnID argCount : Z) (vm : VM) : result VM :=
  let* (fn, pools') := loadFunction fnID (pools vm) in
  let '(fnCode, fnConsts) := fn in
  let frame := Frame.mk (ip vm) (sp vm - argCount) (code vm) (constants vm) in
  let vm := mkVM fnConsts fnCode 0 0 (stack vm) (callStack vm ++ [frame]) pools' in
  pushArgs (Z.to_nat argCount) 0 (Frame.spBackup frame) vm.

Definition returnFromFunction (vm : VM) : result VM :=
  let* (ret, vm) := pop vm in
  let* frame := index (callStack vm) (len (callStack vm) - 1) in
  let vm := mkVM (Frame.consts frame) (Frame.code frame) (Frame.ipBackup frame)
                 (Frame.spBackup frame) (stack vm)
                 (take (Z.to_nat (len (callStack vm) - 1)) (callStack vm))
                 (pools vm) in
  Ok (push ret vm).

(** One turn of the loop of [Run]: fetch, advance, dispatch. *)
Definition step (vm : VM) : result outcome :=
  let* op := index (code vm) (ip vm) in
  let vm := set_ip vm (ip vm + 1) in
  match op with
  | x01 => (* OP_CONST *)
      let* (idx, vm) := readInt vm in
      let* v := index (activePool vm) idx in
      Ok (Next (push v vm))
  | x02 => binaryFloat PrimFloat.add vm
  | x03 => binaryFloat PrimFloat.sub vm
  | x04 => binaryFloat PrimFloat.mul vm
  | x05 => binaryFloat PrimFloat.div vm
  | x06 => binaryFloat F64.Mod vm
  | x07 => binaryAny iface_eq vm
  | x08 => binaryAny (fun a b => negb (iface_eq a b)) vm
  | x09 => binaryFloat (fun a b => boolToFloat (PrimFloat.ltb a b)) vm
  | x0a => binaryFloat (fun a b => boolToFloat (PrimFloat.ltb b a)) vm
  | x0b => binaryFloat (fun a b => boolToFloat (PrimFloat.leb a b)) vm
  | x0c => binaryFloat (fun a b => boolToFloat (PrimFloat.leb b a)) vm
  | x0d => (* OP_AND *)
      binaryFloat (fun a b => boolToFloat (negb (PrimFloat.eqb a 0) &&
                                           negb (PrimFloat.eqb b 0))) vm
  | x0e => (* OP_OR *)
      binaryFloat (fun a b => boolToFloat (negb (PrimFloat.eqb a 0) ||
                                           negb (PrimFloat.eqb b 0))) vm
  | x0f => (* OP_NOT *)
      let* (a, vm) := pop vm in
      let* a := asFloat a in
      Ok (Next (push (VFloat (boolToFloat (PrimFloat.eqb a 0))) vm))
  | x10 => (* OP_LOAD *)
      let* (idx, vm) := readInt vm in
      let* v := index (activePool vm) idx in
      Ok (Next (push v vm))
  | x11 => (* OP_STORE *)
      let* (idx, vm) := readInt vm in
      let* (val, vm) := pop vm in
      let* _ := index (activePool vm) idx in
      let pool' := <[Z.to_nat idx := val]> (activePool vm) in
      Ok (Next (mkVM (constants vm) (code vm) (ip vm) (sp vm) (stack vm)
                     (callStack vm) (<[constants vm := pool']> (pools vm))))
  | x12 => (* OP_CALL *)
      let* (argCount, vm) := readInt vm in
      let* (f, vm) := pop vm in
      let* f := asFloat f in
      let* vm := callFunction (F64.to_int f) argCount vm in
      Ok (Next vm)
  | x13 => (* OP_RET *)
      if len (callStack vm) =? 0
      then let* (v, vm) := pop vm in Ok (Done (Some v) vm)
      else let* vm := returnFromFunction vm in Ok (Next vm)
  | x14 => (* OP_JMP *)
      let* (target, vm) := readInt vm in
      Ok (Next (set_ip vm target))
  | x15 => (* OP_JMPF *)
      let* (target, vm) := readInt vm in
      let* (cond, vm) := pop vm in
      let* cond := asFloat cond in
      if PrimFloat.eqb cond 0 then Ok (Next (set_ip vm target)) else Ok (Next vm)
  | x16 => (* OP_POP *)
      let* (_, vm) := pop vm in
      Ok (Next vm)
  | x17 => (* OP_EXIT *)
      Ok (Done None vm)
  | _ => Panic (Msg ("Unknown opcode: " ++ hex2 op))
  end.

(** [Run]: [None] when [fuel] turns of the loop were not enough; otherwise
    the returned value ([None] for Go's [nil]) and the machine as [Run]
    left it, or the panic. *)
Fixpoint Run (fuel : nat) (vm : VM) : option (result (option Value * VM)) :=
  if ip vm <? len (code vm) then
    match fuel with
    | O => None
    | S fuel' =>
        match step vm with
        | Panic p => Some (Panic p)
        | Ok (Done r vm') => Some (Ok (r, vm'))
        | Ok (Next vm') => Run fuel' vm'
        end
    end
  else Some (Ok (None, vm)).

(** [n] turns of the loop of [Run], none of which returns. *)
Fixpoint stepN (n : nat) (vm : VM) : result VM :=
  match n with
  | O => Ok vm
  | S n' =>
      let* o := step vm in
      match o with
      | Next vm' => stepN n' vm'
      | Done _ _ => Panic (Msg "returned")
      end
  end.

End Machine.

End kvm.

(** ** The emitter (package [bytecode]) *)

Module bytecode.

Definition OP_CONST : byte := x01.
Definition OP_ADD : byte := x02.
Definition OP_SUB : byte := x03.
Definition OP_MUL : byte := x04.
Definition OP_DIV : byte := x05.
Definition OP_MOD : byte := x06.
Definition OP_EQ : byte := x07.
Definition OP_NEQ : byte := x08.
Definition OP_LT : byte := x09.
Definition OP_GT : byte := x0a.
Definition OP_LE : byte := x0b.
Definition OP_GE : byte := x0c.
Definition OP_AND : byte := x0d.
Definition OP_OR : byte := x0e.
Definition OP_NOT : byte := x0f.
Definition OP_LOAD : byte := x10.
Definition OP_STORE : byte := x11.
Definition OP_CALL : byte := x12.
Definition OP_RET : byte := x13.
Definition OP_JMP : byte := x14.
Definition OP_JMPF : byte := x15.
Definition OP_POP : byte := x16.
Definition OP_EXIT : byte := x17.

(** *** The syntax tree the emitter consumes

    The declarations of package [parser]'s tree are not among the sources;
    the constructors and fields are those [emitStmt] and [emitExpr] (and the
    expression parser) use. *)
#[local] Unset Elimination Schemes.

Inductive Expr : Type :=
| NumberExpr (Value : string)
| StringExpr (Value : string)
| BoolExpr (Value : bool)
| IdentExpr (Name : string)
| AssignExpr (Name : string) (E : Expr)
| UnaryExpr (Op : string) (E : Expr)
| BinaryExpr (Left : Expr) (Op : string) (Right : Expr)
| CallExpr (Callee : Expr) (Args : list Expr)
| MemberExpr (Object : Expr) (Name : string)
| ParenExpr (E : Expr).

Inductive Stmt (FuncDecl : Type) : Type :=
| ExprStmt (E : Expr)
| LetStmt (Name : string) (E : Expr)
| ReturnStmt (Value : Expr)
| ExitStmt
| PassStmt
| IfStmt (Cond : Expr) (Then Else : list (Stmt FuncDecl))
| WhileStmt (Cond : Expr) (Body : list (Stmt FuncDecl))
| ForStmt (VarName : string) (Limit : Expr) (Body : list (Stmt FuncDecl))
| FuncDef (d : FuncDecl)
| FuncExprDef (d : FuncDecl)
| FuncOneLiner (d : FuncDecl).
#[local] Set Elimination Schemes.

Arguments ExprStmt {FuncDecl} E.
Arguments LetStmt {FuncDecl} Name E.
Arguments ReturnStmt {FuncDecl} Value.
Arguments ExitStmt {FuncDecl}.
Arguments PassStmt {FuncDecl}.
Arguments IfStmt {FuncDecl} Cond Then Else.
Arguments WhileStmt {FuncDecl} Cond Body.
Arguments ForStmt {FuncDecl} VarName Limit Body.
Arguments FuncDef {FuncDecl} d.
Arguments FuncExprDef {FuncDecl} d.
Arguments FuncOneLiner {FuncDecl} d.

(** *** Chunks *)

Record Chunk : Type := mkChunk {
  Code : list byte;
  Constants : list Value;
  Names : list (string * Z)
}.

Definition NewChunk : Chunk := mkChunk [] [] [].

Definition emit (c : Chunk) (b : byte) : Chunk :=
  mkChunk (Code c ++ [b]) (Constants c) (Names c).

Definition emitInt (c : Chunk) (v : Z) : Chunk :=
  mkChunk (Code c ++ le_encode 4 v) (Constants c) (Names c).

Definition addConst (c : Chunk) (v : Value) : Z * Chunk :=
  (len (Constants c), mkChunk (Code c) (Constants c ++ [v]) (Names c)).

(** *** Helpers *)

(** [binary.LittleEndian.PutUint32(c.Code[pos:pos+4], uint32(len(c.Code)))].
    The emitter calls it with the offset of four bytes it has emitted, so
    [pos+4] never exceeds the length of the code. *)
Definition patchJump (c : Chunk) (pos : Z) : result Chunk :=
  let target := len (Code c) in
  if (0 <=? pos) && (pos + 4 <=? len (Code c))
  then Ok (mkChunk (take (Z.to_nat pos) (Code c) ++ le_encode 4 target ++
                    drop (Z.to_nat (pos + 4)) (Code c))
                   (Constants c) (Names c))
  else Panic SliceBoundsOutOfRange.

Definition digit (a : ascii) : option Z :=
  let n := Z.of_nat (nat_of_ascii a) in
  if (48 <=? n) && (n <=? 57) then Some (n - 48) else None.

(** The digits at the head of [s] appended to the numeral [acc], how many
    they are, and the rest of [s]. *)
Fixpoint digits (s : string) (acc count : Z) : Z * Z * string :=
  match s with
  | String a t =>
      match digit a with
      | Some d => digits t (10 * acc + d) (count + 1)
      | None => (acc, count, s)
      end
  | EmptyString => (acc, count, s)
  end.

(** A number lexeme, as [lexNumber] cuts it from ASCII digits and as the
    parser stores it in a [NumberExpr]: a digit, then digits with at most one
    dot among them. *)
Definition numberLexeme (s : string) : bool :=
  let '(_, k, rest) := digits s 0 0 in
  (0 <? k) &&
  match rest with
  | EmptyString => true
  | String "."%char frac =>
      match digits frac 0 0 with
      | (_, _, EmptyString) => true
      | _ => false
      end
  | _ => false
  end.

(** [strconv.ParseFloat] on the decimal numeral [n / 10^k]: the nearest
    float64, ties to even.  A numeral that rounds beyond the largest float64
    is a range error: no value. *)
Definition ParseFloat (n k : Z) : option float :=
  let f := F64.of_decimal n k in
  if PrimFloat.is_infinity f then None else Some f.

(** [fmt.Sscanf(s, "%f", &v)] on a number lexeme ([numberLexeme]): its digits
    are read as a decimal numeral.  [v] stays 0 when [Sscanf] fails: when
    there is no digit to scan, and when [ParseFloat] reports a range error.
    The other forms that [Sscanf] reads (signs, exponents, leading spaces,
    hexadecimal and named values) are no number lexemes and are not modelled:
    on a string that goes on after its digits the numeral read here stops
    where the digits stop. *)
Definition parseNumber (s : string) : float :=
  let '(n, k, rest) := digits s 0 0 in
  match rest with
  | String "."%char frac =>
      let '(n', k', _) := digits frac n 0 in
      if (k =? 0) && (k' =? 0) then PrimFloat.zero
      else default PrimFloat.zero (ParseFloat n' k')
  | _ => if k =? 0 then PrimFloat.zero else default PrimFloat.zero (ParseFloat n 0)
  end.

(** *** Expression emission *)

Definition emitBinaryOp (c : Chunk) (op : string) : result Chunk :=
  if String.eqb op "+" then Ok (emit c OP_ADD)
  else if String.eqb op "-" then Ok (emit c OP_SUB)
  else if String.eqb op "*" then Ok (emit c OP_MUL)
  else if String.eqb op "/" then Ok (emit c OP_DIV)
  else if String.eqb op "%" then Ok (emit c OP_MOD)
  else if String.eqb op "==" then Ok (emit c OP_EQ)
  else if String.eqb op "!=" then Ok (emit c OP_NEQ)
  else if String.eqb op "<" then Ok (emit c OP_LT)
  else if String.eqb op ">" then Ok (emit c OP_GT)
  else if String.eqb op "<=" then Ok (emit c OP_LE)
  else if String.eqb op ">=" then Ok (emit c OP_GE)
  else if String.eqb op "&&" then Ok (emit c OP_AND)
  else if String.eqb op "||" then Ok (emit c OP_OR)
  else Panic (Msg ("Unknown binary operator: " ++ op)).

(** [for _, x := range xs { f(c, x) }] *)
Definition emitAll {A : Type} (f : Chunk -> A -> result Chunk)
  : Chunk -> list A -> result Chunk :=
  fix go (c : Chunk) (xs : list A) : result Chunk :=
    match xs with
    | [] => Ok c
    | x :: rest => let* c := f c x in go c rest
    end.

Fixpoint emitExpr (c : Chunk) (expr : Expr) {struct expr} : result Chunk :=
  match expr with
  | NumberExpr value =>
      let val := parseNumber value in
      let '(slot, c) := addConst c (VFloat val) in
      Ok (emitInt (emit c OP_CONST) slot)
  | StringExpr value =>
      let '(slot, c) := addConst c (VString value) in
      Ok (emitInt (emit c OP_CONST) slot)
  | BoolExpr value =>
      let val := if value then 1%float else 0%float in
      let '(slot, c) := addConst c (VFloat val) in
      Ok (emitInt (emit c OP_CONST) slot)
  | IdentExpr name =>
      let '(slot, c) := addConst c (VString name) in
      Ok (emitInt (emit c OP_LOAD) slot)
  | AssignExpr name e =>
      let* c := emitExpr c e in
      let '(slot, c) := addConst c (VString name) in
      Ok (emitInt (emit c OP_STORE) slot)
  | UnaryExpr op e =>
      let* c := emitExpr c e in
      if String.eqb op "-" then
        let c := emit c OP_CONST in
        let '(slot, c) := addConst c (VFloat (-1)%float) in
        Ok (emit (emitInt c slot) OP_MUL)
      else if String.eqb op "!" then Ok (emit c OP_NOT)
      else Panic (Msg ("Unknown unary operator: " ++ op))
  | BinaryExpr l op r =>
      let* c := emitExpr c l in
      let* c := emitExpr c r in
      emitBinaryOp c op
  | CallExpr _ args =>
      let* c := emitAll (fun c arg => emitExpr c arg) c args in
      Ok (emitInt (emit c OP_CALL) (len args))
  | MemberExpr _ _ => Panic (Msg "Member access not implemented yet")
  | ParenExpr e => emitExpr c e
  end.

(** *** Statement emission *)

Section Statements.

(** The function-compilation path ([emitFunctionDef], [emitFunctionExpr],
    [emitFunctionOneLiner] of functions.go) is not among the sources: it
    is a parameter, and so is the type of what the three statements
    carry. *)
Variable FuncDecl : Type.
Variable emitFunctionDef : Chunk -> FuncDecl -> result Chunk.
Variable emitFunctionExpr : Chunk -> FuncDecl -> result Chunk.
Variable emitFunctionOneLiner : Chunk -> FuncDecl -> result Chunk.

Fixpoint emitStmt (c : Chunk) (stmt : Stmt FuncDecl) {struct stmt} : result Chunk :=
  match stmt with
  | ExprStmt e =>
      let* c := emitExpr c e in
      Ok (emit c OP_POP)
  | LetStmt name e =>
      let* c := emitExpr c e in
      let '(slot, c) := addConst c (VString name) in
      Ok (emitInt (emit c OP_STORE) slot)
  | ReturnStmt value =>
      let* c := emitExpr c value in
      Ok (emit c OP_RET)
  | ExitStmt => Ok (emit c OP_EXIT)
  | PassStmt => Ok c
  | IfStmt cond thn els =>
      let* c := emitExpr c cond in
      let c := emit c OP_JMPF in
      let jumpPos := len (Code c) in
      let c := emitInt c 0 in
      let* c := emitAll (fun c st => emitStmt c st) c thn in
      if 0 <? len els then
        let c := emit c OP_JMP in
        let elseJump := len (Code c) in
        let c := emitInt c 0 in
        let* c := patchJump c jumpPos in
        let* c := emitAll (fun c st => emitStmt c st) c els in
        patchJump c elseJump
      else patchJump c jumpPos
  | WhileStmt cond body =>
      let loopStart := len (Code c) in
      let* c := emitExpr c cond in
      let c := emit c OP_JMPF in
      let exitPos := len (Code c) in
      let c := emitInt c 0 in
      let* c := emitAll (fun c st => emitStmt c st) c body in
      let c := emit c OP_JMP in
      let c := emitInt c loopStart in
      patchJump c exitPos
  | ForStmt varName limit body =>
      let* c := emitExpr c limit in
      let '(limitSlot, c) := addConst c (VString (varName ++ "_limit")) in
      let c := emit c OP_STORE in
      let c := emitInt c limitSlot in
      let '(iSlot, c) := addConst c (VString varName) in
      let c := emit c OP_CONST in
      let '(zeroSlot, c) := addConst c (VFloat 0%float) in
      let c := emitInt c zeroSlot in
      let c := emit c OP_STORE in
      let c := emitInt c iSlot in
      let loopStart := len (Code c) in
      let c := emit c OP_LOAD in
      let c := emitInt c iSlot in
      let c := emit c OP_LOAD in
      let c := emitInt c limitSlot in
      let c := emit c OP_GE in
      let c := emit c OP_JMPF in
      let exitPos := len (Code c) in
      let c := emitInt c 0 in
      let* c := emitAll (fun c st => emitStmt c st) c body in
      let c := emit c OP_LOAD in
      let c := emitInt c iSlot in
      let c := emit c OP_CONST in
      let '(oneSlot, c) := addConst c (VFloat 1%float) in
      let c := emitInt c oneSlot in
      let c := emit c OP_ADD in
      let c := emit c OP_STORE in
      let c := emitInt c iSlot in
      let c := emit c OP_JMP in
      let c := emitInt c loopStart in
      patchJump c exitPos
  | FuncDef d => emitFunctionDef c d
  | FuncExprDef d => emitFunctionExpr c d
  | FuncOneLiner d => emitFunctionOneLiner c d
  end.

(** The body of [Emit] up to the encoding: the statements of the top
    level into a new chunk, then the implicit return of main. *)
Definition emitMain (topLevel : list (Stmt FuncDecl)) : result Chunk :=
  let* mainChunk := emitAll emitStmt NewChunk topLevel in
  Ok (emit mainChunk OP_RET).

End Statements.

(** *** The module encoder *)

(** Modelled from the spec: a module is an ordered function table and one
    main chunk, each a constant pool and a code sequence (section 3 of the
    specification); the encoder that takes one is not among the sources. *)
Record Function : Type := mkFunction {
  fnConsts : list Value;
  fnCode : list byte
}.

Record Module : Type := mkModule {
  functions : list Function;
  main : Function
}.

Definition magic : list byte := [x4b; x42; x43].

(** Modelled from the spec: the encoding of one constant (section 6 of the
    specification: kind byte, then the payload); the encoder,
    [encodeModuleWithFunctions], is not among the sources. *)
Definition encodeConstant (v : Value) : list byte :=
  match v with
  | VString s =>
      x01 :: le_encode 4 (len (list_byte_of_string s)) ++ list_byte_of_string s
  | VFloat f => x02 :: le_encode 8 (F64.Float64bits f)
  | VInt z => x03 :: le_encode 4 z
  end.

(** Modelled from the spec: a chunk in the binary format of section 6, the
    count of constants, the constants, the length of the code, the code. *)
Definition encodeFunction (f : Function) : list byte :=
  le_encode 4 (len (fnConsts f)) ++ flat_map encodeConstant (fnConsts f) ++
  le_encode 4 (len (fnCode f)) ++ fnCode f.

(** Modelled from the spec: the binary module format "KBC" version 2 of
    section 6, for the encoder [encodeModuleWithFunctions] that is not
    among the sources. *)
Definition encode (m : Module) : list byte :=
  magic ++ [x02] ++ le_encode 4 (len (functions m)) ++
  flat_map encodeFunction (functions m) ++ encodeFunction (main m).

(** Modelled from the spec: [encodeModuleWithFunctions(mainChunk)] encodes
    the function table, here the argument [table] in place of the global
    table the function-compilation path fills, and the main chunk. *)
Definition encodeModuleWithFunctions (table : list Function) (mainChunk : Chunk)
  : list byte :=
  encode (mkModule table (mkFunction (Constants mainChunk) (Code mainChunk))).

(** [Emit], with the function table the statements registered. *)
Definition Emit {FuncDecl : Type}
    (emitFunctionDef emitFunctionExpr emitFunctionOneLiner
       : Chunk -> FuncDecl -> result Chunk)
    (table : list Function) (topLevel : list (Stmt FuncDecl)) : result (list byte) :=
  let* mainChunk :=
    emitMain FuncDecl emitFunctionDef emitFunctionExpr emitFunctionOneLiner topLevel in
  Ok (encodeModuleWithFunctions table mainChunk).

End bytecode.

(** ** The lexer (package [lexer]) *)

Module lexer.

Inductive TokenType : Type :=
| ILLEGAL | EOF | NEWLINE | INDENT | DEDENT
| IDENT | NUMBER | STRING
| K_DEF | K_FUNC | K_USE | K_LET | K_IF | K_ELSE | K_WHILE | K_FOR
| K_RETURN | K_EXIT | K_PASS | K_TRUE | K_FALSE
| K_I32 | K_I64 | K_F32 | K_F64 | K_BOOL | K_STRING | K_VOID
| ASSIGN | PLUS | MINUS | STAR | SLASH | PERCENT | BANG
| LT | GT | LE | GE | EQ | NEQ | AND | OR
| PLUS_EQ | MINUS_EQ | MUL_EQ | DIV_EQ
| COMMA | COLON | DOT | LPAREN | RPAREN | LBRACE | RBRACE
| LBRACKET | RBRACKET | ARROW.

(** A [rune] is a code point.  A string the lexer makes from runes,
    [string(l.src[a:b])] or [string(ch)], is modelled by these runes. *)
Definition rune : Type := Z.

Definition rn (c : ascii) : rune := Z.of_nat (nat_of_ascii c).

Fixpoint runes (s : string) : list rune :=
  match s with
  | EmptyString => []
  | String c s' => rn c :: runes s'
  end.

Definition newline : rune := 10.
Definition tab : rune := 9.
Definition carriageReturn : rune := 13.
Definition space : rune := rn " ".
Definition doubleQuote : rune := 34.
Definition singleQuote : rune := rn "'".

Record Token : Type := mkToken {
  Type_ : TokenType;
  Lexeme : list rune;
  Line : Z;
  Column : Z
}.

Record Lexer : Type := mkLexer {
  src : list rune;
  pos : Z;
  line : Z;
  col : Z;
  indentStack : list Z;
  startOfLine : bool
}.

Definition New (src : list rune) : Lexer := mkLexer src 0 1 0 [0] true.

Definition isAtEnd (l : Lexer) : bool := len (src l) <=? pos l.

(** [l.src[i]], for an index the lexer has checked against [len(l.src)];
    [l.pos] starts at 0 and only grows. *)
Definition runeAt (l : Lexer) (i : Z) : rune := nth (Z.to_nat i) (src l) 0.

Definition advance (l : Lexer) : rune * Lexer :=
  if isAtEnd l then (0, l)
  else (runeAt l (pos l),
        mkLexer (src l) (pos l + 1) (line l) (col l + 1) (indentStack l) (startOfLine l)).

Definition peek (l : Lexer) : rune :=
  if isAtEnd l then 0 else runeAt l (pos l).

Definition peekNext (l : Lexer) : rune :=
  if len (src l) <=? pos l + 1 then 0 else runeAt l (pos l + 1).

Definition peekThird (l : Lexer) : rune :=
  if len (src l) <=? pos l + 2 then 0 else runeAt l (pos l + 2).

(** [l.line++; l.col = 0] *)
Definition nextLine (l : Lexer) : Lexer :=
  mkLexer (src l) (pos l) (line l + 1) 0 (indentStack l) (startOfLine l).

Definition setStartOfLine (l : Lexer) (b : bool) : Lexer :=
  mkLexer (src l) (pos l) (line l) (col l) (indentStack l) b.

Definition setIndentStack (l : Lexer) (s : list Z) : Lexer :=
  mkLexer (src l) (pos l) (line l) (col l) s (startOfLine l).

(** [string(l.src[a:b])] *)
Definition lexeme (l : Lexer) (a b : Z) : list rune :=
  take (Z.to_nat (b - a)) (drop (Z.to_nat a) (src l)).

(** One turn of a loop: go on with the next turn, or [break]. *)
Inductive flow (S : Type) : Type :=
| Continue (s : S)
| Break (s : S).
Arguments Continue {S} s.
Arguments Break {S} s.

(** [for !l.isAtEnd() { body }] on a state that holds the lexer, [fuel] turns
    at most: [None] when they were not enough. *)
Fixpoint forNotAtEnd {S : Type} (lexerOf : S -> Lexer) (body : S -> flow S)
    (fuel : nat) (s : S) : option S :=
  match fuel with
  | O => None
  | Datatypes.S fuel' =>
      if isAtEnd (lexerOf s) then Some s
      else match body s with
           | Continue s' => forNotAtEnd lexerOf body fuel' s'
           | Break s' => Some s'
           end
  end.

Definition skipWhitespaceExceptNewline (fuel : nat) (l : Lexer) : option Lexer :=
  forNotAtEnd id
    (fun l =>
       let ch := peek l in
       if (ch =? space) || (ch =? tab) || (ch =? carriageReturn)
       then Continue (snd (advance l))
       else Break l)
    fuel l.

Definition skipLineComment (fuel : nat) (l : Lexer) : option Lexer :=
  forNotAtEnd id
    (fun l => if negb (peek l =? newline) then Continue (snd (advance l)) else Break l)
    fuel l.

Definition skipBlockComment (fuel : nat) (l : Lexer) : option Lexer :=
  let l := snd (advance l) in
  let l := snd (advance l) in
  forNotAtEnd id
    (fun l =>
       if (peek l =? rn "*") && (peekNext l =? rn "/")
       then Break (snd (advance (snd (advance l))))
       else
         let '(ch, l) := advance l in
         Continue (if ch =? newline then nextLine l else l))
    fuel l.

Fixpoint sameRunes (a b : list rune) : bool :=
  match a, b with
  | [], [] => true
  | x :: a', y :: b' => (x =? y) && sameRunes a' b'
  | _, _ => false
  end.

Definition isWord (lex : list rune) (s : string) : bool := sameRunes lex (runes s).

(** The [switch lex] of [lexIdentifierOrKeyword]. *)
Definition keyword (lex : list rune) : TokenType :=
  if isWord lex "def" then K_DEF
  else if isWord lex "func" then K_FUNC
  else if isWord lex "use" then K_USE
  else if isWord lex "let" then K_LET
  else if isWord lex "if" then K_IF
  else if isWord lex "else" then K_ELSE
  else if isWord lex "while" then K_WHILE
  else if isWord lex "for" then K_FOR
  else if isWord lex "return" then K_RETURN
  else if isWord lex "exit" then K_EXIT
  else if isWord lex "pass" then K_PASS
  else if isWord lex "true" then K_TRUE
  else if isWord lex "false" then K_FALSE
  else if isWord lex "i32" then K_I32
  else if isWord lex "i64" then K_I64
  else if isWord lex "f32" then K_F32
  else if isWord lex "f64" then K_F64
  else if isWord lex "bool" then K_BOOL
  else if isWord lex "string" then K_STRING
  else if isWord lex "void" then K_VOID
  else IDENT.

(** Fuel and option: [None] is fuel that was not enough. *)
Definition andThen {A B : Type} (o : option A) (k : A -> option B) : option B :=
  match o with
  | Some a => k a
  | None => None
  end.

Section Lexer.

(** [unicode.IsLetter] and [unicode.IsDigit] of Go's library. *)
Variable IsLetter IsDigit : rune -> bool.

Definition isLetter (ch : rune) : bool := IsLetter ch || (ch =? rn "_").

Definition isDigit (ch : rune) : bool := IsDigit ch.

Definition lexIdentifierOrKeyword (fuel : nat) (l : Lexer) : option (Token * Lexer) :=
  let startCol := col l in
  let startPos := pos l in
  andThen
    (forNotAtEnd id
       (fun l =>
          if isLetter (peek l) || isDigit (peek l) || (peek l =? rn "_")
          then Continue (snd (advance l))
          else Break l)
       fuel l)
    (fun l =>
       let lex := lexeme l startPos (pos l) in
       Some (mkToken (keyword lex) lex (line l) startCol, l)).

Definition lexNumber (fuel : nat) (l : Lexer) : option (Token * Lexer) :=
  let startCol := col l in
  let startPos := pos l in
  andThen
    (forNotAtEnd snd
       (fun '(hasDot, l) =>
          let ch := peek l in
          if isDigit ch then Continue (hasDot, snd (advance l))
          else if (ch =? rn ".") && negb hasDot then Continue (true, snd (advance l))
          else Break (hasDot, l))
       fuel (false, l))
    (fun '(_, l) =>
       let lex := lexeme l startPos (pos l) in
       Some (mkToken NUMBER lex (line l) startCol, l)).

Definition lexString (quote : rune) (fuel : nat) (l : Lexer) : option (Token * Lexer) :=
  let startCol := col l in
  let l := snd (advance l) in
  let startPos := pos l in
  andThen
    (forNotAtEnd id
       (fun l =>
          if negb (peek l =? quote)
          then let '(ch, l) := advance l in
               Continue (if ch =? newline then nextLine l else l)
          else Break l)
       fuel l)
    (fun l =>
       let lex := lexeme l startPos (pos l) in
       let l := if negb (isAtEnd l) then snd (advance l) else l in
       Some (mkToken STRING lex (line l) startCol, l)).

Definition lexTripleString (fuel : nat) (l : Lexer) : option (Token * Lexer) :=
  let startCol := col l in
  let l := snd (advance l) in
  let l := snd (advance l) in
  let l := snd (advance l) in
  let startPos := pos l in
  andThen
    (forNotAtEnd id
       (fun l =>
          if (peek l =? doubleQuote) && (peekNext l =? doubleQuote) &&
             (peekThird l =? doubleQuote)
          then Break l
          else let '(ch, l) := advance l in
               Continue (if ch =? newline then nextLine l else l))
       fuel l)
    (fun l =>
       let lex := lexeme l startPos (pos l) in
       let l := if negb (isAtEnd l)
                then snd (advance (snd (advance (snd (advance l)))))
                else l in
       Some (mkToken STRING lex (line l) startCol, l)).

Definition symbol (l : Lexer) (t : TokenType) (s : string) : Token :=
  mkToken t (runes s) (line l) (col l - 1).

Definition followedBy (l : Lexer) (c : ascii) : bool := peek l =? rn c.

Definition lexSymbol (l : Lexer) : Token * Lexer :=
  let '(ch, l) := advance l in
  let startCol := col l - 1 in
  let illegal := (mkToken ILLEGAL [ch] (line l) startCol, l) in
  if ch =? rn "," then (symbol l COMMA ",", l)
  else if ch =? rn ":" then (symbol l COLON ":", l)
  else if ch =? rn "." then (symbol l DOT ".", l)
  else if ch =? rn "(" then (symbol l LPAREN "(", l)
  else if ch =? rn ")" then (symbol l RPAREN ")", l)
  else if ch =? rn "{" then (symbol l LBRACE "{", l)
  else if ch =? rn "}" then (symbol l RBRACE "}", l)
  else if ch =? rn "[" then (symbol l LBRACKET "[", l)
  else if ch =? rn "]" then (symbol l RBRACKET "]", l)
  else if ch =? rn "+" then
    if followedBy l "=" then (symbol l PLUS_EQ "+=", snd (advance l)) else (symbol l PLUS "+", l)
  else if ch =? rn "-" then
    if followedBy l ">" then (symbol l ARROW "->", snd (advance l))
    else if followedBy l "=" then (symbol l MINUS_EQ "-=", snd (advance l))
    else (symbol l MINUS "-", l)
  else if ch =? rn "*" then
    if followedBy l "=" then (symbol l MUL_EQ "*=", snd (advance l)) else (symbol l STAR "*", l)
  else if ch =? rn "/" then
    if followedBy l "=" then (symbol l DIV_EQ "/=", snd (advance l)) else (symbol l SLASH "/", l)
  else if ch =? rn "%" then (symbol l PERCENT "%", l)
  else if ch =? rn "=" then
    if followedBy l "=" then (symbol l EQ "==", snd (advance l)) else (symbol l ASSIGN "=", l)
  else if ch =? rn "!" then
    if followedBy l "=" then (symbol l NEQ "!=", snd (advance l)) else (symbol l BANG "!", l)
  else if ch =? rn "<" then
    if followedBy l "=" then (symbol l LE "<=", snd (advance l)) else (symbol l LT "<", l)
  else if ch =? rn ">" then
    if followedBy l "=" then (symbol l GE ">=", snd (advance l)) else (symbol l GT ">", l)
  else if ch =? rn "&" then
    if followedBy l "&" then (symbol l AND "&&", snd (advance l)) else illegal
  else if ch =? rn "|" then
    if followedBy l "|" then (symbol l OR "||", snd (advance l)) else illegal
  else illegal.

(** [lexIndentation], with [nextToken] for [next]. *)
Definition lexIndentation (fuel : nat)
    (next : Lexer -> option (result (Token * Lexer))) (l : Lexer)
  : option (result (Token * Lexer)) :=
  andThen
    (forNotAtEnd snd
       (fun '(count, l) =>
          let ch := peek l in
          if ch =? space then Continue (count + 1, snd (advance l))
          else if ch =? tab then Continue (count + 4, snd (advance l))
          else Break (count, l))
       fuel (0, l))
    (fun '(count, l) =>
       if isAtEnd l || (peek l =? newline) || (peek l =? rn "#") ||
          ((peek l =? rn "/") && (peekNext l =? rn "*"))
       then next (setStartOfLine l false)
       else
         match index (indentStack l) (len (indentStack l) - 1) with
         | Panic p => Some (Panic p)
         | Ok currentIndent =>
             if currentIndent <? count then
               Some (Ok (mkToken INDENT [] (line l) 0,
                         setIndentStack l (indentStack l ++ [count])))
             else if count <? currentIndent then
               Some (Ok (mkToken DEDENT [] (line l) 0,
                         setIndentStack l (removelast (indentStack l))))
             else next l
         end).

(** [nextToken]; [fuel] bounds the turns of each loop and the calls of
    [nextToken] by itself. *)
Fixpoint nextToken (fuel : nat) (l : Lexer) {struct fuel}
  : option (result (Token * Lexer)) :=
  match fuel with
  | O => None
  | S fuel' =>
      if startOfLine l then
        lexIndentation fuel (nextToken fuel') (setStartOfLine l false)
      else
        andThen (skipWhitespaceExceptNewline fuel l) (fun l =>
        if isAtEnd l then
          if 1 <? len (indentStack l) then
            Some (Ok (mkToken DEDENT [] (line l) (col l),
                      setIndentStack l (removelast (indentStack l))))
          else Some (Ok (mkToken EOF [] (line l) (col l), l))
        else
          let ch := peek l in
          if ch =? newline then
            let l := snd (advance l) in
            let l := setStartOfLine (nextLine l) true in
            Some (Ok (mkToken NEWLINE [newline] (line l - 1) 0, l))
          else if ch =? rn "#" then
            andThen (skipLineComment fuel l) (nextToken fuel')
          else if (ch =? rn "/") && (peekNext l =? rn "*") then
            andThen (skipBlockComment fuel l) (nextToken fuel')
          else if isLetter ch || (ch =? rn "_") then
            andThen (lexIdentifierOrKeyword fuel l) (fun r => Some (Ok r))
          else if isDigit ch then
            andThen (lexNumber fuel l) (fun r => Some (Ok r))
          else if ch =? doubleQuote then
            if (peekNext l =? doubleQuote) && (peekThird l =? doubleQuote)
            then andThen (lexTripleString fuel l) (fun r => Some (Ok r))
            else andThen (lexString doubleQuote fuel l) (fun r => Some (Ok r))
          else if ch =? singleQuote then
            andThen (lexString singleQuote fuel l) (fun r => Some (Ok r))
          else Some (Ok (lexSymbol l)))
  end.

Definition isEOF (tok : Token) : bool :=
  match Type_ tok with
  | EOF => true
  | _ => false
  end.

(** [Lex]: the tokens up to the first [EOF], it included. *)
Fixpoint Lex (fuel : nat) (l : Lexer) : option (result (list Token)) :=
  match fuel with
  | O => None
  | S fuel' =>
      match nextToken fuel l with
      | None => None
      | Some (Panic p) => Some (Panic p)
      | Some (Ok (tok, l)) =>
          if isEOF tok then Some (Ok [tok])
          else match Lex fuel' l with
               | Some (Ok tokens) => Some (Ok (tok :: tokens))
               | r => r
               end
      end
  end.

End Lexer.

End lexer.

(** * Properties *)

Import bytecode kvm.

(** ** Programs, machines and predicates the statements use *)

(** A front end without function definitions: the three function emitters
    leave the chunk alone. *)
Definition noFunctions : Chunk -> unit -> result Chunk := fun c _ => Ok c.

(** A function table with no entry: every identifier is unknown. *)
Definition unknownFunction : Z -> list Pool -> result (list byte * nat * list Pool) :=
  fun _ _ => Panic (Msg "unknown function").

(** A function table that only reports the identifier it was asked for. *)
Definition reportFunction : Z -> list Pool -> result (list byte * nat * list Pool) :=
  fun fnID _ => Panic (Msg ("loadFunction " ++ NilZero.string_of_int (Z.to_int fnID))).

(** A function table with the single function 0, whose pool is allocated
    afresh by each call. *)
Definition oneFunction (fnCode : list byte) (fnConsts : Pool)
  : Z -> list Pool -> result (list byte * nat * list Pool) :=
  fun fnID pools =>
    if fnID =? 0 then Ok (fnCode, length pools, pools ++ [fnConsts])
    else Panic (Msg "unknown function").

(** The callee [return 99]: push constant 0, return. *)
Definition return99 : Z -> list Pool -> result (list byte * nat * list Pool) :=
  oneFunction [x01; x00; x00; x00; x00; x13] [VFloat 99].

(** The callee that returns at once what is on top of its stack. *)
Definition returnTop : Z -> list Pool -> result (list byte * nat * list Pool) :=
  oneFunction [x13] [].

(** What [Run] returned, without the machine. *)
Definition returned (r : option (result (option Value * VM)))
  : option (result (option Value)) :=
  match r with
  | None => None
  | Some (Panic p) => Some (Panic p)
  | Some (Ok (v, _)) => Some (Ok v)
  end.

(** Compile the statements, encode with an empty function table, load the
    bytes into a new machine and run it for [fuel] turns. *)
Definition compileAndRun
    (loadFunction : Z -> list Pool -> result (list byte * nat * list Pool))
    (fuel : nat) (prog : list (Stmt unit)) : option (result (option Value)) :=
  match Emit noFunctions noFunctions noFunctions [] prog with
  | Panic p => Some (Panic p)
  | Ok bytes =>
      match New bytes [] with
      | Panic p => Some (Panic p)
      | Ok vm => returned (Run loadFunction fuel vm)
      end
  end.

(** A machine about to run [code] over the pool [consts], with an empty stack. *)
Definition machine (consts : Pool) (code : list byte) : VM :=
  mkVM 0 code 0 0 [] [] [consts].

(** Push constant 0, push constant 1, the operator, return. *)
Definition binaryProgram (op : byte) : list byte :=
  [x01; x00; x00; x00; x00; x01; x01; x00; x00; x00; op; x13].

(** A caller about to execute [call 1], with 10 and 20 below the argument 30
    and the function identifier 0 on top. *)
Definition caller : VM :=
  mkVM 0 [x12; x01; x00; x00; x00; x17] 0 4
       [VFloat 10; VFloat 20; VFloat 30; VFloat 0] [] [[]].

(** The same caller inside [callFunction]: the identifier is popped and the
    instruction pointer is past the call. *)
Definition calling : VM :=
  mkVM 0 [x12; x01; x00; x00; x00; x17] 5 3
       [VFloat 10; VFloat 20; VFloat 30] [] [[]].

(** A machine about to store 5 into slot 0 of its pool, and the machine
    after the store. *)
Definition storing : VM :=
  mkVM 0 [x11; x00; x00; x00; x00; x10; x00; x00; x00; x00] 0 1
       [VFloat 5] [] [[VString "x"]].

Definition stored : VM :=
  mkVM 0 [x11; x00; x00; x00; x00; x10; x00; x00; x00; x00] 5 0
       [] [] [[VFloat 5]].

(** A machine about to store 5, the top of its stack of two, into slot 1 of
    the second of its pools, and the machine after the store. *)
Definition storingTop : VM :=
  mkVM 1 [x11; x01; x00; x00; x00; x10; x01; x00; x00; x00] 0 2
       [VFloat 9; VFloat 5] [] [[VFloat 1]; [VString "x"; VFloat 3; VFloat 4]].

Definition storedTop : VM :=
  mkVM 1 [x11; x01; x00; x00; x00; x10; x01; x00; x00; x00] 5 1
       [VFloat 9] [] [[VFloat 1]; [VString "x"; VFloat 5; VFloat 4]].

(** The guard of a counted loop as [emitStmt] emits it: load the induction
    variable, load the limit, [OP_GE], [OP_JMPF] to the exit. *)
Definition loopGuard (iSlot limitSlot exitTarget : Z) : list byte :=
  [OP_LOAD] ++ le_encode 4 iSlot ++ [OP_LOAD] ++ le_encode 4 limitSlot ++
  [OP_GE; OP_JMPF] ++ le_encode 4 exitTarget.

(** The program [for i <limit>: <body>] followed by [return 7]. *)
Definition forProgram (limit : string) (body : list (Stmt unit)) : list (Stmt unit) :=
  [ForStmt "i" (NumberExpr limit) body; ReturnStmt (NumberExpr "7")].

(** The opcode of a logical operator. *)
Definition logicalOpcode (op : string) : byte :=
  if String.eqb op "&&" then OP_AND else OP_OR.

(** What the machine computes for a logical operator. *)
Definition logicalResult (op : string) (a b : float) : float :=
  if String.eqb op "&&"
  then boolToFloat (negb (PrimFloat.eqb a 0) && negb (PrimFloat.eqb b 0))
  else boolToFloat (negb (PrimFloat.eqb a 0) || negb (PrimFloat.eqb b 0)).

(** [c'] is [c] with code and constants appended. *)
Definition extends (c c' : Chunk) : Prop :=
  (exists bs, Code c' = Code c ++ bs) /\
  (exists vs, Constants c' = Constants c ++ vs) /\
  Names c' = Names c.

(** Sizes that fit the 32-bit fields of the format, and integer constants
    that the loader reads back as they are. *)
Definition wfConstant (v : Value) : Prop :=
  match v with
  | VString s => len (list_byte_of_string s) < 2 ^ 32
  | VFloat _ => True
  | VInt z => 0 <= z < 2 ^ 32
  end.

Definition wfFunction (f : Function) : Prop :=
  len (fnConsts f) < 2 ^ 32 /\ Forall wfConstant (fnConsts f) /\
  len (fnCode f) < 2 ^ 32.

Definition wfModule (m : Module) : Prop :=
  len (functions m) < 2 ^ 32 /\ Forall wfFunction (functions m) /\
  wfFunction (main m).

(** The module of the program [return "abcdefgh"]. *)
Definition stringModule : Module :=
  mkModule [] (mkFunction [VString "abcdefgh"] [x01; x00; x00; x00; x00; x13; x13]).

(** Its bytes: magic and version, no function, one constant (kind 1, length 8,
    the string), seven bytes of code. *)
Definition stringBytes : list byte :=
  [x4b; x42; x43; x02;
   x00; x00; x00; x00;
   x01; x00; x00; x00;
   x01; x08; x00; x00; x00; x61; x62; x63; x64; x65; x66; x67; x68;
   x07; x00; x00; x00;
   x01; x00; x00; x00; x00; x13; x13].

(** [stringBytes] with the payload of its string constant (bytes 17 to 24)
    cut to its first four bytes; the length field before it still says 8. *)
Definition stringBytesCut : list byte := take 21 stringBytes ++ drop 25 stringBytes.

(** The same main chunk behind a function table of one function. *)
Definition stringModuleWithFunction : Module :=
  mkModule [mkFunction [VFloat 1] [x13]] (main stringModule).

(** [rp], computed on a buffer cut short, against [rc], computed on the whole
    buffer: a bounds panic, or the same result. *)
Definition cut_short {A : Type} (rp rc : result A) : Prop :=
  (exists p, rp = Panic p /\ is_bounds_panic p = true) \/ rp = rc.

(** Induction on expressions, with the arguments of a call. *)
Section ExprInduction.

Variable P : Expr -> Prop.
Hypothesis HNumber : forall v, P (NumberExpr v).
Hypothesis HString : forall v, P (StringExpr v).
Hypothesis HBool : forall v, P (BoolExpr v).
Hypothesis HIdent : forall n, P (IdentExpr n).
Hypothesis HAssign : forall n e, P e -> P (AssignExpr n e).
Hypothesis HUnary : forall op e, P e -> P (UnaryExpr op e).
Hypothesis HBinary : forall l op r, P l -> P r -> P (BinaryExpr l op r).
Hypothesis HCall :
  forall callee args, P callee -> Forall P args -> P (CallExpr callee args).
Hypothesis HMember : forall o n, P o -> P (MemberExpr o n).
Hypothesis HParen : forall e, P e -> P (ParenExpr e).

Fixpoint Expr_nested_ind (e : Expr) : P e :=
  match e with
  | NumberExpr v => HNumber v
  | StringExpr v => HString v
  | BoolExpr v => HBool v
  | IdentExpr n => HIdent n
  | AssignExpr n e => HAssign n e (Expr_nested_ind e)
  | UnaryExpr op e => HUnary op e (Expr_nested_ind e)
  | BinaryExpr l op r => HBinary l op r (Expr_nested_ind l) (Expr_nested_ind r)
  | CallExpr callee args =>
      HCall callee args (Expr_nested_ind callee)
        ((fix all (l : list Expr) : Forall P l :=
            match l with
            | [] => @List.Forall_nil _ P
            | x :: t => @List.Forall_cons _ P x t (Expr_nested_ind x) (all t)
            end) args)
  | MemberExpr o n => HMember o n (Expr_nested_ind o)
  | ParenExpr e => HParen e (Expr_nested_ind e)
  end.

End ExprInduction.

(** The stack pointer counts the values of the stack. *)
Definition stackConsistent (vm : VM) : Prop := sp vm = len (stack vm).

(** The opcodes that take two numbers: arithmetic, ordering, and, or. *)
Definition takesTwoNumbers (op : byte) : bool :=
  ((2 <=? b2z op) && (b2z op <=? 6)) || ((9 <=? b2z op) && (b2z op <=? 14)).

Definition isFloat (v : Value) : bool :=
  match v with
  | VFloat _ => true
  | _ => false
  end.

(** The opcodes that pop before anything else. *)
Definition popsFirst (op : byte) : bool :=
  ((2 <=? b2z op) && (b2z op <=? 15)) || (b2z op =? 19) || (b2z op =? 22).

(** The bootstrap [Emit] of package [bytecode], the one that comes before the
    emitter proper: whatever the tree, the header alone, with version 1. *)
Definition EmitBootstrap {AST : Type} (ast : AST) : list byte :=
  [x4b; x42; x43; x01].

(** [c'] is [c] with code and constants appended (whatever its names). *)
Definition grows (c c' : Chunk) : Prop :=
  (exists bs, Code c' = Code c ++ bs) /\ (exists vs, Constants c' = Constants c ++ vs).

(** An emission from [c] went well: it appended, or it stopped on a panic
    that is not a bounds panic of the runtime. *)
Definition fine (c : Chunk) (r : result Chunk) : Prop :=
  match r with
  | Ok c' => grows c c'
  | Panic p => is_bounds_panic p = false
  end.

(** Induction on statements, with the statements of their blocks. *)
Section StmtInduction.

Variable FuncDecl : Type.
Variable P : Stmt FuncDecl -> Prop.
Hypothesis HExpr : forall e, P (ExprStmt e).
Hypothesis HLet : forall n e, P (LetStmt n e).
Hypothesis HReturn : forall e, P (ReturnStmt e).
Hypothesis HExit : P ExitStmt.
Hypothesis HPass : P PassStmt.
Hypothesis HIf : forall cond thn els, Forall P thn -> Forall P els -> P (IfStmt cond thn els).
Hypothesis HWhile : forall cond body, Forall P body -> P (WhileStmt cond body).
Hypothesis HFor : forall v limit body, Forall P body -> P (ForStmt v limit body).
Hypothesis HFuncDef : forall d, P (FuncDef d).
Hypothesis HFuncExprDef : forall d, P (FuncExprDef d).
Hypothesis HFuncOneLiner : forall d, P (FuncOneLiner d).

Fixpoint Stmt_nested_ind (s : Stmt FuncDecl) : P s :=
  let all :=
    fix all (l : list (Stmt FuncDecl)) : Forall P l :=
      match l with
      | [] => @List.Forall_nil _ P
      | x :: t => @List.Forall_cons _ P x t (Stmt_nested_ind x) (all t)
      end in
  match s with
  | ExprStmt e => HExpr e
  | LetStmt n e => HLet n e
  | ReturnStmt e => HReturn e
  | ExitStmt => HExit
  | PassStmt => HPass
  | IfStmt cond thn els => HIf cond thn els (all thn) (all els)
  | WhileStmt cond body => HWhile cond body (all body)
  | ForStmt v limit body => HFor v limit body (all body)
  | FuncDef d => HFuncDef d
  | FuncExprDef d => HFuncExprDef d
  | FuncOneLiner d => HFuncOneLiner d
  end.

End StmtInduction.

(** The expressions over number and boolean literals: no string, no name,
    no assignment, no call, no member access. *)
Fixpoint arithmetic (e : Expr) : bool :=
  match e with
  | NumberExpr _ | BoolExpr _ => true
  | UnaryExpr _ e => arithmetic e
  | BinaryExpr l _ r => arithmetic l && arithmetic r
  | ParenExpr e => arithmetic e
  | _ => false
  end.

(** The expressions whose number literals are number lexemes, as the parser
    makes every [NumberExpr]. *)
Fixpoint lexemes (e : Expr) : bool :=
  match e with
  | NumberExpr v => numberLexeme v
  | UnaryExpr _ e => lexemes e
  | BinaryExpr l _ r => lexemes l && lexemes r
  | ParenExpr e => lexemes e
  | _ => true
  end.

(** The value of a binary operator of the language on two numbers. *)
Definition binaryResult (op : string) (a b : float) : float :=
  if String.eqb op "+" then PrimFloat.add a b
  else if String.eqb op "-" then PrimFloat.sub a b
  else if String.eqb op "*" then PrimFloat.mul a b
  else if String.eqb op "/" then PrimFloat.div a b
  else if String.eqb op "%" then F64.Mod a b
  else if String.eqb op "==" then boolToFloat (PrimFloat.eqb a b)
  else if String.eqb op "!=" then boolToFloat (negb (PrimFloat.eqb a b))
  else if String.eqb op "<" then boolToFloat (PrimFloat.ltb a b)
  else if String.eqb op ">" then boolToFloat (PrimFloat.ltb b a)
  else if String.eqb op "<=" then boolToFloat (PrimFloat.leb a b)
  else if String.eqb op ">=" then boolToFloat (PrimFloat.leb b a)
  else if String.eqb op "&&"
  then boolToFloat (negb (PrimFloat.eqb a 0) && negb (PrimFloat.eqb b 0))
  else boolToFloat (negb (PrimFloat.eqb a 0) || negb (PrimFloat.eqb b 0)).

(** The value of an expression over literals: numbers as [parseNumber] reads
    them, [true] and [false] as 1 and 0, [-e] as [e * -1], [!e] as [e == 0]. *)
Fixpoint valueOf (e : Expr) : float :=
  match e with
  | NumberExpr v => parseNumber v
  | BoolExpr b => boolToFloat b
  | UnaryExpr op e =>
      if String.eqb op "-" then PrimFloat.mul (valueOf e) (-1)%float
      else boolToFloat (PrimFloat.eqb (valueOf e) 0)
  | BinaryExpr l op r => binaryResult op (valueOf l) (valueOf r)
  | ParenExpr e => valueOf e
  | _ => PrimFloat.zero
  end.

(** The machine [vm] after it pushed [v] and went on to offset [i]. *)
Definition pushed (vm : VM) (v : Value) (i : Z) : VM :=
  mkVM (constants vm) (code vm) i (sp vm + 1) (stack vm ++ [v])
       (callStack vm) (pools vm).

(** The statement [while true: pass] and its code: the condition, the exit
    jump to offset 15, the jump back to offset 0. *)
Definition whileTrue : Stmt unit := WhileStmt (BoolExpr true) [PassStmt].

Definition whileTrueChunk : Chunk :=
  mkChunk [x01; x00; x00; x00; x00; x15; x0f; x00; x00; x00; x14; x00; x00; x00; x00]
          [VFloat 1] [].

(** The statement [if true: pass else: exit] and its code: the condition,
    the jump to the else branch at offset 15, the jump over it to offset 16,
    the else branch. *)
Definition ifElse : Stmt unit := IfStmt (BoolExpr true) [PassStmt] [ExitStmt].

Definition ifElseChunk : Chunk :=
  mkChunk [x01; x00; x00; x00; x00; x15; x0f; x00; x00; x00; x14; x10; x00; x00; x00;
           x17]
          [VFloat 1] [].

(** A number lexeme too large for a float64: 1 followed by 400 zeros. *)
Definition tooLarge : string :=
  String "1"%char (string_of_list_ascii (repeat "0"%char 400)).

(** The expression [1.5 + 100...0], its second literal [tooLarge], and its
    code: the constant that [parseNumber] makes of [tooLarge] is 0. *)
Definition literalSum : Expr :=
  BinaryExpr (NumberExpr "1.5") "+" (NumberExpr tooLarge).

Definition literalSumChunk : Chunk :=
  mkChunk [x01; x00; x00; x00; x00; x01; x01; x00; x00; x00; x02]
          [VFloat 1.5; VFloat 0] [].

(** The main chunk of the program of the one statement [x = true]: the
    constant, [OP_STORE] to the slot of the name, [OP_POP], the implicit
    return. *)
Definition assignmentChunk : Chunk :=
  mkChunk [x01; x00; x00; x00; x00; x11; x01; x00; x00; x00; x16; x13]
          [VFloat 1; VString "x"] [].

(** ** The lexer: what the statements use *)

(** The lexer went on from [l] to [l']: same source, same indentation
    stack, same flag, and a position that did not go back nor past the end. *)
Definition steps (l l' : lexer.Lexer) : Prop :=
  lexer.src l' = lexer.src l /\
  lexer.indentStack l' = lexer.indentStack l /\
  lexer.startOfLine l' = lexer.startOfLine l /\
  lexer.pos l <= lexer.pos l' <= len (lexer.src l').

(** The runes left to read. *)
Definition remaining (l : lexer.Lexer) : nat :=
  Z.to_nat (len (lexer.src l) - lexer.pos l).

(** What [New] establishes and every token keeps: the position is inside the
    source, and the indentation stack holds levels that are not negative,
    the level 0 at its bottom. *)
Definition wellFormed (l : lexer.Lexer) : Prop :=
  0 <= lexer.pos l <= len (lexer.src l) /\
  (exists rest, lexer.indentStack l = 0 :: rest) /\
  Forall (fun n => 0 <= n) (lexer.indentStack l).

(** What [Lex] has left to do: it goes down with every token but [EOF]. *)
Definition measure (l : lexer.Lexer) : Z :=
  2 * (len (lexer.src l) - lexer.pos l) + len (lexer.indentStack l) +
  (if lexer.startOfLine l then 1 else 0).

(** What a token does to the depth of the indentation. *)
Definition stackMove (t : lexer.TokenType) : Z :=
  match t with
  | lexer.INDENT => 1
  | lexer.DEDENT => -1
  | _ => 0
  end.

(** A token of the text of a line, read from [l]: the lexer went on by a
    rune at least, and the token is no [EOF], [INDENT] or [DEDENT]. *)
Definition lexes (l : lexer.Lexer) (r : lexer.Token * lexer.Lexer) : Prop :=
  steps l (snd r) /\ lexer.pos l < lexer.pos (snd r) /\
  stackMove (lexer.Type_ (fst r)) = 0 /\ lexer.isEOF (fst r) = false.

(** [INDENT] tokens minus [DEDENT] tokens. *)
Definition balance (tokens : list lexer.Token) : Z :=
  fold_right (fun tok n => stackMove (lexer.Type_ tok) + n) 0 tokens.

(** The tokens that close a block or the source. *)
Definition closes (t : lexer.TokenType) : bool :=
  match t with
  | lexer.DEDENT | lexer.EOF => true
  | _ => false
  end.

(** What [nextToken] gives from [l]: a token and a well-formed lexer, the
    depth of the indentation moved as the token says, depth 1 at [EOF], and
    less left to do after any other token; after a closing token the lexer
    is inside a line, and a closing token read inside a line leaves the lexer
    at the end of the source. *)
Definition tokenFrom (l : lexer.Lexer) (tok : lexer.Token) (l' : lexer.Lexer) : Prop :=
  wellFormed l' /\
  len (lexer.indentStack l') = len (lexer.indentStack l) + stackMove (lexer.Type_ tok) /\
  (lexer.isEOF tok = true -> len (lexer.indentStack l') = 1) /\
  (lexer.isEOF tok = false -> measure l' < measure l) /\
  (closes (lexer.Type_ tok) = true -> lexer.startOfLine l' = false) /\
  (lexer.startOfLine l = false -> closes (lexer.Type_ tok) = true ->
   lexer.isAtEnd l' = true).

(** [f], a function with fuel, gives with more fuel what it gives with less. *)
Definition fuelMonotone {A B : Type} (f : nat -> A -> option B) : Prop :=
  forall (fuel fuel' : nat) (a : A) (b : B),
    f fuel a = Some b -> (fuel <= fuel')%nat -> f fuel' a = Some b.

(** [unicode.IsLetter] and [unicode.IsDigit] on the ASCII runes. *)
Definition asciiLetter (ch : lexer.rune) : bool :=
  ((65 <=? ch) && (ch <=? 90)) || ((97 <=? ch) && (ch <=? 122)).

Definition asciiDigit (ch : lexer.rune) : bool := (48 <=? ch) && (ch <=? 57).

(** How many times [ch] occurs in [lex]. *)
Fixpoint countRune (ch : lexer.rune) (lex : list lexer.rune) : Z :=
  match lex with
  | [] => 0
  | x :: rest => (if x =? ch then 1 else 0) + countRune ch rest
  end.

(** The Go string of a lexeme of ASCII runes: [string(l.src[a:b])] as the
    bytes that [parseNumber] scans. *)
Definition text (lex : list lexer.rune) : string :=
  string_of_list_ascii (map (fun ch => ascii_of_nat (Z.to_nat ch)) lex).

(** The source of three lines [a], [ b], [  c], each deeper than the one
    before, and its tokens: the two blocks are closed at the end. *)
Definition nested : list lexer.rune :=
  lexer.runes "a" ++ [lexer.newline] ++ lexer.runes " b" ++ [lexer.newline] ++
  lexer.runes "  c".

Definition nestedTokens : list lexer.Token :=
  [lexer.mkToken lexer.IDENT (lexer.runes "a") 1 0;
   lexer.mkToken lexer.NEWLINE [lexer.newline] 1 0;
   lexer.mkToken lexer.INDENT [] 2 0;
   lexer.mkToken lexer.IDENT (lexer.runes "b") 2 1;
   lexer.mkToken lexer.NEWLINE [lexer.newline] 2 0;
   lexer.mkToken lexer.INDENT [] 3 0;
   lexer.mkToken lexer.IDENT (lexer.runes "c") 3 2;
   lexer.mkToken lexer.DEDENT [] 3 3;
   lexer.mkToken lexer.DEDENT [] 3 3;
   lexer.mkToken lexer.EOF [] 3 3].

(** A lexer at the start of [1.5.2], and after [lexNumber] there. *)
Definition atNumber : lexer.Lexer :=
  lexer.mkLexer (lexer.runes "1.5.2") 0 1 0 [0] false.

Definition afterNumber : lexer.Lexer :=
  lexer.mkLexer (lexer.runes "1.5.2") 3 1 3 [0] false.

(** A lexer at the start of ['a\'b'] (a quote, [a], a backslash, a quote,
    [b], a quote), and after [lexString] there. *)
Definition atString : lexer.Lexer :=
  lexer.mkLexer [39; 97; 92; 39; 98; 39] 0 1 0 [0] false.

Definition afterString : lexer.Lexer :=
  lexer.mkLexer [39; 97; 92; 39; 98; 39] 4 1 4 [0] false.

(** ** Tactics *)

Ltac list_eq := rewrite <- ?app_assoc; cbn [app]; rewrite <- ?app_assoc; reflexivity.

Ltac ext_chain :=
  repeat match goal with
         | H : extends _ _ |- _ => destruct H as ([? ?] & [? ?] & ?)
         end;
  unfold extends; cbn [emit emitInt addConst Code Constants Names];
  repeat match goal with
         | H : Code _ = _ |- _ => rewrite H; clear H
         | H : Constants _ = _ |- _ => rewrite H; clear H
         | H : Names _ = _ |- _ => rewrite H; clear H
         end;
  repeat split;
  try (rewrite <- ?app_assoc; eexists; reflexivity);
  try (eexists; symmetry; apply app_nil_r).

(** ** Basic facts on lists, the error monad and the stack *)

Lemma len_nonneg {A : Type} (l : list A) : 0 <= len l.
Proof. unfold len. lia. Qed.

Lemma len_app {A : Type} (l1 l2 : list A) : len (l1 ++ l2) = len l1 + len l2.
Proof. unfold len. rewrite length_app. lia. Qed.

Lemma len_cons {A : Type} (a : A) (l : list A) : len (a :: l) = 1 + len l.
Proof. unfold len. simpl. lia. Qed.

Lemma Z_to_nat_len {A : Type} (l : list A) : Z.to_nat (len l) = length l.
Proof. unfold len. apply Nat2Z.id. Qed.

Lemma in_range_true (a b : Z) : 0 <= a <= b -> (0 <=? a) && (a <=? b) = true.
Proof. intros. apply andb_true_iff. split; apply Z.leb_le; lia. Qed.

Lemma bind_Ok_inv {A B : Type} (r : result A) (k : A -> result B) (b : B) :
  bind r k = Ok b -> exists a, r = Ok a /\ k a = Ok b.
Proof. destruct r; simpl; [eauto | discriminate]. Qed.

Lemma index_app_here {A : Type} (pre post : list A) (a : A) :
  index (pre ++ a :: post) (len pre) = Ok a.
Proof.
  unfold index, len.
  rewrite length_app. simpl.
  replace ((0 <=? Z.of_nat (length pre)) &&
           (Z.of_nat (length pre) <? Z.of_nat (length pre + S (length post))))
    with true by (symmetry; apply andb_true_iff; split; [apply Z.leb_le | apply Z.ltb_lt]; lia).
  rewrite Nat2Z.id.
  rewrite list_lookup_middle; reflexivity.
Qed.

Lemma index_Ok_lookup {A : Type} (l : list A) (i : Z) (a : A) :
  index l i = Ok a <-> 0 <= i < len l /\ l !! Z.to_nat i = Some a.
Proof.
  unfold index.
  destruct ((0 <=? i) && (i <? len l)) eqn:E.
  - apply andb_true_iff in E as [E1 E2].
    apply Z.leb_le in E1. apply Z.ltb_lt in E2.
    destruct (l !! Z.to_nat i) eqn:L; split; intros H.
    + inversion H; subst. auto.
    + destruct H as [_ H]. inversion H; subst. reflexivity.
    + discriminate.
    + destruct H as [_ H]. discriminate.
  - split; [discriminate |].
    intros [[H1 H2] _].
    apply andb_false_iff in E as [E | E].
    + apply Z.leb_gt in E. lia.
    + apply Z.ltb_ge in E. lia.
Qed.

Lemma index_app_l {A : Type} (l1 l2 : list A) (i : Z) (a : A) :
  0 <= i -> l1 !! Z.to_nat i = Some a -> index (l1 ++ l2) i = Ok a.
Proof.
  intros Hi Hl. apply index_Ok_lookup.
  pose proof (lookup_lt_Some _ _ _ Hl) as Hlt.
  split.
  - rewrite len_app. pose proof (len_nonneg l2). unfold len in *. lia.
  - rewrite lookup_app_l; assumption.
Qed.

(** A stack that ends with [v], with [sp] at its length, pops [v]. *)
Lemma pop_snoc (vm : VM) (st : list Value) (v : Value) :
  stack vm = st ++ [v] -> sp vm = len (stack vm) ->
  pop vm = Ok (v, mkVM (constants vm) (code vm) (ip vm) (len st) st
                       (callStack vm) (pools vm)).
Proof.
  intros Hst Hsp. unfold pop.
  rewrite Hsp, Hst, len_app, len_cons.
  assert (Hn : 0 <= len st) by apply len_nonneg.
  change (len (@nil Value)) with 0.
  replace (len st + (1 + 0) =? 0) with false
    by (symmetry; apply Z.eqb_neq; lia).
  replace (len st + (1 + 0) - 1) with (len st) by lia.
  rewrite index_app_here. simpl.
  unfold len. rewrite Nat2Z.id, take_app_length. reflexivity.
Qed.

Lemma pop_Ok_inv (vm vm' : VM) (v : Value) :
  pop vm = Ok (v, vm') ->
  peek vm = Ok v /\
  vm' = mkVM (constants vm) (code vm) (ip vm) (sp vm - 1)
             (take (Z.to_nat (sp vm - 1)) (stack vm)) (callStack vm) (pools vm).
Proof.
  unfold pop, peek. destruct (sp vm =? 0); [discriminate |].
  intros H. apply bind_Ok_inv in H as (a & Ha & H).
  inversion H; subst. auto.
Qed.

(** ** Bytes and little-endian integers *)

Lemma b2z_z2b (z : Z) : b2z (z2b z) = z mod 256.
Proof.
  unfold b2z, z2b.
  pose proof (Z.mod_pos_bound z 256 ltac:(lia)) as Hr.
  destruct (Byte.of_N (Z.to_N (z mod 256))) as [b |] eqn:E.
  - apply Byte.to_of_N in E. rewrite E. lia.
  - apply Byte.of_N_None_iff in E. lia.
Qed.

Lemma le_decode_encode (n : nat) :
  forall z, le_decode (le_encode n z) = z mod 256 ^ Z.of_nat n.
Proof.
  induction n as [| n IH]; intros z.
  - simpl. rewrite Z.mod_1_r. reflexivity.
  - cbn [le_encode le_decode]. rewrite b2z_z2b, IH.
    rewrite Nat2Z.inj_succ, Z.pow_succ_r by lia.
    rewrite Z.rem_mul_r by lia. reflexivity.
Qed.

Lemma length_le_encode (n : nat) (z : Z) : length (le_encode n z) = n.
Proof. revert z. induction n; intros; simpl; auto. Qed.

Lemma len_le_encode (n : nat) (z : Z) : len (le_encode n z) = Z.of_nat n.
Proof. unfold len. rewrite length_le_encode. reflexivity. Qed.

Lemma Uint32At_encoded (pre post : list byte) (z : Z) :
  0 <= z < 2 ^ 32 ->
  Uint32At (pre ++ le_encode 4 z ++ post) (len pre) = Ok z.
Proof.
  intros Hz. unfold Uint32At.
  rewrite in_range_true by (rewrite len_app; pose proof (len_nonneg pre);
                            pose proof (len_nonneg (le_encode 4 z ++ post)); lia).
  unfold len. rewrite Nat2Z.id, drop_app_length.
  cbn [le_encode app].
  change [z2b z; z2b (z / 256); z2b (z / 256 / 256); z2b (z / 256 / 256 / 256)]
    with (le_encode 4 z).
  rewrite le_decode_encode. f_equal. apply Z.mod_small. exact Hz.
Qed.

Lemma Uint64At_encoded (pre post : list byte) (z : Z) :
  0 <= z < 2 ^ 64 ->
  Uint64At (pre ++ le_encode 8 z ++ post) (len pre) = Ok z.
Proof.
  intros Hz. unfold Uint64At.
  rewrite in_range_true by (rewrite len_app; pose proof (len_nonneg pre);
                            pose proof (len_nonneg (le_encode 8 z ++ post)); lia).
  unfold len. rewrite Nat2Z.id, drop_app_length.
  cbn [le_encode app].
  match goal with
  | |- Ok (le_decode ?l) = _ => change l with (le_encode 8 z)
  end.
  rewrite le_decode_encode. f_equal. apply Z.mod_small. exact Hz.
Qed.

Lemma slice_encoded (pre s post slack : list byte) :
  slice (pre ++ s ++ post) slack (len pre) (len pre + len s) = Ok s.
Proof.
  unfold slice.
  pose proof (len_nonneg pre). pose proof (len_nonneg s).
  pose proof (len_nonneg post). pose proof (len_nonneg slack).
  replace ((0 <=? len pre) && (len pre <=? len pre + len s) &&
           (len pre + len s <=? len (pre ++ s ++ post) + len slack)) with true.
  2:{ symmetry. rewrite !len_app. repeat (apply andb_true_iff; split); apply Z.leb_le; lia. }
  replace (len pre + len s - len pre) with (len s) by lia.
  unfold len. rewrite !Nat2Z.id, <- !app_assoc, drop_app_length, take_app_length.
  reflexivity.
Qed.

Ltac solve_len :=
  repeat first [rewrite len_app | rewrite len_cons | rewrite len_le_encode];
  change (len (@nil byte)) with 0; cbn [Z.of_nat Pos.of_succ_nat Pos.succ]; lia.

Lemma index_at (code pre post : list byte) (b : byte) (off : Z) :
  code = pre ++ b :: post -> off = len pre -> index code off = Ok b.
Proof. intros -> ->. apply index_app_here. Qed.

Lemma Uint32At_at (code pre post : list byte) (z off : Z) :
  code = pre ++ le_encode 4 z ++ post -> off = len pre -> 0 <= z < 2 ^ 32 ->
  Uint32At code off = Ok z.
Proof. intros -> ->. apply Uint32At_encoded. Qed.

Lemma Uint64At_at (code pre post : list byte) (z off : Z) :
  code = pre ++ le_encode 8 z ++ post -> off = len pre -> 0 <= z < 2 ^ 64 ->
  Uint64At code off = Ok z.
Proof. intros -> ->. apply Uint64At_encoded. Qed.

Lemma slice_at (code pre s post slack : list byte) (lo hi : Z) :
  code = pre ++ s ++ post -> lo = len pre -> hi = len pre + len s ->
  slice code slack lo hi = Ok s.
Proof. intros -> -> ->. apply slice_encoded. Qed.

(** ** float64 and its bits *)

Lemma digits2_pos_bounds (m : positive) :
  2 ^ (Z.pos (digits2_pos m) - 1) <= Z.pos m < 2 ^ Z.pos (digits2_pos m).
Proof.
  induction m as [m IH | m IH |]; cbn [digits2_pos].
  - rewrite Pos2Z.inj_succ.
    replace (Z.succ (Z.pos (digits2_pos m)) - 1) with (Z.succ (Z.pos (digits2_pos m) - 1)) by lia.
    rewrite !Z.pow_succ_r by lia. lia.
  - rewrite Pos2Z.inj_succ.
    replace (Z.succ (Z.pos (digits2_pos m)) - 1) with (Z.succ (Z.pos (digits2_pos m) - 1)) by lia.
    rewrite !Z.pow_succ_r by lia. lia.
  - simpl. lia.
Qed.

(** The shape of a valid finite binary64: subnormal, or normal. *)
Lemma bounded_shape (m : positive) (e : Z) :
  bounded prec emax m e = true ->
  (Z.pos m < 2 ^ 52 /\ e = -1074) \/
  (2 ^ 52 <= Z.pos m < 2 ^ 53 /\ -1074 <= e <= 971).
Proof.
  unfold bounded, canonical_mantissa, fexp, SpecFloat.emin, prec, emax.
  intros H. apply andb_true_iff in H as [H1 H2].
  apply Z.leb_le in H2. apply Z.eqb_eq in H1.
  pose proof (digits2_pos_bounds m) as [Hlo Hhi].
  set (d := Z.pos (digits2_pos m)) in *.
  assert (Hd : 0 < d) by (subst d; lia).
  destruct (Z.le_gt_cases d 52) as [Hle | Hgt].
  - left. split; [| lia].
    assert (2 ^ d <= 2 ^ 52) by (apply Z.pow_le_mono_r; lia). lia.
  - right.
    assert (d = 53) by lia.
    assert (2 ^ 52 <= 2 ^ (d - 1)) by (apply Z.pow_le_mono_r; lia).
    replace d with 53 in Hhi by lia. lia.
Qed.

Lemma SF_of_bits_of_SF (x : spec_float) :
  valid_binary x = true -> F64.SF_of_bits (F64.bits_of_SF x) = x.
Proof.
  destruct x as [s | s | | s m e]; cbn [valid_binary].
  - intros _. destruct s; reflexivity.
  - intros _. destruct s; reflexivity.
  - intros _. reflexivity.
  - intros H. apply bounded_shape in H.
    unfold F64.bits_of_SF, F64.SF_of_bits.
    change (2 ^ 52) with 4503599627370496 in *.
    change (2 ^ 53) with 9007199254740992 in *.
    change (2 ^ 63) with 9223372036854775808 in *.
    destruct H as [[Hm He] | [Hm He]].
    + subst e.
      replace (Z.pos m <? 4503599627370496) with true by (symmetry; apply Z.ltb_lt; lia).
      set (z := (if s then 9223372036854775808 else 0) + Z.pos m).
      assert (Hs : (9223372036854775808 <=? z) = s).
      { subst z. destruct s; [apply Z.leb_le | apply Z.leb_gt]; lia. }
      assert (Hex : (z / 4503599627370496) mod 2048 = 0).
      { subst z. destruct s; Z.to_euclidean_division_equations; lia. }
      assert (Hmm : z mod 4503599627370496 = Z.pos m).
      { subst z. destruct s; Z.to_euclidean_division_equations; lia. }
      rewrite Hs, Hex, Hmm. reflexivity.
    + replace (Z.pos m <? 4503599627370496) with false by (symmetry; apply Z.ltb_ge; lia).
      set (z := (if s then 9223372036854775808 else 0) +
                ((e + 1075) * 4503599627370496 + (Z.pos m - 4503599627370496))).
      assert (Hs : (9223372036854775808 <=? z) = s).
      { subst z. destruct s; [apply Z.leb_le | apply Z.leb_gt]; lia. }
      assert (Hex : (z / 4503599627370496) mod 2048 = e + 1075).
      { subst z. destruct s; Z.to_euclidean_division_equations; lia. }
      assert (Hmm : z mod 4503599627370496 = Z.pos m - 4503599627370496).
      { subst z. destruct s; Z.to_euclidean_division_equations; lia. }
      rewrite Hs, Hex, Hmm.
      replace (e + 1075 =? 2047) with false by (symmetry; apply Z.eqb_neq; lia).
      replace (e + 1075 =? 0) with false by (symmetry; apply Z.eqb_neq; lia).
      replace (Z.pos m - 4503599627370496 + 4503599627370496) with (Z.pos m) by lia.
      replace (e + 1075 - 1075) with e by lia. reflexivity.
Qed.

Lemma Float64frombits_Float64bits (f : float) :
  F64.Float64frombits (F64.Float64bits f) = f.
Proof.
  unfold F64.Float64frombits, F64.Float64bits.
  rewrite SF_of_bits_of_SF by apply Prim2SF_valid.
  apply SF2Prim_Prim2SF.
Qed.

Lemma Float64bits_range (f : float) : 0 <= F64.Float64bits f < 2 ^ 64.
Proof.
  unfold F64.Float64bits.
  pose proof (Prim2SF_valid f) as H.
  destruct (Prim2SF f) as [s | s | | s m e]; cbn [valid_binary] in H; unfold F64.bits_of_SF.
  - destruct s; lia.
  - destruct s; lia.
  - lia.
  - apply bounded_shape in H.
    change (2 ^ 52) with 4503599627370496 in *.
    change (2 ^ 53) with 9007199254740992 in *.
    change (2 ^ 63) with 9223372036854775808 in *.
    change (2 ^ 64) with 18446744073709551616 in *.
    destruct H as [[Hm He] | [Hm He]].
    + replace (Z.pos m <? 4503599627370496) with true by (symmetry; apply Z.ltb_lt; lia).
      destruct s; lia.
    + replace (Z.pos m <? 4503599627370496) with false by (symmetry; apply Z.ltb_ge; lia).
      destruct s; lia.
Qed.

(** ** The machine: operators, the pool, calls and returns *)

(** C8: the arithmetic and equality opcodes.  3 + 4 is 7.0, 7 % 3 is 1.0,
    1 / 0 is +Infinity, two equal strings compare to 1.0, and a string and a
    number compare to 0.0 without any type error; the same through the
    emitter, for the source expressions. *)
Theorem arithmetic_and_equality_semantics :
  forall loadFunction,
    let run a b op :=
      returned (Run loadFunction 4 (machine [a; b] (binaryProgram op))) in
    run (VFloat 3) (VFloat 4) OP_ADD = Some (Ok (Some (VFloat 7))) /\
    run (VFloat 7) (VFloat 3) OP_MOD = Some (Ok (Some (VFloat 1))) /\
    run (VFloat 1) (VFloat 0) OP_DIV = Some (Ok (Some (VFloat infinity))) /\
    (forall s, run (VString s) (VString s) OP_EQ = Some (Ok (Some (VFloat 1)))) /\
    (forall s f, run (VString s) (VFloat f) OP_EQ = Some (Ok (Some (VFloat 0))) /\
                 run (VFloat f) (VString s) OP_EQ = Some (Ok (Some (VFloat 0)))) /\
    compileAndRun loadFunction 4
      [ReturnStmt (BinaryExpr (NumberExpr "3") "+" (NumberExpr "4"))]
    = Some (Ok (Some (VFloat 7))) /\
    compileAndRun loadFunction 4
      [ReturnStmt (BinaryExpr (NumberExpr "7") "%" (NumberExpr "3"))]
    = Some (Ok (Some (VFloat 1))) /\
    compileAndRun loadFunction 4
      [ReturnStmt (BinaryExpr (NumberExpr "1") "/" (NumberExpr "0"))]
    = Some (Ok (Some (VFloat infinity))) /\
    compileAndRun loadFunction 4
      [ReturnStmt (BinaryExpr (StringExpr "a") "==" (StringExpr "a"))]
    = Some (Ok (Some (VFloat 1))) /\
    compileAndRun loadFunction 4
      [ReturnStmt (BinaryExpr (StringExpr "a") "==" (NumberExpr "1.0"))]
    = Some (Ok (Some (VFloat 0))).
Proof.
  intros ld run. subst run.
  repeat split; try (vm_compute; reflexivity).
  intros s. cbv -[String.eqb]. rewrite String.eqb_refl. reflexivity.
Qed.

(** [OP_STORE] on a machine with a value on top of its stack and slot [idx]
    inside its active pool: the turn of [Run] pops the value and writes it to
    the slot. *)
Lemma step_store_writes loadFunction (vm : VM) (idx : Z) (val : Value) (pool : Pool) :
  index (code vm) (ip vm) = Ok OP_STORE ->
  Uint32At (code vm) (ip vm + 1) = Ok idx ->
  sp vm <> 0 -> index (stack vm) (sp vm - 1) = Ok val ->
  pools vm !! constants vm = Some pool -> 0 <= idx < len pool ->
  step loadFunction vm =
    Ok (Next (mkVM (constants vm) (code vm) (ip vm + 1 + 4) (sp vm - 1)
                   (take (Z.to_nat (sp vm - 1)) (stack vm)) (callStack vm)
                   (<[constants vm := <[Z.to_nat idx := val]> pool]> (pools vm)))).
Proof.
  intros Hop Himm Hsp Htop Hpool Hr.
  unfold step. rewrite Hop. change OP_STORE with x11. cbn [bind].
  unfold readInt. cbn [code ip set_ip]. rewrite Himm. cbn [bind].
  unfold pop. cbn [set_ip sp stack constants code ip callStack pools].
  destruct (sp vm =? 0) eqn:E; [apply Z.eqb_eq in E; contradiction |].
  rewrite Htop. cbn [bind]. unfold activePool. cbn [pools constants].
  match goal with
  | |- context [default [] ?x] =>
      replace x with (Some pool) by (symmetry; exact Hpool)
  end.
  cbn [default from_option id].
  destruct (lookup_lt_is_Some_2 pool (Z.to_nat idx)) as [old Hold];
    [unfold len in Hr; lia |].
  rewrite (proj2 (index_Ok_lookup pool idx old) (conj Hr Hold)). cbn [bind].
  reflexivity.
Qed.

(** C10: [OP_STORE] pops the value on top of the stack and writes it into the
    active pool, in place in the store of pools.  With a value on top of the
    stack and slot [idx] inside the active pool the store happens, and it
    happens only then: the machine after the store is the machine before it
    with the stack cut below the popped slot, [sp] one less, the instruction
    pointer after the operand, and slot [idx] of the active pool holding the
    popped value, every other slot and pool as it was.  From then on [OP_LOAD] and
    [OP_CONST] of the same index, in any machine state over that store and
    pool, push that very value, [sp] one more and the instruction pointer
    after the operand: the two opcodes read the pool that [OP_STORE]
    writes. *)
Theorem store_then_load_or_const_same_pool :
  forall loadFunction vm idx,
    index (code vm) (ip vm) = Ok OP_STORE ->
    Uint32At (code vm) (ip vm + 1) = Ok idx ->
    (forall val pool,
        sp vm <> 0 -> index (stack vm) (sp vm - 1) = Ok val ->
        pools vm !! constants vm = Some pool -> 0 <= idx < len pool ->
        step loadFunction vm =
          Ok (Next (mkVM (constants vm) (code vm) (ip vm + 1 + 4) (sp vm - 1)
                         (take (Z.to_nat (sp vm - 1)) (stack vm)) (callStack vm)
                         (<[constants vm := <[Z.to_nat idx := val]> pool]>
                            (pools vm))))) /\
    forall vm1,
      step loadFunction vm = Ok (Next vm1) ->
      exists val pool,
        sp vm <> 0 /\
        index (stack vm) (sp vm - 1) = Ok val /\
        peek vm = Ok val /\
        pools vm !! constants vm = Some pool /\
        0 <= idx < len pool /\
        vm1 = mkVM (constants vm) (code vm) (ip vm + 1 + 4) (sp vm - 1)
                   (take (Z.to_nat (sp vm - 1)) (stack vm)) (callStack vm)
                   (<[constants vm := <[Z.to_nat idx := val]> pool]> (pools vm)) /\
        activePool vm1 = <[Z.to_nat idx := val]> pool /\
        index (activePool vm1) idx = Ok val /\
        forall vm2 op,
          pools vm2 = pools vm1 -> constants vm2 = constants vm1 ->
          op = OP_LOAD \/ op = OP_CONST ->
          index (code vm2) (ip vm2) = Ok op ->
          Uint32At (code vm2) (ip vm2 + 1) = Ok idx ->
          step loadFunction vm2 =
            Ok (Next (mkVM (constants vm2) (code vm2) (ip vm2 + 1 + 4) (sp vm2 + 1)
                           (stack vm2 ++ [val]) (callStack vm2) (pools vm2))).
Proof.
  intros ld vm idx Hop Himm.
  split; [intros val pool; apply step_store_writes; assumption |].
  intros vm1 Hstep.
  unfold step in Hstep. rewrite Hop in Hstep.
  change OP_STORE with x11 in Hstep. cbn [bind] in Hstep.
  unfold readInt in Hstep. cbn [code ip set_ip] in Hstep.
  rewrite Himm in Hstep. cbn [bind] in Hstep.
  apply bind_Ok_inv in Hstep as ([val vmp] & Hpop & Hstep).
  assert (Hsp : sp vm <> 0).
  { unfold pop in Hpop. cbn [set_ip sp] in Hpop.
    destruct (sp vm =? 0) eqn:E; [discriminate | lia]. }
  apply pop_Ok_inv in Hpop as [Hpeek ->].
  apply bind_Ok_inv in Hstep as (old & Hold & Hstep).
  unfold activePool in Hold, Hstep. cbn [pools constants set_ip] in Hold, Hstep.
  destruct (pools vm !! constants vm) as [pool |] eqn:Hpool;
    [| cbn [default] in Hold; apply index_Ok_lookup in Hold as [Hr _];
       change (len (@nil Value)) with 0 in Hr; lia].
  cbn [default from_option id] in Hold, Hstep. cbn [code ip sp stack callStack] in Hstep.
  inversion Hstep; subst vm1; clear Hstep.
  apply index_Ok_lookup in Hold as [Hrange Hold].
  assert (Hnew : index (<[Z.to_nat idx := val]> pool) idx = Ok val).
  { apply index_Ok_lookup. unfold len in *. rewrite length_insert. split; [lia |].
    apply list_lookup_insert_eq. lia. }
  assert (Hact : forall vm2,
             pools vm2 = <[constants vm := <[Z.to_nat idx := val]> pool]> (pools vm) ->
             constants vm2 = constants vm ->
             activePool vm2 = <[Z.to_nat idx := val]> pool).
  { intros vm2 Hp Hc. unfold activePool. rewrite Hp, Hc.
    rewrite list_lookup_insert_eq; [reflexivity |].
    apply lookup_lt_Some in Hpool. exact Hpool. }
  exists val, pool. unfold peek in *. cbn [set_ip sp stack] in Hpeek.
  assert (Htop : index (stack vm) (sp vm - 1) = Ok val).
  { destruct (sp vm =? 0) eqn:E; [lia | exact Hpeek]. }
  split; [exact Hsp |]. split; [exact Htop |]. split; [exact Hpeek |].
  split; [reflexivity |]. split; [exact Hrange |]. split; [reflexivity |].
  split; [apply Hact; reflexivity |].
  split; [rewrite Hact by reflexivity; exact Hnew |].
  intros vm2 op Hp Hc Hopk Hfetch Himm2.
  cbn [pools constants] in Hp, Hc.
  unfold step. rewrite Hfetch.
  assert (Hread : bind (readInt (set_ip vm2 (ip vm2 + 1)))
                    (fun '(idx0, vm3) =>
                       bind (index (activePool vm3) idx0)
                            (fun v => Ok (Next (push v vm3)))) =
                  Ok (Next (mkVM (constants vm2) (code vm2) (ip vm2 + 1 + 4)
                                 (sp vm2 + 1) (stack vm2 ++ [val]) (callStack vm2)
                                 (pools vm2)))).
  { unfold readInt. cbn [code ip set_ip]. rewrite Himm2. cbn [bind].
    rewrite (Hact (set_ip (set_ip vm2 (ip vm2 + 1)) (ip vm2 + 1 + 4)) Hp Hc), Hnew.
    reflexivity. }
  destruct Hopk as [-> | ->]; exact Hread.
Qed.

Lemma store_then_load_witness :
  (forall val pool,
      sp storingTop <> 0 -> index (stack storingTop) (sp storingTop - 1) = Ok val ->
      pools storingTop !! constants storingTop = Some pool -> 0 <= 1 < len pool ->
      step unknownFunction storingTop =
        Ok (Next (mkVM (constants storingTop) (code storingTop) (ip storingTop + 1 + 4)
                       (sp storingTop - 1)
                       (take (Z.to_nat (sp storingTop - 1)) (stack storingTop))
                       (callStack storingTop)
                       (<[constants storingTop := <[Z.to_nat 1 := val]> pool]>
                          (pools storingTop))))) /\
  forall vm1,
    step unknownFunction storingTop = Ok (Next vm1) ->
    exists val pool,
      sp storingTop <> 0 /\
      index (stack storingTop) (sp storingTop - 1) = Ok val /\
      peek storingTop = Ok val /\
      pools storingTop !! constants storingTop = Some pool /\
      0 <= 1 < len pool /\
      vm1 = mkVM (constants storingTop) (code storingTop) (ip storingTop + 1 + 4)
                 (sp storingTop - 1)
                 (take (Z.to_nat (sp storingTop - 1)) (stack storingTop))
                 (callStack storingTop)
                 (<[constants storingTop := <[Z.to_nat 1 := val]> pool]>
                    (pools storingTop)) /\
      activePool vm1 = <[Z.to_nat 1 := val]> pool /\
      index (activePool vm1) 1 = Ok val /\
      forall vm2 op,
        pools vm2 = pools vm1 -> constants vm2 = constants vm1 ->
        op = OP_LOAD \/ op = OP_CONST ->
        index (code vm2) (ip vm2) = Ok op ->
        Uint32At (code vm2) (ip vm2 + 1) = Ok 1 ->
        step unknownFunction vm2 =
          Ok (Next (mkVM (constants vm2) (code vm2) (ip vm2 + 1 + 4) (sp vm2 + 1)
                         (stack vm2 ++ [val]) (callStack vm2) (pools vm2))).
Proof.
  apply (store_then_load_or_const_same_pool unknownFunction storingTop 1).
  - reflexivity.
  - reflexivity.
Defined.

(** The store of 5 into slot 1, and the two reads of that slot after it: 5,
    the stored value, not the 3 that the pool held. *)
Lemma store_then_load_on_the_sample :
  step unknownFunction storingTop = Ok (Next storedTop) /\
  step unknownFunction storedTop =
    Ok (Next (mkVM 1 (code storedTop) 10 2 [VFloat 9; VFloat 5] []
                   [[VFloat 1]; [VString "x"; VFloat 5; VFloat 4]])) /\
  step unknownFunction
       (mkVM 1 [OP_CONST; x01; x00; x00; x00] 0 1 [VFloat 9] [] (pools storedTop)) =
    Ok (Next (mkVM 1 [OP_CONST; x01; x00; x00; x00] 5 2 [VFloat 9; VFloat 5] []
                   [[VFloat 1]; [VString "x"; VFloat 5; VFloat 4]])).
Proof. repeat split; vm_compute; reflexivity. Qed.

Lemma binaryFloat_two_floats (f : float -> float -> float) (vm : VM)
    (st : list Value) (a b : float) :
  stack vm = st ++ [VFloat a; VFloat b] -> sp vm = len (stack vm) ->
  binaryFloat f vm =
    Ok (Next (mkVM (constants vm) (code vm) (ip vm) (len st + 1)
                   (st ++ [VFloat (f a b)]) (callStack vm) (pools vm))).
Proof.
  intros Hst Hsp. unfold binaryFloat.
  rewrite (pop_snoc vm (st ++ [VFloat a]) (VFloat b));
    [| rewrite Hst, <- app_assoc; reflexivity | exact Hsp].
  cbn [bind asFloat].
  rewrite (pop_snoc _ st (VFloat a)); [| reflexivity | cbn [sp stack]; reflexivity].
  cbn [bind asFloat push constants code ip sp stack callStack pools].
  reflexivity.
Qed.

Lemma pushArgs_copies (orig : list Value) :
  forall (n : nat) (i base : Z) (vm : VM) (extra : list Value),
    stack vm = orig ++ extra ->
    0 <= base + i -> base + i + Z.of_nat n <= len orig ->
    pushArgs n i base vm =
      Ok (mkVM (constants vm) (code vm) (ip vm) (sp vm + Z.of_nat n)
               (stack vm ++ take n (drop (Z.to_nat (base + i)) orig))
               (callStack vm) (pools vm)).
Proof.
  induction n as [| n IH]; intros i base vm extra Hst Hlo Hhi.
  - simpl. rewrite Z.add_0_r, take_0, app_nil_r. destruct vm; reflexivity.
  - cbn [pushArgs].
    destruct (orig !! Z.to_nat (base + i)) as [v |] eqn:Hv.
    2:{ apply lookup_ge_None in Hv. unfold len in Hhi. lia. }
    rewrite Hst, (index_app_l orig extra (base + i) v Hlo Hv). cbn [bind].
    rewrite (IH (i + 1) base (push v vm) (extra ++ [v])).
    + cbn [push constants code ip sp stack callStack pools].
      rewrite (drop_S _ _ _ Hv), firstn_cons.
      replace (Z.to_nat (base + (i + 1))) with (S (Z.to_nat (base + i))) by lia.
      rewrite Hst, <- !app_assoc. simpl.
      do 2 f_equal. lia.
    + cbn [push stack]. rewrite Hst, app_assoc. reflexivity.
    + lia.
    + lia.
Qed.

(** What [callFunction] does with [argCount] arguments: it saves the
    caller's instruction pointer, code, pool and the base [sp - argCount] in
    the new frame, restarts [sp] at 0 and pushes the [argCount] values found
    from that base, which lands them at the end of the one shared stack with
    [sp] counting them. *)
Lemma callFunction_copies_arguments :
  forall loadFunction vm fnID argCount fnCode fnConsts pools',
    loadFunction fnID (pools vm) = Ok (fnCode, fnConsts, pools') ->
    0 <= argCount <= sp vm -> sp vm <= len (stack vm) ->
    callFunction loadFunction fnID argCount vm =
      Ok (mkVM fnConsts fnCode 0 argCount
            (stack vm ++
             take (Z.to_nat argCount) (drop (Z.to_nat (sp vm - argCount)) (stack vm)))
            (callStack vm ++
             [Frame.mk (ip vm) (sp vm - argCount) (code vm) (constants vm)])
            pools').
Proof.
  intros ld vm fnID argCount fnCode fnConsts pools' Hld Hargs Hsp.
  unfold callFunction. rewrite Hld. cbn [bind Frame.spBackup].
  rewrite (pushArgs_copies (stack vm) _ _ _ _ []).
  - cbn [constants code ip sp stack callStack pools].
    rewrite Z.add_0_r, Z2Nat.id by lia. reflexivity.
  - cbn [stack]. rewrite app_nil_r. reflexivity.
  - lia.
  - lia.
Qed.

(** C7: a call with one argument, 30, on the stack [10, 20, 30].  The new
    frame saves the base 2, the stack size minus the number of arguments, as
    claimed.  The callee's operand stack is not the argument: [callFunction]
    restarts [sp] at 0 on the one shared stack and pushes the argument again,
    so that the stack is [10, 20, 30, 30] with [sp] = 1.  The slot the callee
    sees is slot 0, not the base: its top of stack is 10, the caller's bottom
    slot, and its first pop returns 10 and cuts the shared stack down to
    nothing, the caller's slots and both copies of the argument with it. *)
Theorem callFunction_hides_the_arguments :
  exists vm1,
    callFunction return99 0 1 calling = Ok vm1 /\
    callStack vm1 = [Frame.mk (ip calling) (sp calling - 1) (code calling)
                              (constants calling)] /\
    sp calling - 1 = 2 /\
    index (stack calling) (sp calling - 1) = Ok (VFloat 30) /\
    stack vm1 = [VFloat 10; VFloat 20; VFloat 30; VFloat 30] /\
    stack vm1 <> stack calling /\
    sp vm1 = 1 /\
    take (Z.to_nat (sp vm1)) (stack vm1) = [VFloat 10] /\
    peek vm1 = Ok (VFloat 10) /\
    pop vm1 = Ok (VFloat 10,
                  mkVM (constants vm1) (code vm1) (ip vm1) 0 [] (callStack vm1)
                       (pools vm1)).
Proof.
  eexists. split.
  - apply (callFunction_copies_arguments return99 calling 0 1
             [x01; x00; x00; x00; x00; x13] 1%nat [[]; [VFloat 99]]).
    + reflexivity.
    + simpl. lia.
    + vm_compute. discriminate.
  - repeat split; try reflexivity. discriminate.
Qed.

(** C2: a call with one argument, and the return from it.  The caller's
    instruction pointer, code and pool are back, and [sp] is the depth below
    the argument plus one; the stack is not what it was.  After [return 99]
    the value pushed is 20, not 99, the slot of the result does not exist and
    the next pop fails; after a callee that returns at once, the slot below
    the callee's base, which held 20, is gone as well. *)
Theorem call_then_return_corrupts_the_stack :
  (exists vm3,
      stepN return99 3 caller = Ok vm3 /\
      ip vm3 = 5 /\ code vm3 = code caller /\ constants vm3 = constants caller /\
      callStack vm3 = [] /\
      sp vm3 = 3 /\ stack vm3 = [VFloat 10; VFloat 20] /\
      stack vm3 <> [VFloat 10; VFloat 20; VFloat 99] /\
      pop vm3 = Panic IndexOutOfRange) /\
  (exists vm2,
      stepN returnTop 2 caller = Ok vm2 /\
      ip vm2 = 5 /\ code vm2 = code caller /\ constants vm2 = constants caller /\
      callStack vm2 = [] /\
      sp vm2 = 3 /\ stack vm2 = [VFloat 10] /\
      stack vm2 <> [VFloat 10; VFloat 20; VFloat 30]).
Proof.
  split.
  - eexists. split; [vm_compute; reflexivity |].
    repeat split; try reflexivity. discriminate.
  - eexists. split; [vm_compute; reflexivity |].
    repeat split; try reflexivity. discriminate.
Qed.

(** ** The emitter *)

Lemma extends_refl c : extends c c.
Proof. repeat split; exists []; rewrite app_nil_r; reflexivity. Qed.

Lemma extends_trans c1 c2 c3 : extends c1 c2 -> extends c2 c3 -> extends c1 c3.
Proof.
  intros ([b1 H1] & [v1 G1] & N1) ([b2 H2] & [v2 G2] & N2).
  repeat split.
  - exists (b1 ++ b2). rewrite H2, H1, app_assoc. reflexivity.
  - exists (v1 ++ v2). rewrite G2, G1, app_assoc. reflexivity.
  - congruence.
Qed.

Lemma extends_emit c b : extends c (emit c b).
Proof. repeat split; [exists [b] | exists []; rewrite app_nil_r]; reflexivity. Qed.

Lemma extends_emitInt c v : extends c (emitInt c v).
Proof. repeat split; [exists (le_encode 4 v) | exists []; rewrite app_nil_r]; reflexivity. Qed.

Lemma extends_addConst c v : extends c (snd (addConst c v)).
Proof. repeat split; [exists []; rewrite app_nil_r | exists [v]]; reflexivity. Qed.

Lemma emitBinaryOp_extends c op c' : emitBinaryOp c op = Ok c' -> extends c c'.
Proof.
  unfold emitBinaryOp.
  repeat (match goal with
          | |- context [if ?b then _ else _] => destruct b
          end;
          [intros H; inversion H; apply extends_emit |]).
  discriminate.
Qed.

Lemma emitAll_extends {A : Type} (f : Chunk -> A -> result Chunk) (xs : list A) :
  Forall (fun x => forall c c', f c x = Ok c' -> extends c c') xs ->
  forall c c', emitAll f c xs = Ok c' -> extends c c'.
Proof.
  induction 1 as [| x xs Hx _ IH]; intros c c' H; simpl in H.
  - inversion H. apply extends_refl.
  - apply bind_Ok_inv in H as (c1 & H1 & H2).
    eapply extends_trans; [apply (Hx _ _ H1) | apply (IH _ _ H2)].
Qed.

Lemma emitExpr_extends (e : Expr) :
  forall c c', emitExpr c e = Ok c' -> extends c c'.
Proof.
  induction e as [v | v | v | n | n e IHe | op e IHe | l op r IHl IHr
                 | callee args IHc IHargs | o n IHo | e IHe]
    using Expr_nested_ind; intros c c' H; cbn [emitExpr] in H.
  - inversion H. ext_chain.
  - inversion H. ext_chain.
  - inversion H. ext_chain.
  - inversion H. ext_chain.
  - apply bind_Ok_inv in H as (c1 & H1 & H2). apply IHe in H1.
    inversion H2. ext_chain.
  - apply bind_Ok_inv in H as (c1 & H1 & H2). apply IHe in H1.
    destruct (String.eqb op "-").
    + inversion H2. ext_chain.
    + destruct (String.eqb op "!"); [| discriminate].
      inversion H2. ext_chain.
  - apply bind_Ok_inv in H as (c1 & H1 & H2).
    apply bind_Ok_inv in H2 as (c2 & H2 & H3).
    apply IHl in H1. apply IHr in H2. apply emitBinaryOp_extends in H3.
    eauto using extends_trans.
  - apply bind_Ok_inv in H as (c1 & H1 & H2).
    apply (emitAll_extends _ _ IHargs) in H1.
    inversion H2. ext_chain.
  - discriminate.
  - eauto.
Qed.

(** C9: [&&] and [||] do not short-circuit.  The code of the expression is
    the code of the left operand, then the code of the right operand, then
    the one opcode, with nothing between them; the opcode pops both values;
    and a right operand that is no number stops the run even when the left
    operand decides the result. *)
Theorem logical_operators_evaluate_both_operands :
  forall c l op r c',
    op = "&&"%string \/ op = "||"%string ->
    emitExpr c (BinaryExpr l op r) = Ok c' ->
    (exists c1 c2 codeL codeR,
        emitExpr c l = Ok c1 /\ emitExpr c1 r = Ok c2 /\
        Code c1 = Code c ++ codeL /\ Code c2 = Code c1 ++ codeR /\
        Code c' = Code c ++ codeL ++ codeR ++ [logicalOpcode op]) /\
    (forall loadFunction vm st a b,
        index (code vm) (ip vm) = Ok (logicalOpcode op) ->
        stack vm = st ++ [VFloat a; VFloat b] -> sp vm = len (stack vm) ->
        step loadFunction vm =
          Ok (Next (mkVM (constants vm) (code vm) (ip vm + 1) (len st + 1)
                         (st ++ [VFloat (logicalResult op a b)])
                         (callStack vm) (pools vm)))) /\
    (forall loadFunction,
        (* return false && "s"   and   return true || "s" *)
        compileAndRun loadFunction 10
          [ReturnStmt (BinaryExpr (BoolExpr false) "&&" (StringExpr "s"))]
        = Some (Panic InterfaceConversion) /\
        compileAndRun loadFunction 10
          [ReturnStmt (BinaryExpr (BoolExpr true) "||" (StringExpr "s"))]
        = Some (Panic InterfaceConversion)).
Proof.
  intros c l op r c' Hop H. cbn [emitExpr] in H.
  apply bind_Ok_inv in H as (c1 & H1 & H).
  apply bind_Ok_inv in H as (c2 & H2 & H3).
  split; [| split].
  - destruct (emitExpr_extends _ _ _ H1) as ([codeL HL] & _ & _).
    destruct (emitExpr_extends _ _ _ H2) as ([codeR HR] & _ & _).
    exists c1, c2, codeL, codeR. repeat split; try assumption.
    destruct Hop as [-> | ->]; cbv [emitBinaryOp] in H3; simpl in H3;
      inversion H3; cbn [emit Code]; rewrite HR, HL, <- !app_assoc; reflexivity.
  - intros ld vm st a b Hfetch Hst Hsp.
    unfold step. rewrite Hfetch.
    destruct Hop as [-> | ->]; cbv [logicalOpcode logicalResult]; simpl;
      rewrite (binaryFloat_two_floats _ _ st a b) by assumption; reflexivity.
  - intros ld. split; vm_compute; reflexivity.
Qed.

Lemma logical_operators_witness :
  (exists c1 c2 codeL codeR,
      emitExpr NewChunk (BoolExpr false) = Ok c1 /\
      emitExpr c1 (BoolExpr true) = Ok c2 /\
      Code c1 = Code NewChunk ++ codeL /\ Code c2 = Code c1 ++ codeR /\
      Code (mkChunk [x01; x00; x00; x00; x00; x01; x01; x00; x00; x00; x0d]
                    [VFloat 0; VFloat 1] []) =
        Code NewChunk ++ codeL ++ codeR ++ [logicalOpcode "&&"]).
Proof.
  apply (logical_operators_evaluate_both_operands NewChunk
           (BoolExpr false) "&&" (BoolExpr true)
           (mkChunk [x01; x00; x00; x00; x00; x01; x01; x00; x00; x00; x0d]
                    [VFloat 0; VFloat 1] [])).
  - left. reflexivity.
  - reflexivity.
Defined.

(** C5: the emitter gives a name a new pool slot at every occurrence.  Two
    loads of one name address two slots; the slot a [let] stores to is not the
    slot a later use loads, so [let x = 5] then [return x] returns the
    string "x". *)
Theorem identifier_gets_a_new_slot_each_time :
  (forall c name,
      exists c1 c2,
        emitExpr c (IdentExpr name) = Ok c1 /\
        emitExpr c1 (IdentExpr name) = Ok c2 /\
        Code c1 = Code c ++ OP_LOAD :: le_encode 4 (len (Constants c)) /\
        Code c2 = Code c1 ++ OP_LOAD :: le_encode 4 (len (Constants c) + 1) /\
        Constants c2 = Constants c ++ [VString name; VString name] /\
        Names c2 = Names c) /\
  (forall loadFunction,
      (* let x = 5   then   return x *)
      compileAndRun loadFunction 100
        [LetStmt "x" (NumberExpr "5"); ReturnStmt (IdentExpr "x")]
      = Some (Ok (Some (VString "x")))).
Proof.
  split.
  - intros c name. do 2 eexists. cbn [emitExpr addConst].
    repeat split; cbn [emit emitInt Code Constants Names].
    + rewrite <- app_assoc. reflexivity.
    + rewrite <- app_assoc, len_app. reflexivity.
    + rewrite <- app_assoc. reflexivity.
  - intros ld. vm_compute. reflexivity.
Qed.

(** C6: [OP_CALL] takes the argument count from its immediate and the
    identifier of the function from the top of the stack.  The code of a call
    expression is the code of its arguments and [OP_CALL argc]: the callee is
    not emitted, so the machine underflows on [f()] and takes the last
    argument of [f(1, 2)] for the identifier. *)
Theorem call_expression_never_pushes_the_callee :
  (forall loadFunction (f : float),
      step loadFunction
        (mkVM 0 [x12; x02; x00; x00; x00] 0 3 [VFloat 1; VFloat 2; VFloat f] [] [[]]) =
      bind (callFunction loadFunction (F64.to_int f) 2
              (mkVM 0 [x12; x02; x00; x00; x00] 5 2 [VFloat 1; VFloat 2] [] [[]]))
           (fun vm => Ok (Next vm))) /\
  (forall c callee callee' args,
      emitExpr c (CallExpr callee args) = emitExpr c (CallExpr callee' args)) /\
  (forall c callee, emitExpr c (CallExpr callee []) =
                    Ok (emitInt (emit c OP_CALL) 0)) /\
  (forall loadFunction,
      (* f() *)
      compileAndRun loadFunction 100 [ExprStmt (CallExpr (IdentExpr "f") [])]
      = Some (Panic (Msg "Stack underflow"))) /\
  (* f(1, 2): the function looked up is number 2, the last argument *)
  compileAndRun reportFunction 100
    [ExprStmt (CallExpr (IdentExpr "f") [NumberExpr "1"; NumberExpr "2"])]
  = Some (Panic (Msg "loadFunction 2")).
Proof.
  split; [intros; reflexivity |].
  split; [reflexivity |].
  split; [reflexivity |].
  split; [intros ld |]; vm_compute; reflexivity.
Qed.

(** C1: the guard of the counted loop is inverted.  The guard sequence
    goes on into the body (offset 16) when [i >= limit] holds and jumps to the
    exit when it does not; the code of [for i 3: return 42] has this guard at
    its loop start, with the exit patched to the first instruction after the
    loop.  So [for i 3] never runs its body, [for i 0] runs it, and
    [for i 0: pass] is still looping after 1000 turns of the machine. *)
Theorem for_loop_guard_is_inverted :
  forall loadFunction,
    (forall i n : float,
        stepN loadFunction 4 (machine [VFloat n; VFloat i] (loopGuard 1 0 99)) =
        Ok (mkVM 0 (loopGuard 1 0 99) (if PrimFloat.leb n i then 16 else 99) 0
                 [] [] [[VFloat n; VFloat i]])) /\
    (exists c,
        emitMain unit noFunctions noFunctions noFunctions
          (forProgram "3" [ReturnStmt (NumberExpr "42")]) = Ok c /\
        take 16 (drop 20 (Code c)) = loopGuard 2 1 63 /\
        take 5 (drop 63 (Code c)) = [OP_CONST] ++ le_encode 4 6 /\
        Constants c !! 6%nat = Some (VFloat 7)) /\
    compileAndRun loadFunction 100 (forProgram "3" [ReturnStmt (NumberExpr "42")])
      = Some (Ok (Some (VFloat 7))) /\
    compileAndRun loadFunction 100 (forProgram "0" [ReturnStmt (NumberExpr "42")])
      = Some (Ok (Some (VFloat 42))) /\
    compileAndRun loadFunction 1000 (forProgram "0" [PassStmt]) = None.
Proof.
  intros ld. split; [| split; [| repeat split; vm_compute; reflexivity]].
  - intros i n. vm_compute. destruct (PrimFloat.leb n i); reflexivity.
  - eexists. split; [vm_compute; reflexivity |].
    repeat split; vm_compute; reflexivity.
Qed.

(** ** The loader against the encoder *)

Lemma skipConstants_encoded (cs : list Value) :
  Forall wfConstant cs ->
  forall pre post,
    skipConstants (length cs) (pre ++ flat_map encodeConstant cs ++ post) (len pre)
    = Ok (len pre + len (flat_map encodeConstant cs)).
Proof.
  induction 1 as [| v cs Hv _ IH]; intros pre post.
  - cbn. change (len (@nil byte)) with 0. rewrite Z.add_0_r. reflexivity.
  - cbn [length flat_map skipConstants].
    set (F := flat_map encodeConstant cs) in *.
    set (code := pre ++ (encodeConstant v ++ F) ++ post).
    assert (Hrec : skipConstants (length cs) code (len pre + len (encodeConstant v))
                   = Ok (len pre + len (encodeConstant v ++ F))).
    { replace code with ((pre ++ encodeConstant v) ++ F ++ post)
        by (subst code; list_eq).
      rewrite <- len_app, IH, !len_app. f_equal. lia. }
    destruct v as [f | s | z]; cbn [encodeConstant wfConstant] in *.
    + rewrite (index_at code pre (le_encode 8 (F64.Float64bits f) ++ F ++ post) x02)
        by (reflexivity || (subst code; list_eq)).
      cbn [bind]. rewrite <- Hrec. f_equal. solve_len.
    + set (bs := list_byte_of_string s) in *.
      rewrite (index_at code pre (le_encode 4 (len bs) ++ bs ++ F ++ post) x01)
        by (reflexivity || (subst code; list_eq)).
      cbn [bind].
      rewrite (Uint32At_at code (pre ++ [x01]) (bs ++ F ++ post) (len bs))
        by (solve [subst code; list_eq] || solve [solve_len] ||
            (pose proof (len_nonneg bs); lia)).
      cbn [bind]. rewrite <- Hrec. f_equal. solve_len.
    + rewrite (index_at code pre (le_encode 4 z ++ F ++ post) x03)
        by (reflexivity || (subst code; list_eq)).
      cbn [bind]. rewrite <- Hrec. f_equal. solve_len.
Qed.

Lemma readConstants_encoded (slack : list byte) (cs : list Value) :
  Forall wfConstant cs ->
  forall pre post,
    readConstants (length cs) (pre ++ flat_map encodeConstant cs ++ post) slack (len pre)
    = Ok (cs, len pre + len (flat_map encodeConstant cs)).
Proof.
  induction 1 as [| v cs Hv _ IH]; intros pre post.
  - cbn. change (len (@nil byte)) with 0. rewrite Z.add_0_r. reflexivity.
  - cbn [length flat_map readConstants].
    set (F := flat_map encodeConstant cs) in *.
    set (code := pre ++ (encodeConstant v ++ F) ++ post).
    assert (Hrec : readConstants (length cs) code slack (len pre + len (encodeConstant v))
                   = Ok (cs, len pre + len (encodeConstant v ++ F))).
    { replace code with ((pre ++ encodeConstant v) ++ F ++ post)
        by (subst code; list_eq).
      rewrite <- len_app, IH, !len_app. do 2 f_equal. lia. }
    destruct v as [f | s | z]; cbn [encodeConstant wfConstant] in *.
    + rewrite (index_at code pre (le_encode 8 (F64.Float64bits f) ++ F ++ post) x02)
        by (reflexivity || (subst code; list_eq)).
      cbn [bind].
      rewrite (Uint64At_at code (pre ++ [x02]) (F ++ post) (F64.Float64bits f))
        by (solve [subst code; list_eq] || solve [solve_len] ||
            apply Float64bits_range).
      cbn [bind]. rewrite Float64frombits_Float64bits.
      replace (len pre + 1 + 8) with (len pre + len (x02 :: le_encode 8 (F64.Float64bits f)))
        by solve_len.
      rewrite Hrec. reflexivity.
    + set (bs := list_byte_of_string s) in *.
      rewrite (index_at code pre (le_encode 4 (len bs) ++ bs ++ F ++ post) x01)
        by (reflexivity || (subst code; list_eq)).
      cbn [bind].
      rewrite (Uint32At_at code (pre ++ [x01]) (bs ++ F ++ post) (len bs))
        by (solve [subst code; list_eq] || solve [solve_len] ||
            (pose proof (len_nonneg bs); lia)).
      cbn [bind].
      rewrite (slice_at code (pre ++ x01 :: le_encode 4 (len bs)) bs (F ++ post))
        by (solve [subst code; list_eq] || solve [solve_len]).
      cbn [bind]. subst bs. rewrite string_of_list_byte_of_string.
      replace (len pre + 1 + 4 + len (list_byte_of_string s))
        with (len pre + len (x01 :: le_encode 4 (len (list_byte_of_string s)) ++
                             list_byte_of_string s)) by solve_len.
      rewrite Hrec. reflexivity.
    + rewrite (index_at code pre (le_encode 4 z ++ F ++ post) x03)
        by (reflexivity || (subst code; list_eq)).
      cbn [bind].
      rewrite (Uint32At_at code (pre ++ [x03]) (F ++ post) z)
        by (solve [subst code; list_eq] || solve [solve_len] || assumption).
      cbn [bind].
      replace (len pre + 1 + 4) with (len pre + len (x03 :: le_encode 4 z))
        by solve_len.
      rewrite Hrec. reflexivity.
Qed.

(** The loader walks over one encoded chunk. *)
Lemma skipFunction_encoded (f : Function) (pre post : list byte) :
  wfFunction f ->
  let code := pre ++ encodeFunction f ++ post in
  Uint32At code (len pre) = Ok (len (fnConsts f)) /\
  skipConstants (length (fnConsts f)) code (len pre + 4)
  = Ok (len pre + 4 + len (flat_map encodeConstant (fnConsts f))) /\
  Uint32At code (len pre + 4 + len (flat_map encodeConstant (fnConsts f)))
  = Ok (len (fnCode f)) /\
  len (encodeFunction f)
  = 4 + len (flat_map encodeConstant (fnConsts f)) + 4 + len (fnCode f).
Proof.
  intros (Hn & Hcs & Hc) code. subst code. unfold encodeFunction.
  set (F := flat_map encodeConstant (fnConsts f)).
  pose proof (len_nonneg (fnConsts f)). pose proof (len_nonneg (fnCode f)).
  repeat split.
  - apply (Uint32At_at _ pre (F ++ le_encode 4 (len (fnCode f)) ++ fnCode f ++ post));
      [list_eq | reflexivity | lia].
  - replace (pre ++ (le_encode 4 (len (fnConsts f)) ++ F ++
                     le_encode 4 (len (fnCode f)) ++ fnCode f) ++ post)
      with ((pre ++ le_encode 4 (len (fnConsts f))) ++ F ++
            (le_encode 4 (len (fnCode f)) ++ fnCode f ++ post)) by list_eq.
    replace (len pre + 4) with (len (pre ++ le_encode 4 (len (fnConsts f)))) by solve_len.
    subst F. apply skipConstants_encoded. exact Hcs.
  - apply (Uint32At_at _ (pre ++ le_encode 4 (len (fnConsts f)) ++ F) (fnCode f ++ post));
      [list_eq | solve_len | lia].
  - solve_len.
Qed.

Lemma skipFunctions_encoded (fs : list Function) :
  Forall wfFunction fs ->
  forall pre post,
    skipFunctions (length fs) (pre ++ flat_map encodeFunction fs ++ post) (len pre)
    = Ok (len pre + len (flat_map encodeFunction fs)).
Proof.
  induction 1 as [| f fs Hf _ IH]; intros pre post.
  - cbn. change (len (@nil byte)) with 0. rewrite Z.add_0_r. reflexivity.
  - cbn [length flat_map skipFunctions].
    set (G := flat_map encodeFunction fs) in *.
    replace (pre ++ (encodeFunction f ++ G) ++ post)
      with (pre ++ encodeFunction f ++ (G ++ post)) by list_eq.
    destruct (skipFunction_encoded f pre (G ++ post) Hf) as (H1 & H2 & H3 & H4).
    rewrite H1. cbn [bind]. rewrite Z_to_nat_len, H2. cbn [bind]. rewrite H3. cbn [bind].
    replace (pre ++ encodeFunction f ++ G ++ post)
      with ((pre ++ encodeFunction f) ++ G ++ post) by list_eq.
    replace (len pre + 4 + len (flat_map encodeConstant (fnConsts f)) + (4 + len (fnCode f)))
      with (len (pre ++ encodeFunction f)) by (rewrite len_app, H4; lia).
    rewrite IH, !len_app. f_equal. lia.
Qed.

(** The scan of an encoded module ends at the end of the bytes, with the
    constants and the code of the main chunk. *)
Lemma scanModule_encode (m : Module) (slack : list byte) :
  wfModule m ->
  scanModule (encode m) slack =
    Ok (fnConsts (main m), fnCode (main m), len (encode m)).
Proof.
  intros (Hn & Hfs & Hmain).
  pose proof Hmain as (Hmn & Hmcs & Hmc).
  unfold scanModule, encode.
  set (G := flat_map encodeFunction (functions m)).
  set (M := encodeFunction (main m)).
  set (code := magic ++ [x02] ++ le_encode 4 (len (functions m)) ++ G ++ M).
  pose proof (len_nonneg (functions m)).
  assert (Hmagic : slice code slack 0 3 = Ok magic).
  { apply (slice_at code [] magic
             ([x02] ++ le_encode 4 (len (functions m)) ++ G ++ M)); reflexivity. }
  rewrite Hmagic. cbn [bind]. change (string_of_list_byte magic) with "KBC"%string.
  cbn [String.eqb Ascii.eqb Bool.eqb negb andb].
  rewrite (index_at code magic (le_encode 4 (len (functions m)) ++ G ++ M) x02)
    by reflexivity.
  cbn [bind]. change (b2z x02 =? 2) with true. cbn [negb].
  rewrite (Uint32At_at code (magic ++ [x02]) (G ++ M) (len (functions m)))
    by (reflexivity || lia).
  cbn [bind]. rewrite Z_to_nat_len.
  replace code with ((magic ++ [x02] ++ le_encode 4 (len (functions m))) ++ G ++ M)
    by (subst code; list_eq).
  set (pre := magic ++ [x02] ++ le_encode 4 (len (functions m))).
  assert (Hpre : len pre = 4 + 4) by reflexivity.
  rewrite <- Hpre. subst G. rewrite skipFunctions_encoded by exact Hfs.
  cbn [bind].
  set (G := flat_map encodeFunction (functions m)).
  replace (pre ++ G ++ M) with ((pre ++ G) ++ M ++ []) by (rewrite app_nil_r; list_eq).
  rewrite <- len_app.
  destruct (skipFunction_encoded (main m) (pre ++ G) [] Hmain) as (H1 & H2 & H3 & H4).
  fold M in H1, H2, H3, H4.
  rewrite H1. cbn [bind]. rewrite Z_to_nat_len.
  set (F := flat_map encodeConstant (fnConsts (main m))) in *.
  replace ((pre ++ G) ++ M ++ [])
    with (((pre ++ G) ++ le_encode 4 (len (fnConsts (main m)))) ++ F ++
          (le_encode 4 (len (fnCode (main m))) ++ fnCode (main m)))
    by (subst M; unfold encodeFunction; fold F; rewrite app_nil_r; list_eq).
  replace (len (pre ++ G) + 4)
    with (len ((pre ++ G) ++ le_encode 4 (len (fnConsts (main m))))) by solve_len.
  subst F. rewrite readConstants_encoded by exact Hmcs.
  cbn [bind].
  set (F := flat_map encodeConstant (fnConsts (main m))) in *.
  set (pre2 := (pre ++ G) ++ le_encode 4 (len (fnConsts (main m)))) in *.
  pose proof (len_nonneg (fnCode (main m))).
  rewrite (Uint32At_at _ (pre2 ++ F) (fnCode (main m)) (len (fnCode (main m))))
    by (solve [list_eq] || solve [solve_len] || lia).
  cbn [bind].
  rewrite (slice_at _ (pre2 ++ F ++ le_encode 4 (len (fnCode (main m))))
             (fnCode (main m)) [] slack)
    by (solve [rewrite app_nil_r; list_eq] || solve [solve_len]).
  cbn [bind]. do 2 f_equal. solve_len.
Qed.

(** C4, as the code has it: for a module whose counts and lengths fit their
    32-bit fields and whose integer constants lie in [0, 2^32), loading the
    encoding gives a new machine over exactly the constants and the code of
    the main chunk; the function table is walked over and is no part of what
    the loader returns. *)
Theorem load_of_encode_restores_main_chunk :
  forall (m : Module) (slack : list byte),
    wfModule m ->
    New (encode m) slack =
      Ok (mkVM 0 (fnCode (main m)) 0 0 [] [] [fnConsts (main m)]).
Proof.
  intros m slack Hm. unfold New, loadModule.
  rewrite (scanModule_encode m slack Hm). reflexivity.
Qed.

Lemma load_of_encode_witness :
  New (encode stringModuleWithFunction) [] =
    Ok (mkVM 0 [x01; x00; x00; x00; x00; x13; x13] 0 0 [] []
             [[VString "abcdefgh"]]).
Proof.
  apply (load_of_encode_restores_main_chunk stringModuleWithFunction []).
  unfold wfModule, wfFunction. cbn [functions main stringModuleWithFunction stringModule
                                    fnConsts fnCode].
  repeat split; try reflexivity; repeat constructor; try reflexivity.
Defined.

(** C4, as stated, fails: two modules that differ in their function tables
    load to the same machine, so the module is not recovered from what the
    loader returns; and the integer constant -1 loads as 4294967295. *)
Lemma loader_drops_function_table :
  Emit noFunctions noFunctions noFunctions [] [ReturnStmt (StringExpr "abcdefgh")]
    = Ok (encode stringModule) /\
  encode stringModule = stringBytes /\
  stringModule <> stringModuleWithFunction /\
  New (encode stringModule) [] = New (encode stringModuleWithFunction) [] /\
  New (encode stringModule) [] =
    Ok (mkVM 0 [x01; x00; x00; x00; x00; x13; x13] 0 0 [] []
             [[VString "abcdefgh"]]) /\
  New (encode (mkModule [] (mkFunction [VInt (-1)] [x13]))) [] =
    Ok (mkVM 0 [x13] 0 0 [] [] [[VInt 4294967295]]).
Proof.
  split; [vm_compute; reflexivity |].
  split; [vm_compute; reflexivity |].
  split; [discriminate |].
  repeat split; vm_compute; reflexivity.
Qed.

(** ** The loader on a buffer cut short *)

Lemma cut_short_refl {A : Type} (r : result A) : cut_short r r.
Proof. right. reflexivity. Qed.

Lemma cut_short_bind {A B : Type} (rp rc : result A) (kp kc : A -> result B) :
  cut_short rp rc -> (forall a, cut_short (kp a) (kc a)) ->
  cut_short (bind rp kp) (bind rc kc).
Proof.
  intros [(p & -> & Hp) | ->] Hk.
  - left. exists p. split; [reflexivity | exact Hp].
  - destruct rc; cbn [bind]; [apply Hk | apply cut_short_refl].
Qed.

Lemma cut_short_bounds {A : Type} (p : panic) (rc : result A) :
  is_bounds_panic p = true -> cut_short (Panic p) rc.
Proof. intros H. left. exists p. auto. Qed.

Section Prefix.

Variables buf ext : list byte.

Lemma index_prefix (off : Z) : cut_short (index buf off) (index (buf ++ ext) off).
Proof.
  destruct (index buf off) as [b |] eqn:E.
  - right. apply index_Ok_lookup in E as [Hr Hl]. symmetry.
    apply index_app_l; [lia | exact Hl].
  - unfold index in E.
    destruct ((0 <=? off) && (off <? len buf)); [destruct (buf !! Z.to_nat off) |];
      inversion E; apply cut_short_bounds; reflexivity.
Qed.

Lemma drop_prefix (off : Z) :
  0 <= off <= len buf ->
  drop (Z.to_nat off) (buf ++ ext) = drop (Z.to_nat off) buf ++ ext.
Proof. intros H. apply drop_app_le. unfold len in H. lia. Qed.

Lemma in_range_prefix (off : Z) :
  (0 <=? off) && (off <=? len buf) = true ->
  (0 <=? off) && (off <=? len (buf ++ ext)) = true /\ 0 <= off <= len buf.
Proof.
  intros H. apply andb_true_iff in H as [H1 H2].
  apply Z.leb_le in H1. apply Z.leb_le in H2.
  split; [| lia]. apply in_range_true. rewrite len_app.
  pose proof (len_nonneg ext). lia.
Qed.

Lemma Uint32At_prefix (off : Z) :
  cut_short (Uint32At buf off) (Uint32At (buf ++ ext) off).
Proof.
  unfold Uint32At.
  destruct ((0 <=? off) && (off <=? len buf)) eqn:E;
    [| apply cut_short_bounds; reflexivity].
  apply in_range_prefix in E as [E Hr]. rewrite E, drop_prefix by exact Hr.
  destruct (drop (Z.to_nat off) buf) as [| b0 [| b1 [| b2 [| b3 t]]]];
    try (apply cut_short_bounds; reflexivity).
  apply cut_short_refl.
Qed.

Lemma Uint64At_prefix (off : Z) :
  cut_short (Uint64At buf off) (Uint64At (buf ++ ext) off).
Proof.
  unfold Uint64At.
  destruct ((0 <=? off) && (off <=? len buf)) eqn:E;
    [| apply cut_short_bounds; reflexivity].
  apply in_range_prefix in E as [E Hr]. rewrite E, drop_prefix by exact Hr.
  destruct (drop (Z.to_nat off) buf)
    as [| b0 [| b1 [| b2 [| b3 [| b4 [| b5 [| b6 [| b7 t]]]]]]]];
    try (apply cut_short_bounds; reflexivity).
  apply cut_short_refl.
Qed.

Lemma slice_prefix (lo hi : Z) :
  cut_short (slice buf [] lo hi) (slice (buf ++ ext) [] lo hi).
Proof.
  unfold slice. change (len (@nil byte)) with 0. rewrite !Z.add_0_r, !app_nil_r.
  destruct ((0 <=? lo) && (lo <=? hi) && (hi <=? len buf)) eqn:E;
    [| apply cut_short_bounds; reflexivity].
  apply andb_true_iff in E as [E E3]. apply andb_true_iff in E as [E1 E2].
  apply Z.leb_le in E1, E2, E3.
  replace ((0 <=? lo) && (lo <=? hi) && (hi <=? len (buf ++ ext))) with true.
  2:{ symmetry. rewrite len_app. pose proof (len_nonneg ext).
      repeat (apply andb_true_iff; split); apply Z.leb_le; lia. }
  right. f_equal.
  rewrite drop_prefix by lia.
  rewrite take_app_le; [reflexivity |].
  rewrite length_drop. unfold len in E3. lia.
Qed.

Lemma skipConstants_prefix (n : nat) :
  forall off, cut_short (skipConstants n buf off) (skipConstants n (buf ++ ext) off).
Proof.
  induction n as [| n IH]; intros off; cbn [skipConstants].
  - apply cut_short_refl.
  - apply cut_short_bind; [apply index_prefix |]. intros kind.
    apply cut_short_bind; [| intros; apply IH].
    destruct kind; try apply cut_short_refl.
    apply cut_short_bind; [apply Uint32At_prefix | intros; apply cut_short_refl].
Qed.

Lemma skipFunctions_prefix (n : nat) :
  forall off, cut_short (skipFunctions n buf off) (skipFunctions n (buf ++ ext) off).
Proof.
  induction n as [| n IH]; intros off; cbn [skipFunctions].
  - apply cut_short_refl.
  - apply cut_short_bind; [apply Uint32At_prefix |]. intros cCount.
    apply cut_short_bind; [apply skipConstants_prefix |]. intros off'.
    apply cut_short_bind; [apply Uint32At_prefix |]. intros l. apply IH.
Qed.

Lemma readConstants_prefix (n : nat) :
  forall off,
    cut_short (readConstants n buf [] off) (readConstants n (buf ++ ext) [] off).
Proof.
  induction n as [| n IH]; intros off; cbn [readConstants].
  - apply cut_short_refl.
  - apply cut_short_bind; [apply index_prefix |]. intros kind.
    apply cut_short_bind.
    + destruct kind; try apply cut_short_refl.
      * apply cut_short_bind; [apply Uint32At_prefix |]. intros l.
        apply cut_short_bind; [apply slice_prefix |]. intros. apply cut_short_refl.
      * apply cut_short_bind; [apply Uint64At_prefix |]. intros. apply cut_short_refl.
      * apply cut_short_bind; [apply Uint32At_prefix |]. intros. apply cut_short_refl.
    + intros [v off']. apply cut_short_bind; [apply IH |].
      intros [rest off'']. apply cut_short_refl.
Qed.

Lemma scanModule_prefix :
  cut_short (scanModule buf []) (scanModule (buf ++ ext) []).
Proof.
  unfold scanModule.
  apply cut_short_bind; [apply slice_prefix |]. intros magic.
  destruct (negb (String.eqb (string_of_list_byte magic) "KBC"));
    [apply cut_short_refl |].
  apply cut_short_bind; [apply index_prefix |]. intros version.
  destruct (negb (b2z version =? 2)); [apply cut_short_refl |].
  apply cut_short_bind; [apply Uint32At_prefix |]. intros fnCount.
  apply cut_short_bind; [apply skipFunctions_prefix |]. intros off.
  apply cut_short_bind; [apply Uint32At_prefix |]. intros cCount.
  apply cut_short_bind; [apply readConstants_prefix |]. intros [consts off'].
  apply cut_short_bind; [apply Uint32At_prefix |]. intros codeLen.
  apply cut_short_bind; [apply slice_prefix |]. intros. apply cut_short_refl.
Qed.

End Prefix.

(** A successful scan of a buffer without spare capacity ends inside it. *)
Lemma scanModule_extent (code : list byte) consts mainCode e :
  scanModule code [] = Ok (consts, mainCode, e) -> e <= len code.
Proof.
  unfold scanModule. intros H.
  apply bind_Ok_inv in H as (magic & _ & H).
  destruct (negb (String.eqb (string_of_list_byte magic) "KBC")); [discriminate |].
  apply bind_Ok_inv in H as (version & _ & H).
  destruct (negb (b2z version =? 2)); [discriminate |].
  apply bind_Ok_inv in H as (fnCount & _ & H).
  apply bind_Ok_inv in H as (off & _ & H).
  apply bind_Ok_inv in H as (cCount & _ & H).
  apply bind_Ok_inv in H as ([cs off'] & _ & H).
  apply bind_Ok_inv in H as (codeLen & _ & H).
  apply bind_Ok_inv in H as (mc & Hs & H).
  inversion H; subst. unfold slice in Hs.
  destruct ((0 <=? off' + 4) && (off' + 4 <=? off' + 4 + codeLen) &&
            (off' + 4 + codeLen <=? len code + len (@nil byte))) eqn:E; [| discriminate].
  apply andb_true_iff in E as [_ E]. apply Z.leb_le in E.
  change (len (@nil byte)) with 0 in E. lia.
Qed.

(** C3, as the code has it: the loader checks no length field and has no
    error of its own for a truncated module.  When a buffer without spare
    capacity loads, its scan ends inside it, and the buffer cut at any point
    before that end stops the loader with a bounds panic of the Go runtime. *)
Theorem truncated_buffer_panics_on_bounds :
  forall (code : list byte) (vm0 : VM) consts mainCode e (k : nat),
    scanModule code [] = Ok (consts, mainCode, e) ->
    Z.of_nat k < e ->
    e <= len code /\
    exists p, loadModule vm0 (take k code) [] = Panic p /\ is_bounds_panic p = true.
Proof.
  intros code vm0 consts mainCode e k Hscan Hk.
  pose proof (scanModule_extent _ _ _ _ Hscan) as He.
  split; [exact He |].
  pose proof (scanModule_prefix (take k code) (drop k code)) as Hcut.
  rewrite take_drop, Hscan in Hcut.
  unfold loadModule.
  destruct Hcut as [(p & -> & Hp) | Hsame].
  - exists p. auto.
  - apply scanModule_extent in Hsame.
    unfold len in Hsame, He. rewrite length_take in Hsame. lia.
Qed.

Lemma truncated_buffer_witness :
  36 <= len stringBytes /\
  exists p, loadModule (machine [] []) (take 30 stringBytes) [] = Panic p /\
            is_bounds_panic p = true.
Proof.
  apply (truncated_buffer_panics_on_bounds stringBytes (machine [] [])
           [VString "abcdefgh"] [x01; x00; x00; x00; x00; x13; x13] 36 30).
  - reflexivity.
  - reflexivity.
Defined.

(** C3, as stated, fails.  The module of [return "abcdefgh"], with the
    payload of its string constant cut to four bytes, loads without any error
    into a different module; and the same module without the last byte of its
    main code, in a buffer with one byte of spare capacity, loads with that
    byte from beyond the end of the buffer. *)
Lemma truncated_region_loads_silently :
  New stringBytes [] =
    Ok (mkVM 0 [x01; x00; x00; x00; x00; x13; x13] 0 0 [] []
             [[VString "abcdefgh"]]) /\
  len stringBytesCut = len stringBytes - 4 /\
  New stringBytesCut [] =
    Ok (mkVM 0 [x00] 0 0 [] []
             [[VString (string_of_list_byte
                          [x61; x62; x63; x64; x07; x00; x00; x00])]]) /\
  New (take 35 stringBytes) [x00] =
    Ok (mkVM 0 [x01; x00; x00; x00; x00; x13; x00] 0 0 [] []
             [[VString "abcdefgh"]]).
Proof.
  repeat split; vm_compute; reflexivity.
Qed.

(** ** The stack of the machine *)

Lemma push_consistent (v : Value) (vm : VM) :
  stackConsistent vm -> stackConsistent (push v vm).
Proof.
  unfold stackConsistent, push. cbn [sp stack]. intros ->.
  rewrite len_app. reflexivity.
Qed.

Lemma pop_consistent (vm vm' : VM) (v : Value) :
  stackConsistent vm -> pop vm = Ok (v, vm') ->
  stackConsistent vm' /\ stack vm = stack vm' ++ [v] /\
  code vm' = code vm /\ constants vm' = constants vm /\ ip vm' = ip vm /\
  callStack vm' = callStack vm /\ pools vm' = pools vm.
Proof.
  unfold stackConsistent. intros Hsp Hpop.
  pose proof Hpop as Hpop'. apply pop_Ok_inv in Hpop' as [Hpeek ->].
  unfold peek in Hpeek. destruct (sp vm =? 0) eqn:E; [discriminate |].
  apply index_Ok_lookup in Hpeek as [Hr Hl].
  cbn [sp stack code constants ip callStack pools].
  assert (Hn : Z.to_nat (sp vm - 1) = (length (stack vm) - 1)%nat)
    by (rewrite Hsp; unfold len; lia).
  repeat split; try reflexivity.
  - unfold len. rewrite length_take. unfold len in Hsp, Hr. lia.
  - rewrite Hn in *.
    destruct (stack vm) as [| x l] using rev_ind; [simpl in Hr; unfold len in Hr; simpl in Hr; lia |].
    clear IHl. rewrite length_app in *. cbn [length] in *.
    replace (length l + 1 - 1)%nat with (length l) in * by lia.
    rewrite take_app_length. rewrite list_lookup_middle in Hl by reflexivity.
    inversion Hl. reflexivity.
Qed.

(** X1: [push] and [pop] are inverse on a stack whose pointer counts its
    values: after [push v], [peek] gives [v], [pop] gives [v] and the machine
    as it was before the push, and the pointer still counts the values. *)
Theorem push_then_pop_round_trip :
  forall (vm : VM) (v : Value),
    sp vm = len (stack vm) ->
    peek (push v vm) = Ok v /\
    pop (push v vm) = Ok (v, vm) /\
    sp (push v vm) = len (stack (push v vm)).
Proof.
  intros vm v Hsp.
  assert (Hpop : pop (push v vm) = Ok (v, vm)).
  { rewrite (pop_snoc (push v vm) (stack vm) v).
    - destruct vm as [cs cd i s st fr ps]. cbn in *. subst s. reflexivity.
    - reflexivity.
    - apply push_consistent. exact Hsp. }
  split; [| split; [exact Hpop | apply push_consistent; exact Hsp]].
  apply pop_Ok_inv in Hpop as [Hpeek _]. exact Hpeek.
Qed.

Lemma push_then_pop_witness :
  peek (push (VFloat 1) storing) = Ok (VFloat 1) /\
  pop (push (VFloat 1) storing) = Ok (VFloat 1, storing) /\
  sp (push (VFloat 1) storing) = len (stack (push (VFloat 1) storing)).
Proof.
  apply (push_then_pop_round_trip storing (VFloat 1)). reflexivity.
Defined.

(** X2: on a stack whose pointer counts its values, [pop] and [peek] panic
    with their messages exactly when the stack is empty; otherwise [pop]
    gives the value [peek] shows, and pushing it back restores the machine. *)
Theorem pop_undoes_a_push_or_underflows :
  forall vm : VM,
    sp vm = len (stack vm) ->
    (stack vm = [] -> pop vm = Panic (Msg "Stack underflow") /\
                      peek vm = Panic (Msg "Stack empty")) /\
    (stack vm <> [] ->
     exists v vm', pop vm = Ok (v, vm') /\ peek vm = Ok v /\ push v vm' = vm).
Proof.
  intros vm Hsp. split.
  - intros Hnil. unfold pop, peek. rewrite Hsp, Hnil. split; reflexivity.
  - intros Hne.
    destruct (stack vm) as [| x l] eqn:Hst using rev_ind; [congruence |]. clear IHl.
    exists x. eexists. rewrite (pop_snoc vm l x Hst) by (rewrite Hsp, Hst; reflexivity).
    split; [reflexivity |]. split.
    + unfold peek. rewrite Hsp, Hst, len_app.
      change (len [x]) with 1. pose proof (len_nonneg l).
      replace (len l + 1 =? 0) with false by (symmetry; apply Z.eqb_neq; lia).
      replace (len l + 1 - 1) with (len l) by lia. apply index_app_here.
    + destruct vm as [cs cd i s st fr ps]. cbn in *. subst st s.
      unfold push. cbn. rewrite len_app. reflexivity.
Qed.

Lemma pop_undoes_a_push_witness :
  (stack storing = [] -> pop storing = Panic (Msg "Stack underflow") /\
                         peek storing = Panic (Msg "Stack empty")) /\
  (stack storing <> [] ->
   exists v vm', pop storing = Ok (v, vm') /\ peek storing = Ok v /\
                 push v vm' = storing).
Proof.
  apply (pop_undoes_a_push_or_underflows storing). reflexivity.
Defined.

(** ** What a turn of the machine keeps *)

Lemma readInt_Ok_inv (vm vm' : VM) (v : Z) :
  readInt vm = Ok (v, vm') -> vm' = set_ip vm (ip vm + 4).
Proof.
  unfold readInt. intros H. apply bind_Ok_inv in H as (x & _ & H).
  inversion H. reflexivity.
Qed.

Lemma binaryFloat_frame (f : float -> float -> float) (vm vm' : VM) :
  stackConsistent vm -> binaryFloat f vm = Ok (Next vm') ->
  stackConsistent vm' /\ code vm' = code vm /\ constants vm' = constants vm /\
  callStack vm' = callStack vm /\ pools vm' = pools vm.
Proof.
  intros Hc H. unfold binaryFloat in H.
  apply bind_Ok_inv in H as ([b vm1] & Hp1 & H).
  apply bind_Ok_inv in H as (fb & _ & H).
  apply bind_Ok_inv in H as ([a vm2] & Hp2 & H).
  apply bind_Ok_inv in H as (fa & _ & H).
  inversion H; subst vm'; clear H.
  destruct (pop_consistent _ _ _ Hc Hp1) as (Hc1 & _ & E1 & E2 & _ & E3 & E4).
  destruct (pop_consistent _ _ _ Hc1 Hp2) as (Hc2 & _ & F1 & F2 & _ & F3 & F4).
  split; [apply push_consistent; exact Hc2 |].
  cbn [push code constants callStack pools]. repeat split; congruence.
Qed.

Lemma binaryAny_frame (f : Value -> Value -> bool) (vm vm' : VM) :
  stackConsistent vm -> binaryAny f vm = Ok (Next vm') ->
  stackConsistent vm' /\ code vm' = code vm /\ constants vm' = constants vm /\
  callStack vm' = callStack vm /\ pools vm' = pools vm.
Proof.
  intros Hc H. unfold binaryAny in H.
  apply bind_Ok_inv in H as ([b vm1] & Hp1 & H).
  apply bind_Ok_inv in H as ([a vm2] & Hp2 & H).
  inversion H; subst vm'; clear H.
  destruct (pop_consistent _ _ _ Hc Hp1) as (Hc1 & _ & E1 & E2 & _ & E3 & E4).
  destruct (pop_consistent _ _ _ Hc1 Hp2) as (Hc2 & _ & F1 & F2 & _ & F3 & F4).
  split; [apply push_consistent; exact Hc2 |].
  cbn [push code constants callStack pools]. repeat split; congruence.
Qed.

Lemma set_ip_consistent (vm : VM) (i : Z) :
  stackConsistent vm -> stackConsistent (set_ip vm i).
Proof. intros H. exact H. Qed.

(** X3: a turn of [Run] on any opcode but [OP_CALL] and [OP_RET] that goes
    on keeps the stack pointer equal to the length of the stack, keeps the
    code, the active pool's address and the call stack, and keeps the number
    of pools; only [OP_STORE] changes the content of a pool. *)
Theorem step_outside_calls_keeps_the_frame :
  forall loadFunction (vm vm' : VM) (op : byte),
    index (code vm) (ip vm) = Ok op ->
    op <> OP_CALL -> op <> OP_RET ->
    sp vm = len (stack vm) ->
    step loadFunction vm = Ok (Next vm') ->
    sp vm' = len (stack vm') /\
    code vm' = code vm /\ constants vm' = constants vm /\
    callStack vm' = callStack vm /\
    length (pools vm') = length (pools vm) /\
    (op <> OP_STORE -> pools vm' = pools vm).
Proof.
  intros ld vm vm' op Hop Hcall Hret Hc Hstep.
  fold (stackConsistent vm) in Hc. fold (stackConsistent vm').
  unfold step in Hstep. rewrite Hop in Hstep. cbn [bind] in Hstep.
  assert (Hc0 : stackConsistent (set_ip vm (ip vm + 1))) by exact Hc.
  set (vm0 := set_ip vm (ip vm + 1)) in *.
  assert (E0 : code vm0 = code vm /\ constants vm0 = constants vm /\
               callStack vm0 = callStack vm /\ pools vm0 = pools vm)
    by (repeat split; reflexivity).
  destruct E0 as (E1 & E2 & E3 & E4).
  assert (Hbin : forall f, binaryFloat f vm0 = Ok (Next vm') ->
                 stackConsistent vm' /\ code vm' = code vm /\
                 constants vm' = constants vm /\ callStack vm' = callStack vm /\
                 length (pools vm') = length (pools vm) /\
                 (op <> OP_STORE -> pools vm' = pools vm)).
  { intros f H. destruct (binaryFloat_frame f vm0 vm' Hc0 H) as (A1 & A2 & A3 & A4 & A5).
    repeat split; try congruence. }
  assert (Hany : forall f, binaryAny f vm0 = Ok (Next vm') ->
                 stackConsistent vm' /\ code vm' = code vm /\
                 constants vm' = constants vm /\ callStack vm' = callStack vm /\
                 length (pools vm') = length (pools vm) /\
                 (op <> OP_STORE -> pools vm' = pools vm)).
  { intros f H. destruct (binaryAny_frame f vm0 vm' Hc0 H) as (A1 & A2 & A3 & A4 & A5).
    repeat split; try congruence. }
  destruct op; try discriminate Hstep; try (exfalso; apply Hcall; reflexivity);
    try (exfalso; apply Hret; reflexivity);
    try (eapply Hbin; exact Hstep); try (eapply Hany; exact Hstep).
  - (* OP_CONST *)
    apply bind_Ok_inv in Hstep as ([idx vm1] & Hr & Hstep).
    apply readInt_Ok_inv in Hr. subst vm1.
    apply bind_Ok_inv in Hstep as (v & _ & Hstep).
    inversion Hstep; subst vm'.
    split; [apply push_consistent; exact Hc0 |]. repeat split; reflexivity.
  - (* OP_NOT *)
    apply bind_Ok_inv in Hstep as ([a vm1] & Hp & Hstep).
    apply bind_Ok_inv in Hstep as (fa & _ & Hstep).
    inversion Hstep; subst vm'.
    destruct (pop_consistent _ _ _ Hc0 Hp) as (Hc1 & _ & F1 & F2 & _ & F3 & F4).
    split; [apply push_consistent; exact Hc1 |].
    cbn [push code constants callStack pools]. repeat split; congruence.
  - (* OP_LOAD *)
    apply bind_Ok_inv in Hstep as ([idx vm1] & Hr & Hstep).
    apply readInt_Ok_inv in Hr. subst vm1.
    apply bind_Ok_inv in Hstep as (v & _ & Hstep).
    inversion Hstep; subst vm'.
    split; [apply push_consistent; exact Hc0 |]. repeat split; reflexivity.
  - (* OP_STORE *)
    apply bind_Ok_inv in Hstep as ([idx vm1] & Hr & Hstep).
    apply readInt_Ok_inv in Hr. subst vm1.
    apply bind_Ok_inv in Hstep as ([val vm2] & Hp & Hstep).
    apply bind_Ok_inv in Hstep as (old & _ & Hstep).
    inversion Hstep; subst vm'.
    destruct (pop_consistent _ _ _ (set_ip_consistent vm0 _ Hc0) Hp)
      as (Hc1 & _ & F1 & F2 & _ & F3 & F4).
    split; [exact Hc1 |].
    cbn [code constants callStack pools]. rewrite length_insert.
    cbn [set_ip code constants callStack pools] in *.
    repeat split; try congruence. intros Hne. exfalso. apply Hne. reflexivity.
  - (* OP_JMP *)
    apply bind_Ok_inv in Hstep as ([target vm1] & Hr & Hstep).
    apply readInt_Ok_inv in Hr. subst vm1.
    inversion Hstep; subst vm'.
    split; [exact Hc0 |]. repeat split; reflexivity.
  - (* OP_JMPF *)
    apply bind_Ok_inv in Hstep as ([target vm1] & Hr & Hstep).
    apply readInt_Ok_inv in Hr. subst vm1.
    apply bind_Ok_inv in Hstep as ([cond vm2] & Hp & Hstep).
    apply bind_Ok_inv in Hstep as (fc & _ & Hstep).
    destruct (pop_consistent _ _ _ (set_ip_consistent vm0 _ Hc0) Hp)
      as (Hc1 & _ & F1 & F2 & _ & F3 & F4).
    cbn [set_ip code constants callStack pools] in *.
    destruct (PrimFloat.eqb fc 0); inversion Hstep; subst vm';
      (split; [exact Hc1 |]);
      cbn [set_ip code constants callStack pools]; repeat split; congruence.
  - (* OP_POP *)
    apply bind_Ok_inv in Hstep as ([v vm1] & Hp & Hstep).
    inversion Hstep; subst vm'.
    destruct (pop_consistent _ _ _ Hc0 Hp) as (Hc1 & _ & F1 & F2 & _ & F3 & F4).
    split; [exact Hc1 |]. repeat split; congruence.
Qed.

(** ** Panics of a turn *)

Lemma step_witness_frame :
  sp stored = len (stack stored) /\
  code stored = code storing /\ constants stored = constants storing /\
  callStack stored = callStack storing /\
  length (pools stored) = length (pools storing) /\
  (OP_STORE <> OP_STORE -> pools stored = pools storing).
Proof.
  apply (step_outside_calls_keeps_the_frame unknownFunction storing stored OP_STORE).
  - reflexivity.
  - discriminate.
  - discriminate.
  - reflexivity.
  - reflexivity.
Defined.

(** X4: the opcodes are 1 to 23.  On the byte 0 and on every byte above 23
    a turn of [Run] panics with "Unknown opcode: " and the byte as two
    upper-case hexadecimal digits, whatever the state of the machine. *)
Theorem unknown_opcode_panics :
  forall loadFunction (vm : VM) (op : byte),
    index (code vm) (ip vm) = Ok op ->
    b2z op = 0 \/ 23 < b2z op ->
    step loadFunction vm = Panic (Msg ("Unknown opcode: " ++ hex2 op)).
Proof.
  intros ld vm op Hop Hrange. unfold step. rewrite Hop. cbn [bind].
  destruct op; try reflexivity; exfalso; vm_compute in Hrange;
    destruct Hrange as [H | H]; discriminate H.
Qed.

Lemma unknown_opcode_witness :
  step unknownFunction (machine [] [xff]) = Panic (Msg "Unknown opcode: FF").
Proof.
  apply (unknown_opcode_panics unknownFunction (machine [] [xff]) xff).
  - reflexivity.
  - right. reflexivity.
Defined.

(** X5: the arithmetic, ordering and logical opcodes assert that both
    operands are numbers: with two operands on the stack one of which is no
    [float64], the turn stops on the failed type assertion. *)
Theorem number_opcode_on_other_kind_panics :
  forall loadFunction (vm : VM) (op : byte) (st : list Value) (a b : Value),
    index (code vm) (ip vm) = Ok op ->
    takesTwoNumbers op = true ->
    stack vm = st ++ [a; b] -> sp vm = len (stack vm) ->
    isFloat a && isFloat b = false ->
    step loadFunction vm = Panic InterfaceConversion.
Proof.
  intros ld vm op st a b Hop Htwo Hst Hsp Hkind.
  unfold step. rewrite Hop. cbn [bind].
  assert (Hbin : forall f, binaryFloat f (set_ip vm (ip vm + 1)) = Panic InterfaceConversion).
  { intros f. unfold binaryFloat.
    rewrite (pop_snoc _ (st ++ [a]) b);
      [| cbn [set_ip stack]; rewrite Hst, <- app_assoc; reflexivity | exact Hsp].
    cbn [bind]. destruct b as [fb | sb | zb]; cbn [asFloat bind]; try reflexivity.
    rewrite (pop_snoc _ st a); [| reflexivity | reflexivity].
    cbn [bind]. destruct a as [fa | sa | za]; cbn [asFloat bind]; try reflexivity.
    discriminate Hkind. }
  destruct op; try discriminate Htwo; apply Hbin.
Qed.

Lemma number_opcode_witness :
  step unknownFunction
    (mkVM 0 [x02] 0 2 [VString "a"; VFloat 1] [] [[]]) = Panic InterfaceConversion.
Proof.
  apply (number_opcode_on_other_kind_panics unknownFunction
           (mkVM 0 [x02] 0 2 [VString "a"; VFloat 1] [] [[]]) x02 []
           (VString "a") (VFloat 1)); reflexivity.
Defined.

(** X6: every opcode that starts by popping (the binary operators,
    [OP_NOT], [OP_RET], [OP_POP]) panics with "Stack underflow" when the stack
    pointer is 0, also inside a function and also with values left in the
    stack slice. *)
Theorem popping_an_empty_stack_underflows :
  forall loadFunction (vm : VM) (op : byte),
    index (code vm) (ip vm) = Ok op ->
    popsFirst op = true ->
    sp vm = 0 ->
    step loadFunction vm = Panic (Msg "Stack underflow").
Proof.
  intros ld vm op Hop Hpops Hsp.
  unfold step. rewrite Hop. cbn [bind].
  assert (Hpop : pop (set_ip vm (ip vm + 1)) = Panic (Msg "Stack underflow")).
  { unfold pop. cbn [set_ip sp]. rewrite Hsp. reflexivity. }
  destruct op; try discriminate Hpops;
    unfold binaryFloat, binaryAny, returnFromFunction; rewrite ?Hpop; cbn [bind];
    try reflexivity.
  destruct (len (callStack (set_ip vm (ip vm + 1))) =? 0); reflexivity.
Qed.

Lemma popping_an_empty_stack_witness :
  step unknownFunction (machine [] [x16]) = Panic (Msg "Stack underflow").
Proof.
  apply (popping_an_empty_stack_underflows unknownFunction (machine [] [x16]) x16);
    reflexivity.
Defined.

(** ** Calls, returns and immediates *)

Lemma pushArgs_frame (n : nat) :
  forall (i base : Z) (vm vm' : VM),
    pushArgs n i base vm = Ok vm' ->
    callStack vm' = callStack vm /\ code vm' = code vm /\
    constants vm' = constants vm /\ ip vm' = ip vm /\ pools vm' = pools vm /\
    sp vm' = sp vm + Z.of_nat n.
Proof.
  induction n as [| n IH]; intros i base vm vm' H; cbn [pushArgs] in H.
  - inversion H. repeat split; lia.
  - apply bind_Ok_inv in H as (v & _ & H).
    apply IH in H as (H1 & H2 & H3 & H4 & H5 & H6).
    cbn [push callStack code constants ip pools sp] in *.
    repeat split; try assumption. lia.
Qed.

Lemma callFunction_frame loadFunction (fnID argCount : Z) (vm vm1 : VM) :
  callFunction loadFunction fnID argCount vm = Ok vm1 ->
  callStack vm1 =
    callStack vm ++ [Frame.mk (ip vm) (sp vm - argCount) (code vm) (constants vm)] /\
  ip vm1 = 0 /\ sp vm1 = Z.of_nat (Z.to_nat argCount).
Proof.
  unfold callFunction. intros H.
  apply bind_Ok_inv in H as ([[fnCode fnConsts] pools'] & _ & H).
  apply pushArgs_frame in H as (H1 & _ & _ & H4 & _ & H6).
  cbn [callStack ip sp] in *. repeat split; try assumption; lia.
Qed.

(** X7: a return that finds the call stack as [callFunction] left it gives
    the caller back its code, its pool, its call stack and the instruction
    pointer after the call, and leaves the stack pointer at the caller's
    minus the arguments plus one, for the returned value. *)
Theorem return_restores_the_callers_context :
  forall loadFunction (fnID argCount : Z) (vm vm1 vm2 vm3 : VM),
    callFunction loadFunction fnID argCount vm = Ok vm1 ->
    callStack vm2 = callStack vm1 ->
    returnFromFunction vm2 = Ok vm3 ->
    ip vm3 = ip vm /\ code vm3 = code vm /\ constants vm3 = constants vm /\
    callStack vm3 = callStack vm /\ sp vm3 = sp vm - argCount + 1 /\
    pools vm3 = pools vm2.
Proof.
  intros ld fnID argCount vm vm1 vm2 vm3 Hcall Hcs Hret.
  apply callFunction_frame in Hcall as (Hframes & _ & _).
  rewrite Hframes in Hcs.
  unfold returnFromFunction in Hret.
  apply bind_Ok_inv in Hret as ([ret vmp] & Hpop & Hret).
  apply pop_Ok_inv in Hpop as [_ ->].
  cbn [callStack stack pools] in Hret. rewrite Hcs in Hret.
  set (fr := Frame.mk (ip vm) (sp vm - argCount) (code vm) (constants vm)) in *.
  replace (len (callStack vm ++ [fr]) - 1) with (len (callStack vm)) in Hret
    by (rewrite len_app; change (len [fr]) with 1; lia).
  rewrite index_app_here in Hret. cbn [bind] in Hret.
  inversion Hret; subst vm3; clear Hret.
  cbn [push ip code constants callStack sp pools Frame.ipBackup Frame.spBackup
         Frame.code Frame.consts].
  rewrite Z_to_nat_len, take_app_length. repeat split.
Qed.

Lemma return_restores_witness :
  ip (mkVM 0 (code calling) 5 3 [VFloat 10] [] [[]; [VFloat 99]]) = ip calling /\
  code (mkVM 0 (code calling) 5 3 [VFloat 10] [] [[]; [VFloat 99]]) = code calling /\
  constants (mkVM 0 (code calling) 5 3 [VFloat 10] [] [[]; [VFloat 99]])
    = constants calling /\
  callStack (mkVM 0 (code calling) 5 3 [VFloat 10] [] [[]; [VFloat 99]])
    = callStack calling /\
  sp (mkVM 0 (code calling) 5 3 [VFloat 10] [] [[]; [VFloat 99]]) = sp calling - 1 + 1 /\
  pools (mkVM 0 (code calling) 5 3 [VFloat 10] [] [[]; [VFloat 99]]) =
    [[]; [VFloat 99]].
Proof.
  apply (return_restores_the_callers_context return99 0 1 calling
           (mkVM 1 [x01; x00; x00; x00; x00; x13] 0 1
                 [VFloat 10; VFloat 20; VFloat 30; VFloat 30]
                 [Frame.mk 5 2 (code calling) 0] [[]; [VFloat 99]])
           (mkVM 1 [x01; x00; x00; x00; x00; x13] 0 1
                 [VFloat 10; VFloat 20; VFloat 30; VFloat 30]
                 [Frame.mk 5 2 (code calling) 0] [[]; [VFloat 99]])).
  - reflexivity.
  - reflexivity.
  - reflexivity.
Defined.

(** X8: [readInt] decodes what [emitInt] encodes.  At the offset where
    [emitInt c v] wrote, [readInt] reads [v] reduced modulo 2^32 (the
    conversion [uint32(v)] of the emitter) and moves four bytes on. *)
Theorem readInt_reads_what_emitInt_wrote :
  forall (c : Chunk) (v : Z) (rest : list byte) (vm : VM),
    code vm = Code (emitInt c v) ++ rest ->
    ip vm = len (Code c) ->
    readInt vm = Ok (v mod 2 ^ 32, set_ip vm (len (Code c) + 4)).
Proof.
  intros c v rest vm Hcode Hip. unfold readInt.
  rewrite Hcode, Hip. cbn [emitInt Code].
  assert (H : Uint32At ((Code c ++ le_encode 4 v) ++ rest) (len (Code c))
              = Ok (v mod 2 ^ 32)).
  { rewrite <- app_assoc. unfold Uint32At.
    rewrite in_range_true by (rewrite len_app; pose proof (len_nonneg (Code c));
                              pose proof (len_nonneg (le_encode 4 v ++ rest)); lia).
    rewrite Z_to_nat_len, drop_app_length. cbn [le_encode app].
    change [z2b v; z2b (v / 256); z2b (v / 256 / 256); z2b (v / 256 / 256 / 256)]
      with (le_encode 4 v).
    rewrite le_decode_encode. reflexivity. }
  rewrite H. reflexivity.
Qed.

Lemma readInt_emitInt_witness :
  readInt (mkVM 0 [x14; x2c; x01; x00; x00; x13] 1 0 [] [] [[]]) =
  Ok (300 mod 2 ^ 32, set_ip (mkVM 0 [x14; x2c; x01; x00; x00; x13] 1 0 [] [] [[]])
                             (len (Code (mkChunk [x14] [] [])) + 4)).
Proof.
  apply (readInt_reads_what_emitInt_wrote (mkChunk [x14] [] []) 300 [x13]
           (mkVM 0 [x14; x2c; x01; x00; x00; x13] 1 0 [] [] [[]])).
  - reflexivity.
  - reflexivity.
Defined.

(** ** The header check, trailing bytes, patches *)

Lemma slice_head3 (b0 b1 b2 v : byte) (rest slack : list byte) :
  slice (b0 :: b1 :: b2 :: v :: rest) slack 0 3 = Ok [b0; b1; b2].
Proof.
  unfold slice.
  replace ((0 <=? 0) && (0 <=? 3) &&
           (3 <=? len (b0 :: b1 :: b2 :: v :: rest) + len slack)) with true.
  - reflexivity.
  - symmetry. rewrite !len_cons.
    pose proof (len_nonneg rest). pose proof (len_nonneg slack).
    repeat (apply andb_true_iff; split); apply Z.leb_le; lia.
Qed.

Lemma magic_eqb (l : list byte) :
  String.eqb (string_of_list_byte l) "KBC" = true <-> l = magic.
Proof.
  rewrite String.eqb_eq. split.
  - intros H. rewrite <- (list_byte_of_string_of_list_byte l), H. reflexivity.
  - intros ->. reflexivity.
Qed.

(** X9: [loadModule] rejects a buffer of four bytes or more whose first
    three are not "KBC" with "Invalid bytecode header", and one with the
    magic and a version byte other than 2 with "Unsupported KBC version: "
    and the byte in decimal; so it rejects what the bootstrap [Emit] makes. *)
Theorem loadModule_checks_magic_then_version :
  forall (vm : VM) (b0 b1 b2 v : byte) (rest slack : list byte),
    ([b0; b1; b2] <> magic ->
     loadModule vm (b0 :: b1 :: b2 :: v :: rest) slack
     = Panic (Msg "Invalid bytecode header")) /\
    ([b0; b1; b2] = magic -> v <> x02 ->
     loadModule vm (b0 :: b1 :: b2 :: v :: rest) slack
     = Panic (Msg ("Unsupported KBC version: " ++ decimal v))).
Proof.
  intros vm b0 b1 b2 v rest slack.
  unfold loadModule, scanModule. rewrite slice_head3. cbn [bind].
  split.
  - intros Hne.
    destruct (String.eqb (string_of_list_byte [b0; b1; b2]) "KBC") eqn:E;
      [apply magic_eqb in E; contradiction | reflexivity].
  - intros Heq Hv.
    destruct (String.eqb (string_of_list_byte [b0; b1; b2]) "KBC") eqn:E.
    2:{ apply magic_eqb in Heq. congruence. }
    cbn [negb].
    replace (index (b0 :: b1 :: b2 :: v :: rest) 3) with (Ok v).
    2:{ symmetry. apply (index_at _ [b0; b1; b2] rest); reflexivity. }
    cbn [bind].
    destruct v; try reflexivity. contradiction Hv. reflexivity.
Qed.

Lemma loadModule_header_witness :
  ([x4b; x42; x43] <> magic ->
   loadModule (machine [] []) (EmitBootstrap tt) [] = Panic (Msg "Invalid bytecode header")) /\
  ([x4b; x42; x43] = magic -> x01 <> x02 ->
   loadModule (machine [] []) (EmitBootstrap tt) []
   = Panic (Msg ("Unsupported KBC version: " ++ decimal x01))).
Proof.
  apply (loadModule_checks_magic_then_version (machine [] []) x4b x42 x43 x01 [] []).
Defined.

(** *** The loader on a buffer with bytes appended

    [buf] without spare capacity against [buf ++ ext] with the spare capacity
    [slack]: a read that stays inside [buf] reads the same bytes. *)
Section Appended.

Variables buf ext slack : list byte.

Lemma slice_appended (lo hi : Z) :
  cut_short (slice buf [] lo hi) (slice (buf ++ ext) slack lo hi).
Proof.
  unfold slice. change (len (@nil byte)) with 0. rewrite Z.add_0_r, app_nil_r.
  destruct ((0 <=? lo) && (lo <=? hi) && (hi <=? len buf)) eqn:E;
    [| apply cut_short_bounds; reflexivity].
  apply andb_true_iff in E as [E E3]. apply andb_true_iff in E as [E1 E2].
  apply Z.leb_le in E1, E2, E3.
  replace ((0 <=? lo) && (lo <=? hi) && (hi <=? len (buf ++ ext) + len slack))
    with true.
  2:{ symmetry. rewrite len_app.
      pose proof (len_nonneg ext). pose proof (len_nonneg slack).
      repeat (apply andb_true_iff; split); apply Z.leb_le; lia. }
  right. f_equal.
  rewrite <- app_assoc, drop_app_le by (unfold len in E3; lia).
  rewrite take_app_le; [reflexivity |].
  rewrite length_drop. unfold len in E3. lia.
Qed.

Lemma readConstants_appended (n : nat) :
  forall off,
    cut_short (readConstants n buf [] off) (readConstants n (buf ++ ext) slack off).
Proof.
  induction n as [| n IH]; intros off; cbn [readConstants].
  - apply cut_short_refl.
  - apply cut_short_bind; [apply index_prefix |]. intros kind.
    apply cut_short_bind.
    + destruct kind; try apply cut_short_refl.
      * apply cut_short_bind; [apply Uint32At_prefix |]. intros l.
        apply cut_short_bind; [apply slice_appended |]. intros. apply cut_short_refl.
      * apply cut_short_bind; [apply Uint64At_prefix |]. intros. apply cut_short_refl.
      * apply cut_short_bind; [apply Uint32At_prefix |]. intros. apply cut_short_refl.
    + intros [v off']. apply cut_short_bind; [apply IH |].
      intros [rest off'']. apply cut_short_refl.
Qed.

Lemma scanModule_appended :
  cut_short (scanModule buf []) (scanModule (buf ++ ext) slack).
Proof.
  unfold scanModule.
  apply cut_short_bind; [apply slice_appended |]. intros magic.
  destruct (negb (String.eqb (string_of_list_byte magic) "KBC"));
    [apply cut_short_refl |].
  apply cut_short_bind; [apply index_prefix |]. intros version.
  destruct (negb (b2z version =? 2)); [apply cut_short_refl |].
  apply cut_short_bind; [apply Uint32At_prefix |]. intros fnCount.
  apply cut_short_bind; [apply skipFunctions_prefix |]. intros off.
  apply cut_short_bind; [apply Uint32At_prefix |]. intros cCount.
  apply cut_short_bind; [apply readConstants_appended |]. intros [consts off'].
  apply cut_short_bind; [apply Uint32At_prefix |]. intros codeLen.
  apply cut_short_bind; [apply slice_appended |]. intros. apply cut_short_refl.
Qed.

End Appended.

(** X10: [loadModule] never checks that the main chunk ends the buffer.  A
    module that loads from the bytes inside its length, that is, loads as a
    buffer without spare capacity, still loads, to the same machine, with any
    bytes appended to it, whatever the spare capacity of the longer buffer. *)
Theorem loadModule_ignores_trailing_bytes :
  forall (vm vm' : VM) (code extra slack : list byte),
    loadModule vm code [] = Ok vm' ->
    loadModule vm (code ++ extra) slack = Ok vm'.
Proof.
  intros vm vm' code extra slack H. unfold loadModule in *.
  destruct (scanModule_appended code extra slack) as [(p & Hp & _) | Hsame].
  - rewrite Hp in H. discriminate.
  - rewrite <- Hsame. exact H.
Qed.

Lemma loadModule_trailing_witness :
  loadModule (machine [] []) (stringBytes ++ [xff; xff]) [x00] =
  Ok (mkVM 1 [x01; x00; x00; x00; x00; x13; x13] 0 0 [] [] [[]; [VString "abcdefgh"]]).
Proof.
  apply (loadModule_ignores_trailing_bytes (machine [] [])). reflexivity.
Defined.

(** A buffer that loads only through its spare capacity is another matter:
    the bytes appended take the place of the bytes that were read there.  The
    module of [return "abcdefgh"] without the last byte of its main code loads
    with the byte [x00] of its spare capacity, and loads other code when that
    place is taken by an appended [xff]. *)
Lemma loadModule_reads_the_spare_capacity :
  (exists p, New (take 35 stringBytes) [] = Panic p /\ is_bounds_panic p = true) /\
  New (take 35 stringBytes) [x00] =
    Ok (mkVM 0 [x01; x00; x00; x00; x00; x13; x00] 0 0 [] []
             [[VString "abcdefgh"]]) /\
  New (take 35 stringBytes ++ [xff]) [] =
    Ok (mkVM 0 [x01; x00; x00; x00; x00; x13; xff] 0 0 [] []
             [[VString "abcdefgh"]]).
Proof.
  split; [eexists; split; [vm_compute; reflexivity | reflexivity] |].
  split; vm_compute; reflexivity.
Qed.

(** X11: [patchJump] at an offset with four bytes inside the code, the code
    shorter than 2^32, writes there the length of the code, which reads back
    as that, and changes nothing else: the length, the bytes before and after,
    the constants and the names stay. *)
Theorem patchJump_writes_the_end_offset :
  forall (c : Chunk) (pos : Z),
    0 <= pos -> pos + 4 <= len (Code c) -> len (Code c) < 2 ^ 32 ->
    exists c',
      patchJump c pos = Ok c' /\
      len (Code c') = len (Code c) /\
      Uint32At (Code c') pos = Ok (len (Code c)) /\
      take (Z.to_nat pos) (Code c') = take (Z.to_nat pos) (Code c) /\
      drop (Z.to_nat (pos + 4)) (Code c') = drop (Z.to_nat (pos + 4)) (Code c) /\
      Constants c' = Constants c /\ Names c' = Names c.
Proof.
  intros c pos Hpos Hlen Hsmall. unfold patchJump.
  replace ((0 <=? pos) && (pos + 4 <=? len (Code c))) with true
    by (symmetry; apply andb_true_iff; split; apply Z.leb_le; lia).
  eexists. split; [reflexivity |]. cbn [Code Constants Names].
  set (code := Code c) in *.
  assert (Ht : length (take (Z.to_nat pos) code) = Z.to_nat pos)
    by (rewrite length_take; unfold len in Hlen; lia).
  assert (Hlt : len (take (Z.to_nat pos) code) = pos) by (unfold len; lia).
  repeat split.
  - rewrite !len_app, len_le_encode, Hlt. unfold len. rewrite length_drop.
    unfold len in Hlen. lia.
  - apply (Uint32At_at _ (take (Z.to_nat pos) code) (drop (Z.to_nat (pos + 4)) code));
      [reflexivity | lia | pose proof (len_nonneg code); lia].
  - rewrite take_app_length'; [reflexivity | symmetry; exact Ht].
  - rewrite app_assoc, drop_app_length'; [reflexivity |].
    rewrite length_app, length_le_encode, Ht. lia.
Qed.

Lemma patchJump_witness :
  exists c',
    patchJump (mkChunk [x15; x00; x00; x00; x00; x16] [] []) 1 = Ok c' /\
    len (Code c') = len (Code (mkChunk [x15; x00; x00; x00; x00; x16] [] [])) /\
    Uint32At (Code c') 1 = Ok (len (Code (mkChunk [x15; x00; x00; x00; x00; x16] [] []))) /\
    take (Z.to_nat 1) (Code c') =
      take (Z.to_nat 1) (Code (mkChunk [x15; x00; x00; x00; x00; x16] [] [])) /\
    drop (Z.to_nat (1 + 4)) (Code c') =
      drop (Z.to_nat (1 + 4)) (Code (mkChunk [x15; x00; x00; x00; x00; x16] [] [])) /\
    Constants c' = Constants (mkChunk [x15; x00; x00; x00; x00; x16] [] []) /\
    Names c' = Names (mkChunk [x15; x00; x00; x00; x00; x16] [] []).
Proof.
  apply (patchJump_writes_the_end_offset (mkChunk [x15; x00; x00; x00; x00; x16] [] []) 1).
  - lia.
  - vm_compute. discriminate.
  - reflexivity.
Defined.

(** X12: [emitExpr] only appends: to the code, to the constants.  The
    names stay, and every constant of the chunk keeps its slot, so the slots
    emitted earlier still address the same constants. *)
Theorem emitExpr_only_appends :
  forall (e : Expr) (c c' : Chunk),
    emitExpr c e = Ok c' ->
    (exists bs, Code c' = Code c ++ bs) /\
    (exists vs, Constants c' = Constants c ++ vs) /\
    Names c' = Names c /\
    (forall (i : nat) (v : Value),
        Constants c !! i = Some v -> Constants c' !! i = Some v).
Proof.
  intros e c c' H. apply emitExpr_extends in H as (Hc & [vs Hv] & Hn).
  repeat split; try assumption.
  - exists vs. exact Hv.
  - intros i v Hi. rewrite Hv. apply lookup_app_l_Some. exact Hi.
Qed.

Lemma emitExpr_only_appends_witness :
  (exists bs, Code (mkChunk [x16; x10; x01; x00; x00; x00] [VFloat 1; VString "x"] [])
              = Code (mkChunk [x16] [VFloat 1] []) ++ bs) /\
  (exists vs, Constants (mkChunk [x16; x10; x01; x00; x00; x00] [VFloat 1; VString "x"] [])
              = Constants (mkChunk [x16] [VFloat 1] []) ++ vs) /\
  Names (mkChunk [x16; x10; x01; x00; x00; x00] [VFloat 1; VString "x"] [])
  = Names (mkChunk [x16] [VFloat 1] []) /\
  (forall (i : nat) (v : Value),
      Constants (mkChunk [x16] [VFloat 1] []) !! i = Some v ->
      Constants (mkChunk [x16; x10; x01; x00; x00; x00] [VFloat 1; VString "x"] []) !! i
      = Some v).
Proof.
  apply (emitExpr_only_appends (IdentExpr "x") (mkChunk [x16] [VFloat 1] [])).
  reflexivity.
Defined.

(** ** Emission appends *)

Lemma grows_refl c : grows c c.
Proof. split; exists []; rewrite app_nil_r; reflexivity. Qed.

Lemma grows_trans c1 c2 c3 : grows c1 c2 -> grows c2 c3 -> grows c1 c3.
Proof.
  intros ([b1 H1] & [v1 G1]) ([b2 H2] & [v2 G2]). split.
  - exists (b1 ++ b2). rewrite H2, H1, app_assoc. reflexivity.
  - exists (v1 ++ v2). rewrite G2, G1, app_assoc. reflexivity.
Qed.

Lemma grows_len c c' : grows c c' -> len (Code c) <= len (Code c').
Proof.
  intros ([bs H] & _). rewrite H, len_app. pose proof (len_nonneg bs). lia.
Qed.

Lemma grows_emit c b : grows c (emit c b).
Proof. split; [exists [b] | exists []; rewrite app_nil_r]; reflexivity. Qed.

Lemma grows_emitInt c v : grows c (emitInt c v).
Proof. split; [exists (le_encode 4 v) | exists []; rewrite app_nil_r]; reflexivity. Qed.

Lemma grows_addConst c v : grows c (snd (addConst c v)).
Proof. split; [exists []; rewrite app_nil_r | exists [v]]; reflexivity. Qed.

Lemma extends_grows c c' : extends c c' -> grows c c'.
Proof. intros (H1 & H2 & _). split; assumption. Qed.

Lemma fine_bind (c c1 : Chunk) (r : result Chunk) (k : Chunk -> result Chunk) :
  grows c c1 -> fine c1 r ->
  (forall c2, grows c1 c2 -> fine c (k c2)) ->
  fine c (bind r k).
Proof.
  intros Hg Hr Hk. destruct r as [c2 | p]; cbn [bind fine] in *.
  - apply Hk. exact Hr.
  - exact Hr.
Qed.

Lemma fine_Ok (c c' : Chunk) : grows c c' -> fine c (Ok c').
Proof. intros H. exact H. Qed.

Lemma emitBinaryOp_fine c op : fine c (emitBinaryOp c op).
Proof.
  unfold emitBinaryOp.
  repeat (match goal with
          | |- context [if ?b then _ else _] => destruct b
          end; [apply grows_emit |]).
  reflexivity.
Qed.

Lemma emitAll_fine {A : Type} (f : Chunk -> A -> result Chunk) (xs : list A) :
  Forall (fun x => forall c, fine c (f c x)) xs ->
  forall c, fine c (emitAll f c xs).
Proof.
  induction 1 as [| x xs Hx _ IH]; intros c; cbn [emitAll].
  - apply grows_refl.
  - apply (fine_bind c c); [apply grows_refl | apply Hx |].
    intros c2 Hg. specialize (IH c2).
    destruct (emitAll f c2 xs); cbn [fine] in *; eauto using grows_trans.
Qed.

Ltac grow_chain :=
  repeat first
    [ assumption
    | apply grows_refl
    | (eapply grows_trans; [| apply grows_emit])
    | (eapply grows_trans; [| apply grows_emitInt])
    | (eapply grows_trans; [| apply (grows_addConst _ _)]) ].

Lemma emitExpr_fine (e : Expr) : forall c, fine c (emitExpr c e).
Proof.
  induction e as [v | v | v | n | n e IHe | op e IHe | l op r IHl IHr
                 | callee args IHc IHargs | o n IHo | e IHe]
    using Expr_nested_ind; intros c; cbn [emitExpr].
  - apply fine_Ok. apply extends_grows. ext_chain.
  - apply fine_Ok. apply extends_grows. ext_chain.
  - apply fine_Ok. apply extends_grows. ext_chain.
  - apply fine_Ok. apply extends_grows. ext_chain.
  - apply (fine_bind c c); [apply grows_refl | apply IHe |].
    intros c2 Hg. apply fine_Ok.
    eapply grows_trans; [exact Hg |]. apply extends_grows. ext_chain.
  - apply (fine_bind c c); [apply grows_refl | apply IHe |].
    intros c2 Hg. destruct (String.eqb op "-").
    + apply fine_Ok. eapply grows_trans; [exact Hg |]. apply extends_grows. ext_chain.
    + destruct (String.eqb op "!"); [| reflexivity].
      apply fine_Ok. eapply grows_trans; [exact Hg |]. apply grows_emit.
  - apply (fine_bind c c); [apply grows_refl | apply IHl |].
    intros c2 Hg. apply (fine_bind c c2); [exact Hg | apply IHr |].
    intros c3 Hg3. pose proof (emitBinaryOp_fine c3 op) as Hop.
    destruct (emitBinaryOp c3 op); cbn [fine] in *; eauto using grows_trans.
  - apply (fine_bind c c); [apply grows_refl | apply (emitAll_fine _ _ IHargs) |].
    intros c2 Hg. apply fine_Ok.
    eapply grows_trans; [exact Hg |]. apply extends_grows. ext_chain.
  - reflexivity.
  - apply IHe.
Qed.

(** A patch at an offset inside the code emitted since [c0] keeps what was
    emitted up to [c0]. *)
Lemma patchJump_fine (c0 c : Chunk) (pos : Z) :
  grows c0 c -> len (Code c0) <= pos -> pos + 4 <= len (Code c) ->
  exists c', patchJump c pos = Ok c' /\ grows c0 c' /\
             len (Code c') = len (Code c) /\ Constants c' = Constants c.
Proof.
  intros ([bs Hb] & [vs Hv]) Hlo Hhi. unfold patchJump.
  pose proof (len_nonneg (Code c0)) as H0.
  replace ((0 <=? pos) && (pos + 4 <=? len (Code c))) with true
    by (symmetry; apply andb_true_iff; split; apply Z.leb_le; lia).
  eexists. split; [reflexivity |]. cbn [Code Constants].
  assert (Ht : length (take (Z.to_nat pos) (Code c)) = Z.to_nat pos)
    by (rewrite length_take; unfold len in Hhi; lia).
  repeat split.
  - exists (take (Z.to_nat pos - length (Code c0)) bs ++ le_encode 4 (len (Code c)) ++
            drop (Z.to_nat (pos + 4)) (Code c)).
    rewrite Hb at 1. rewrite take_app_ge by (unfold len in Hlo; lia).
    rewrite <- app_assoc. reflexivity.
  - exists vs. exact Hv.
  - rewrite !len_app, len_le_encode. unfold len. rewrite Ht, length_drop.
    unfold len in Hhi. lia.
Qed.

Lemma len_emit c b : len (Code (emit c b)) = len (Code c) + 1.
Proof. cbn [emit Code]. rewrite len_app. reflexivity. Qed.

Lemma len_emitInt c v : len (Code (emitInt c v)) = len (Code c) + 4.
Proof. cbn [emitInt Code]. rewrite len_app, len_le_encode. reflexivity. Qed.

Section StatementEmission.

Variable FuncDecl : Type.
Variable emitFunctionDef emitFunctionExpr emitFunctionOneLiner
  : Chunk -> FuncDecl -> result Chunk.

(** What is assumed of the function-compilation path: it appends to the
    chunk it is given, and stops with no bounds panic. *)
Hypothesis emitFunctionDef_fine : forall c d, fine c (emitFunctionDef c d).
Hypothesis emitFunctionExpr_fine : forall c d, fine c (emitFunctionExpr c d).
Hypothesis emitFunctionOneLiner_fine : forall c d, fine c (emitFunctionOneLiner c d).

Abbreviation emitStmt' :=
  (emitStmt FuncDecl emitFunctionDef emitFunctionExpr emitFunctionOneLiner).

(** The jump patch that closes a construct: [pos] is the offset of four
    bytes emitted since [c]. *)
Lemma patch_fine (c c1 c2 : Chunk) (pos : Z) :
  grows c c1 -> grows c1 c2 ->
  len (Code c) <= pos -> pos + 4 <= len (Code c1) ->
  fine c (patchJump c2 pos).
Proof.
  intros G1 G2 Hlo Hhi.
  destruct (patchJump_fine c c2 pos) as (c' & -> & Hg & _);
    [eauto using grows_trans | exact Hlo | pose proof (grows_len _ _ G2); lia |].
  exact Hg.
Qed.

Lemma emitStmt_fine :
  forall (s : Stmt FuncDecl) (c : Chunk), fine c (emitStmt' c s).
Proof.
  induction s as [e | n e | e | | | cond thn els IHthn IHels | cond body IHbody
                 | v limit body IHbody | d | d | d]
    using Stmt_nested_ind; intros c; cbn [emitStmt].
  - apply (fine_bind c c); [apply grows_refl | apply emitExpr_fine |].
    intros c1 G. apply fine_Ok. eapply grows_trans; [exact G | apply grows_emit].
  - apply (fine_bind c c); [apply grows_refl | apply emitExpr_fine |].
    intros c1 G. apply fine_Ok. eapply grows_trans; [exact G |].
    apply extends_grows. ext_chain.
  - apply (fine_bind c c); [apply grows_refl | apply emitExpr_fine |].
    intros c1 G. apply fine_Ok. eapply grows_trans; [exact G | apply grows_emit].
  - apply grows_emit.
  - apply grows_refl.
  - (* IfStmt *)
    apply (fine_bind c c); [apply grows_refl | apply emitExpr_fine |].
    intros c1 G1.
    set (c2 := emit c1 OP_JMPF). set (c3 := emitInt c2 0).
    assert (G3 : grows c c3) by (subst c3 c2; grow_chain).
    assert (L3 : len (Code c3) = len (Code c2) + 4) by apply len_emitInt.
    assert (L2 : len (Code c) <= len (Code c2))
      by (subst c2; rewrite len_emit; pose proof (grows_len _ _ G1); lia).
    apply (fine_bind c c3); [exact G3 | apply (emitAll_fine _ _ IHthn) |].
    intros c4 G4.
    destruct (0 <? len els).
    + set (c5 := emit c4 OP_JMP). set (c6 := emitInt c5 0).
      assert (G46 : grows c4 c6) by (subst c6 c5; grow_chain).
      assert (G36 : grows c3 c6) by eauto using grows_trans.
      destruct (patchJump_fine c c6 (len (Code c2))) as (c7 & -> & G7 & L7 & _);
        [eauto using grows_trans | exact L2
         | pose proof (grows_len _ _ G36); lia |].
      cbn [bind].
      apply (fine_bind c c7); [exact G7 | apply (emitAll_fine _ _ IHels) |].
      intros c8 G8.
      apply (patch_fine c c7 c8); [exact G7 | exact G8 | |].
      * subst c5. rewrite len_emit.
        pose proof (grows_len _ _ G4). lia.
      * rewrite L7. subst c6. rewrite len_emitInt. lia.
    + apply (patch_fine c c3 c4); [exact G3 | exact G4 | exact L2 | lia].
  - (* WhileStmt *)
    apply (fine_bind c c); [apply grows_refl | apply emitExpr_fine |].
    intros c1 G1.
    set (c2 := emit c1 OP_JMPF). set (c3 := emitInt c2 0).
    assert (G3 : grows c c3) by (subst c3 c2; grow_chain).
    assert (L3 : len (Code c3) = len (Code c2) + 4) by apply len_emitInt.
    assert (L2 : len (Code c) <= len (Code c2))
      by (subst c2; rewrite len_emit; pose proof (grows_len _ _ G1); lia).
    apply (fine_bind c c3); [exact G3 | apply (emitAll_fine _ _ IHbody) |].
    intros c4 G4.
    apply (patch_fine c c3 (emitInt (emit c4 OP_JMP) (len (Code c))));
      [exact G3 | grow_chain | exact L2 | lia].
  - (* ForStmt *)
    apply (fine_bind c c); [apply grows_refl | apply emitExpr_fine |].
    intros c1 G1. cbn [addConst].
    match goal with
    | |- fine c (bind (emitAll _ ?cg body) _) => set (cG := cg)
    end.
    assert (GG : grows c1 cG).
    { subst cG. apply extends_grows. ext_chain. }
    assert (LG : len (Code cG) = len (Code c1) + 15 + 16).
    { subst cG. cbn [emit emitInt Code]. repeat rewrite len_app.
      repeat rewrite len_le_encode. repeat rewrite len_cons.
      change (len (@nil byte)) with 0. lia. }
    apply (fine_bind c cG); [eauto using grows_trans | apply (emitAll_fine _ _ IHbody) |].
    intros c4 G4. cbn [addConst].
    match goal with
    | |- fine c (patchJump ?cl ?pos) =>
        apply (patch_fine c cG cl pos)
    end.
    + eauto using grows_trans.
    + eapply grows_trans; [exact G4 |]. apply extends_grows. ext_chain.
    + cbn [emit emitInt Code]. repeat rewrite len_app.
      repeat rewrite len_le_encode. repeat rewrite len_cons.
      change (len (@nil byte)) with 0. pose proof (grows_len _ _ G1).
      pose proof (len_nonneg (Code c)). lia.
    + rewrite LG. cbn [emit emitInt Code]. repeat rewrite len_app.
      repeat rewrite len_le_encode. repeat rewrite len_cons.
      change (len (@nil byte)) with 0. lia.
  - apply emitFunctionDef_fine.
  - apply emitFunctionExpr_fine.
  - apply emitFunctionOneLiner_fine.
Qed.

End StatementEmission.

(** ** The layout of loops and conditionals *)

(** Patching the four bytes [hole] that follow [pre]. *)
Lemma patchJump_at (c : Chunk) (pre hole post : list byte) :
  Code c = pre ++ hole ++ post -> len hole = 4 ->
  patchJump c (len pre) =
    Ok (mkChunk (pre ++ le_encode 4 (len (Code c)) ++ post) (Constants c) (Names c)).
Proof.
  intros Hc Hh. unfold patchJump.
  pose proof (len_nonneg pre). pose proof (len_nonneg post).
  assert (Hl : len (Code c) = len pre + 4 + len post)
    by (rewrite Hc, !len_app; lia).
  replace ((0 <=? len pre) && (len pre + 4 <=? len (Code c))) with true
    by (symmetry; apply andb_true_iff; split; apply Z.leb_le; lia).
  f_equal. f_equal. rewrite Hc at 1 3.
  rewrite Z_to_nat_len, take_app_length. f_equal. f_equal.
  rewrite app_assoc. apply drop_app_length'.
  rewrite length_app. unfold len in *. lia.
Qed.

Lemma Ok_inj {A : Type} (a b : A) : Ok a = Ok b -> a = b.
Proof. congruence. Qed.

Lemma patchJump_Constants (c c' : Chunk) (pos : Z) :
  patchJump c pos = Ok c' -> Constants c' = Constants c.
Proof.
  unfold patchJump. destruct (_ && _); [| discriminate].
  intros H. apply Ok_inj in H. subst c'. reflexivity.
Qed.

Lemma fine_Ok_inv (c c' : Chunk) (r : result Chunk) :
  fine c r -> r = Ok c' -> grows c c'.
Proof. intros H ->. exact H. Qed.

Section StatementLayout.

Variable FuncDecl : Type.
Variable emitFunctionDef emitFunctionExpr emitFunctionOneLiner
  : Chunk -> FuncDecl -> result Chunk.
Hypothesis emitFunctionDef_fine : forall c d, fine c (emitFunctionDef c d).
Hypothesis emitFunctionExpr_fine : forall c d, fine c (emitFunctionExpr c d).
Hypothesis emitFunctionOneLiner_fine : forall c d, fine c (emitFunctionOneLiner c d).

Abbreviation emitStmt' :=
  (emitStmt FuncDecl emitFunctionDef emitFunctionExpr emitFunctionOneLiner).

Lemma emitBlock_grows (c c' : Chunk) (body : list (Stmt FuncDecl)) :
  emitAll emitStmt' c body = Ok c' -> grows c c'.
Proof.
  intros H.
  assert (Hf : fine c (emitAll emitStmt' c body)).
  { apply emitAll_fine. apply Forall_forall. intros s _ c0.
    apply emitStmt_fine; assumption. }
  rewrite H in Hf. exact Hf.
Qed.

Lemma while_layout :
  forall (c c' : Chunk) cond (body : list (Stmt FuncDecl)),
    emitStmt' c (WhileStmt cond body) = Ok c' ->
    exists c1 c2 condCode bodyCode,
      emitExpr c cond = Ok c1 /\ Code c1 = Code c ++ condCode /\
      emitAll emitStmt' (emitInt (emit c1 OP_JMPF) 0) body = Ok c2 /\
      Code c2 = Code c1 ++ [OP_JMPF] ++ le_encode 4 0 ++ bodyCode /\
      Code c' = Code c ++ condCode ++ [OP_JMPF] ++ le_encode 4 (len (Code c')) ++
                bodyCode ++ [OP_JMP] ++ le_encode 4 (len (Code c)) /\
      Constants c' = Constants c2.
Proof.
  intros c c' cond body H. cbn [emitStmt] in H.
  apply bind_Ok_inv in H as (c1 & H1 & H).
  apply bind_Ok_inv in H as (c2 & H2 & H).
  destruct (fine_Ok_inv _ _ _ (emitExpr_fine cond c) H1) as [[condCode Hc1] _].
  destruct (emitBlock_grows _ _ _ H2) as [[bodyCode Hc2] _].
  cbn [emit emitInt Code] in Hc2. rewrite <- !app_assoc in Hc2.
  exists c1, c2, condCode, bodyCode.
  split; [exact H1 |]. split; [exact Hc1 |]. split; [exact H2 |].
  split; [exact Hc2 |].
  cbn [emit emitInt Code] in H. rewrite len_app in H.
  change (len [OP_JMPF]) with 1 in H.
  set (pre := Code c ++ condCode ++ [OP_JMPF]).
  set (post := bodyCode ++ [OP_JMP] ++ le_encode 4 (len (Code c))).
  set (c6 := emitInt (emit c2 OP_JMP) (len (Code c))) in *.
  assert (Hc6 : Code c6 = pre ++ le_encode 4 0 ++ post).
  { subst c6 pre post. cbn [emit emitInt Code]. rewrite Hc2, Hc1. list_eq. }
  assert (Hpos : len (Code c1) + 1 = len pre).
  { subst pre. rewrite Hc1, !len_app. change (len [OP_JMPF]) with 1. lia. }
  rewrite Hpos in H.
  assert (Hk6 : Constants c6 = Constants c2) by reflexivity.
  clearbody c6.
  rewrite (patchJump_at c6 pre (le_encode 4 0) post Hc6 (len_le_encode 4 0)) in H.
  apply Ok_inj in H. subst c'. cbn [Code Constants].
  split; [| exact Hk6].
  rewrite !len_app, len_le_encode.
  replace (len pre + (Z.of_nat 4 + len post)) with (len (Code c6))
    by (rewrite Hc6, !len_app, len_le_encode; reflexivity).
  subst pre post. list_eq.
Qed.

Lemma if_layout :
  forall (c c' : Chunk) cond (thn els : list (Stmt FuncDecl)),
    emitStmt' c (IfStmt cond thn els) = Ok c' ->
    exists c1 c2 condCode thenCode,
      emitExpr c cond = Ok c1 /\ Code c1 = Code c ++ condCode /\
      emitAll emitStmt' (emitInt (emit c1 OP_JMPF) 0) thn = Ok c2 /\
      Code c2 = Code c1 ++ [OP_JMPF] ++ le_encode 4 0 ++ thenCode /\
      (exists vs, Constants c' = Constants c1 ++ vs) /\
      if 0 <? len els then
        exists c3 elseCode,
          let elseStart := len (Code c2) + 5 in
          Code c3 = Code c ++ condCode ++ [OP_JMPF] ++ le_encode 4 elseStart ++
                    thenCode ++ [OP_JMP] ++ le_encode 4 0 /\
          len (Code c3) = elseStart /\
          (exists c4, emitAll emitStmt' c3 els = Ok c4 /\
                      Code c4 = Code c3 ++ elseCode) /\
          Code c' = Code c ++ condCode ++ [OP_JMPF] ++ le_encode 4 elseStart ++
                    thenCode ++ [OP_JMP] ++ le_encode 4 (len (Code c')) ++ elseCode
      else
        Code c' = Code c ++ condCode ++ [OP_JMPF] ++ le_encode 4 (len (Code c')) ++
                  thenCode.
Proof.
  intros c c' cond thn els H. cbn [emitStmt] in H.
  apply bind_Ok_inv in H as (c1 & H1 & H).
  apply bind_Ok_inv in H as (c2 & H2 & H).
  destruct (fine_Ok_inv _ _ _ (emitExpr_fine cond c) H1) as [[condCode Hc1] _].
  destruct (emitBlock_grows _ _ _ H2) as [[thenCode Hc2] [vs2 Hk2]].
  cbn [emit emitInt Constants] in Hk2.
  cbn [emit emitInt Code] in Hc2. rewrite <- !app_assoc in Hc2.
  exists c1, c2, condCode, thenCode.
  split; [exact H1 |]. split; [exact Hc1 |]. split; [exact H2 |].
  split; [exact Hc2 |].
  split.
  { destruct (0 <? len els).
    - apply bind_Ok_inv in H as (c3 & H3 & H).
      apply bind_Ok_inv in H as (c4 & H4 & H).
      destruct (emitBlock_grows _ _ _ H4) as [_ [vs4 Hk4]].
      rewrite (patchJump_Constants _ _ _ H), Hk4, (patchJump_Constants _ _ _ H3).
      cbn [emit emitInt Constants]. rewrite Hk2, <- app_assoc. eexists. reflexivity.
    - rewrite (patchJump_Constants _ _ _ H), Hk2. eexists. reflexivity. }
  cbn [emit emitInt Code] in H. rewrite !len_app in H.
  change (len [OP_JMPF]) with 1 in H. change (len [OP_JMP]) with 1 in H.
  set (pre := Code c ++ condCode ++ [OP_JMPF]).
  assert (Hpos : len (Code c1) + 1 = len pre).
  { subst pre. rewrite Hc1, !len_app. change (len [OP_JMPF]) with 1. lia. }
  rewrite Hpos in H.
  destruct (0 <? len els).
  - apply bind_Ok_inv in H as (c3 & H3 & H).
    apply bind_Ok_inv in H as (c4 & H4 & H).
    set (c6 := emitInt (emit c2 OP_JMP) 0) in *.
    assert (Hc6 : Code c6 = pre ++ le_encode 4 0 ++
                            (thenCode ++ [OP_JMP] ++ le_encode 4 0)).
    { subst c6 pre. cbn [emit emitInt Code]. rewrite Hc2, Hc1. list_eq. }
    rewrite (patchJump_at c6 pre (le_encode 4 0) _ Hc6 (len_le_encode 4 0)) in H3.
    assert (L6 : len (Code c6) = len (Code c2) + 5).
    { subst c6. cbn [emit emitInt Code]. rewrite !len_app, len_le_encode.
      change (len [OP_JMP]) with 1. lia. }
    rewrite L6 in H3. clearbody c6.
    assert (Hc3 : Code c3 = (pre ++ le_encode 4 (len (Code c2) + 5) ++
                             thenCode ++ [OP_JMP]) ++ le_encode 4 0 ++ []).
    { apply Ok_inj in H3. subst c3. cbn [Code]. rewrite app_nil_r. list_eq. }
    assert (L3 : len (Code c3) = len (Code c2) + 5).
    { rewrite <- L6, Hc6, Hc3. rewrite !len_app, !len_le_encode.
      change (len (@nil byte)) with 0. lia. }
    destruct (emitBlock_grows _ _ _ H4) as [[elseCode Hc4] _].
    exists c3, elseCode. cbn zeta.
    split; [rewrite Hc3, app_nil_r; subst pre; list_eq |].
    split; [exact L3 |].
    split; [exists c4; split; assumption |].
    assert (Hc4' : Code c4 = (pre ++ le_encode 4 (len (Code c2) + 5) ++
                              thenCode ++ [OP_JMP]) ++ le_encode 4 0 ++ elseCode).
    { rewrite Hc4, Hc3, app_nil_r. list_eq. }
    replace (len (Code c2) + 1)
      with (len (pre ++ le_encode 4 (len (Code c2) + 5) ++ thenCode ++ [OP_JMP])) in H.
    2:{ rewrite Hc2, Hc1. subst pre. rewrite !len_app, !len_le_encode.
        change (len [OP_JMPF]) with 1. change (len [OP_JMP]) with 1. lia. }
    rewrite (patchJump_at c4 _ (le_encode 4 0) elseCode Hc4' (len_le_encode 4 0)) in H.
    apply Ok_inj in H. subst c'. cbn [Code].
    rewrite !len_app, !len_le_encode.
    match goal with
    | |- context [le_encode 4 (?a + (?b + len elseCode))] =>
        replace (a + (b + len elseCode)) with (len (Code c4))
          by (rewrite Hc4', !len_app, !len_le_encode; reflexivity)
    end.
    subst pre. list_eq.
  - assert (Hc2' : Code c2 = pre ++ le_encode 4 0 ++ thenCode).
    { subst pre. rewrite Hc2, Hc1. list_eq. }
    rewrite (patchJump_at c2 pre (le_encode 4 0) thenCode Hc2' (len_le_encode 4 0)) in H.
    apply Ok_inj in H. subst c'. cbn [Code].
    rewrite !len_app, len_le_encode.
    replace (len pre + (Z.of_nat 4 + len thenCode)) with (len (Code c2))
      by (rewrite Hc2', !len_app, len_le_encode; reflexivity).
    subst pre. list_eq.
Qed.

End StatementLayout.

(** ** Running the code of expressions *)

Lemma stepN_app loadFunction (n m : nat) :
  forall vm vm1, stepN loadFunction n vm = Ok vm1 ->
    stepN loadFunction (n + m) vm = stepN loadFunction m vm1.
Proof.
  induction n as [| n IH]; intros vm vm1 H; cbn [stepN Nat.add] in *.
  - injection H as <-. reflexivity.
  - destruct (step loadFunction vm) as [[vm' | r vm'] | p]; cbn [bind] in *;
      try discriminate.
    apply IH. exact H.
Qed.

Lemma stepN_one loadFunction (vm vm1 : VM) :
  step loadFunction vm = Ok (Next vm1) -> stepN loadFunction 1 vm = Ok vm1.
Proof. intros H. cbn [stepN]. rewrite H. reflexivity. Qed.

(** [OP_CONST slot] at the instruction pointer pushes the constant. *)
Lemma step_const loadFunction (vm : VM) (pre post : list byte) (slot : Z) (v : Value) :
  code vm = pre ++ [OP_CONST] ++ le_encode 4 slot ++ post ->
  ip vm = len pre -> 0 <= slot < 2 ^ 32 ->
  index (activePool vm) slot = Ok v ->
  step loadFunction vm = Ok (Next (pushed vm v (len pre + 5))).
Proof.
  intros Hc Hip Hs Hv. unfold step.
  rewrite (index_at (code vm) pre (le_encode 4 slot ++ post) OP_CONST (ip vm) Hc Hip).
  change OP_CONST with x01. cbn [bind]. unfold readInt. cbn [code ip set_ip].
  rewrite (Uint32At_at (code vm) (pre ++ [x01]) post slot (ip vm + 1));
    [| rewrite Hc; list_eq
     | rewrite Hip, len_app; reflexivity | exact Hs].
  cbn [bind]. change (activePool _) with (activePool vm). rewrite Hv. cbn [bind].
  unfold pushed, push. cbn [set_ip constants code ip sp stack callStack pools].
  do 2 f_equal. f_equal. lia.
Qed.

Lemma binaryAny_two (f : Value -> Value -> bool) (vm : VM)
    (st : list Value) (a b : Value) :
  stack vm = st ++ [a; b] -> sp vm = len (stack vm) ->
  binaryAny f vm =
    Ok (Next (mkVM (constants vm) (code vm) (ip vm) (len st + 1)
                   (st ++ [VFloat (boolToFloat (f a b))]) (callStack vm) (pools vm))).
Proof.
  intros Hst Hsp. unfold binaryAny.
  rewrite (pop_snoc vm (st ++ [a]) b);
    [| rewrite Hst, <- app_assoc; reflexivity | exact Hsp].
  cbn [bind].
  rewrite (pop_snoc _ st a); [| reflexivity | cbn [sp stack]; reflexivity].
  cbn [bind push constants code ip sp stack callStack pools].
  reflexivity.
Qed.

(** The opcode [emitBinaryOp] emits for [op] computes [binaryResult op]. *)
Lemma emitBinaryOp_step (c c' : Chunk) (op : string) :
  emitBinaryOp c op = Ok c' ->
  exists b, c' = emit c b /\
    forall loadFunction vm st x y,
      index (code vm) (ip vm) = Ok b ->
      stack vm = st ++ [VFloat x; VFloat y] -> sp vm = len (stack vm) ->
      step loadFunction vm =
        Ok (Next (mkVM (constants vm) (code vm) (ip vm + 1) (len st + 1)
                       (st ++ [VFloat (binaryResult op x y)])
                       (callStack vm) (pools vm))).
Proof.
  unfold emitBinaryOp, binaryResult. intros H.
  repeat match type of H with
         | (if ?t then _ else _) = _ => destruct t
         end;
    try discriminate; apply Ok_inj in H; subst c';
    eexists; (split; [reflexivity |]);
    intros ld vm st x y Hop Hst Hsp; unfold step; rewrite Hop;
    cbv [OP_ADD OP_SUB OP_MUL OP_DIV OP_MOD OP_EQ OP_NEQ OP_LT OP_GT OP_LE
         OP_GE OP_AND OP_OR]; cbn [bind];
    first [ rewrite (binaryFloat_two_floats _ _ st x y)
              by (cbn [set_ip stack sp]; assumption)
          | rewrite (binaryAny_two _ _ st (VFloat x) (VFloat y))
              by (cbn [set_ip stack sp]; assumption) ];
    reflexivity.
Qed.

Lemma compiled_arithmetic loadFunction (e : Expr) :
  arithmetic e = true ->
  forall c c' vm rest more,
    emitExpr c e = Ok c' ->
    code vm = Code c' ++ rest ->
    activePool vm = Constants c' ++ more ->
    len (Constants c') <= 2 ^ 32 ->
    ip vm = len (Code c) -> sp vm = len (stack vm) ->
    exists n,
      stepN loadFunction n vm = Ok (pushed vm (VFloat (valueOf e)) (len (Code c'))).
Proof.
  induction e as [v | v | v | n | n e IHe | op e IHe | l op r IHl IHr
                 | callee args IHc IHargs | o n IHo | e IHe]
    using Expr_nested_ind; cbn [arithmetic]; intros Ha; try discriminate;
    intros c c' vm rest more H Hcode Hpool Hlen Hip Hsp; cbn [emitExpr valueOf] in *.
  - (* NumberExpr *)
    apply Ok_inj in H. subst c'.
    cbn [addConst emit emitInt fst snd Code Constants] in *.
    exists 1%nat. apply stepN_one.
    rewrite len_app in Hlen. change (len [VFloat (parseNumber v)]) with 1 in Hlen.
    pose proof (len_nonneg (Constants c)).
    rewrite (step_const loadFunction vm (Code c) rest (len (Constants c))
               (VFloat (parseNumber v)));
      [| rewrite Hcode; list_eq | exact Hip | lia
       | rewrite Hpool, <- app_assoc; apply index_app_here ].
    do 2 f_equal. unfold pushed. f_equal.
    rewrite !len_app, len_le_encode. change (len [OP_CONST]) with 1. lia.
  - (* BoolExpr *)
    apply Ok_inj in H. subst c'.
    cbn [addConst emit emitInt fst snd Code Constants] in *.
    exists 1%nat. apply stepN_one.
    rewrite len_app in Hlen.
    change (len [VFloat (if v then 1%float else 0%float)]) with 1 in Hlen.
    pose proof (len_nonneg (Constants c)).
    rewrite (step_const loadFunction vm (Code c) rest (len (Constants c))
               (VFloat (boolToFloat v)));
      [| rewrite Hcode; list_eq | exact Hip | lia
       | rewrite Hpool, <- app_assoc; apply index_app_here ].
    do 2 f_equal. unfold pushed. f_equal.
    rewrite !len_app, len_le_encode. change (len [OP_CONST]) with 1. lia.
  - (* UnaryExpr *)
    apply bind_Ok_inv in H as (c1 & H1 & H).
    destruct (String.eqb op "-").
    + apply Ok_inj in H. subst c'.
      cbn [addConst emit emitInt fst snd Code Constants] in *.
      rewrite len_app in Hlen. change (len [VFloat (-1)]) with 1 in Hlen.
      pose proof (len_nonneg (Constants c1)).
      destruct (IHe Ha c c1 vm
                  ([OP_CONST] ++ le_encode 4 (len (Constants c1)) ++ [OP_MUL] ++ rest)
                  ([VFloat (-1)] ++ more) H1) as [n1 Hn1];
        [rewrite Hcode; list_eq | rewrite Hpool; list_eq | lia | exact Hip | exact Hsp |].
      exists (n1 + (1 + 1))%nat. rewrite (stepN_app _ _ _ _ _ Hn1).
      set (vm1 := pushed vm (VFloat (valueOf e)) (len (Code c1))) in *.
      rewrite (stepN_app _ 1 1 vm1 (pushed vm1 (VFloat (-1)) (len (Code c1) + 5))).
      2:{ apply stepN_one.
          apply (step_const loadFunction vm1 (Code c1) ([OP_MUL] ++ rest)
                   (len (Constants c1)) (VFloat (-1)));
            [ cbn [vm1 pushed code]; rewrite Hcode; list_eq | reflexivity | lia |].
          change (activePool vm1) with (activePool vm).
          rewrite Hpool, <- app_assoc. apply index_app_here. }
      apply stepN_one. unfold step.
      rewrite (index_at _ (Code c1 ++ [OP_CONST] ++ le_encode 4 (len (Constants c1)))
                 rest OP_MUL);
        [| cbn [vm1 pushed code]; rewrite Hcode; list_eq
         | cbn [vm1 pushed ip]; rewrite !len_app, len_le_encode;
           change (len [OP_CONST]) with 1; lia ].
      change OP_MUL with x04. cbn [bind].
      rewrite (binaryFloat_two_floats _ _ (stack vm) (valueOf e) (-1));
        [| cbn [vm1 pushed set_ip stack]; list_eq
         | cbn [vm1 pushed set_ip stack sp]; rewrite !len_app, Hsp;
           unfold len; cbn [length]; lia ].
      do 2 f_equal. unfold pushed. cbn [vm1 pushed set_ip constants code ip sp stack
                                        callStack pools].
      f_equal; [| lia].
      rewrite !len_app, len_le_encode. unfold len. cbn [length]. lia.
    + destruct (String.eqb op "!"); [| discriminate].
      apply Ok_inj in H. subst c'. cbn [emit Code Constants] in *.
      destruct (IHe Ha c c1 vm ([OP_NOT] ++ rest) more H1) as [n1 Hn1];
        [rewrite Hcode; list_eq | exact Hpool | exact Hlen | exact Hip | exact Hsp |].
      exists (n1 + 1)%nat. rewrite (stepN_app _ _ _ _ _ Hn1).
      set (vm1 := pushed vm (VFloat (valueOf e)) (len (Code c1))) in *.
      apply stepN_one. unfold step.
      rewrite (index_at _ (Code c1) rest OP_NOT);
        [| cbn [vm1 pushed code]; rewrite Hcode; list_eq | reflexivity ].
      change OP_NOT with x0f. cbn [bind].
      rewrite (pop_snoc _ (stack vm) (VFloat (valueOf e)));
        [| reflexivity
         | cbn [vm1 pushed set_ip stack sp]; rewrite len_app, Hsp; reflexivity ].
      cbn [bind asFloat]. do 2 f_equal. unfold pushed, push.
      cbn [vm1 pushed set_ip constants code ip sp stack callStack pools].
      f_equal; [| lia].
      rewrite len_app. reflexivity.
  - (* BinaryExpr *)
    apply andb_true_iff in Ha as [Hal Har].
    apply bind_Ok_inv in H as (c1 & H1 & H).
    apply bind_Ok_inv in H as (c2 & H2 & H).
    destruct (emitBinaryOp_step _ _ _ H) as (b & -> & Hop).
    destruct (emitExpr_extends _ _ _ H2) as ([bs2 Hb2] & [vs2 Hv2] & _).
    cbn [emit Code Constants] in *.
    destruct (IHl Hal c c1 vm (bs2 ++ [b] ++ rest) (vs2 ++ more) H1) as [n1 Hn1];
      [ rewrite Hcode, Hb2; list_eq | rewrite Hpool, Hv2; list_eq
      | rewrite Hv2, len_app in Hlen; pose proof (len_nonneg vs2); lia
      | exact Hip | exact Hsp |].
    set (vm1 := pushed vm (VFloat (valueOf l)) (len (Code c1))) in *.
    destruct (IHr Har c1 c2 vm1 ([b] ++ rest) more H2) as [n2 Hn2];
      [ cbn [vm1 pushed code]; rewrite Hcode; list_eq
      | exact Hpool | exact Hlen | reflexivity
      | cbn [vm1 pushed stack sp]; rewrite len_app, Hsp; reflexivity |].
    set (vm2 := pushed vm1 (VFloat (valueOf r)) (len (Code c2))) in *.
    exists (n1 + (n2 + 1))%nat.
    rewrite (stepN_app _ _ _ _ _ Hn1), (stepN_app _ _ _ _ _ Hn2).
    apply stepN_one.
    rewrite (Hop loadFunction vm2 (stack vm) (valueOf l) (valueOf r));
      [| apply (index_at _ (Code c2) rest);
           [cbn [vm2 vm1 pushed code]; rewrite Hcode; list_eq | reflexivity]
       | cbn [vm2 vm1 pushed stack]; list_eq
       | cbn [vm2 vm1 pushed stack sp]; rewrite !len_app, Hsp;
         unfold len; cbn [length]; lia ].
    do 2 f_equal. unfold pushed.
    cbn [vm2 vm1 pushed constants code ip sp stack callStack pools].
    f_equal; [| lia]. rewrite len_app. reflexivity.
  - (* ParenExpr *)
    eapply IHe; eassumption.
Qed.

(** ** Running programs *)

Lemma step_Ok_in_code loadFunction (vm : VM) (o : outcome) :
  step loadFunction vm = Ok o -> (ip vm <? len (code vm)) = true.
Proof.
  unfold step. intros H. apply bind_Ok_inv in H as (op & Hop & _).
  apply index_Ok_lookup in Hop as [Hr _]. apply Z.ltb_lt. lia.
Qed.

(** [Run] goes through the turns that [stepN] makes. *)
Lemma Run_stepN loadFunction (n : nat) :
  forall vm vm' fuel, stepN loadFunction n vm = Ok vm' ->
    Run loadFunction (n + fuel) vm = Run loadFunction fuel vm'.
Proof.
  induction n as [| n IH]; intros vm vm' fuel H; cbn [stepN Nat.add] in H |- *.
  - apply Ok_inj in H. subst vm'. reflexivity.
  - apply bind_Ok_inv in H as (o & Ho & H).
    cbn [Run]. rewrite (step_Ok_in_code _ _ _ Ho), Ho.
    destruct o as [vm1 | r vm1]; [| discriminate].
    apply IH. exact H.
Qed.

(** With less fuel than turns to make, [Run] runs out of fuel. *)
Lemma Run_short loadFunction (n : nat) :
  forall vm vm' fuel, stepN loadFunction n vm = Ok vm' -> (fuel < n)%nat ->
    Run loadFunction fuel vm = None.
Proof.
  induction n as [| n IH]; intros vm vm' fuel H Hlt; [lia |].
  cbn [stepN] in H. apply bind_Ok_inv in H as (o & Ho & H).
  destruct fuel as [| fuel]; cbn [Run]; rewrite (step_Ok_in_code _ _ _ Ho).
  - reflexivity.
  - rewrite Ho. destruct o as [vm1 | r vm1]; [| discriminate].
    apply (IH vm1 vm'); [exact H | lia].
Qed.

(** A machine that comes back to its state never stops. *)
Lemma Run_cycle loadFunction (n : nat) (vm : VM) :
  stepN loadFunction (S n) vm = Ok vm ->
  forall fuel, Run loadFunction fuel vm = None.
Proof.
  intros H fuel. induction fuel as [fuel IH] using lt_wf_ind.
  destruct (Nat.lt_ge_cases fuel (S n)) as [Hlt | Hge].
  - apply (Run_short _ _ _ _ _ H Hlt).
  - replace fuel with (S n + (fuel - S n))%nat by lia.
    rewrite (Run_stepN _ _ _ _ _ H). apply IH. lia.
Qed.

(** [OP_JMPF target] pops the condition and jumps when it is zero. *)
Lemma step_jmpf loadFunction (vm : VM) (pre post : list byte) (target : Z)
    (st : list Value) (x : float) :
  code vm = pre ++ [OP_JMPF] ++ le_encode 4 target ++ post ->
  ip vm = len pre -> 0 <= target < 2 ^ 32 ->
  stack vm = st ++ [VFloat x] -> sp vm = len (stack vm) ->
  step loadFunction vm =
    Ok (Next (mkVM (constants vm) (code vm)
                   (if PrimFloat.eqb x 0 then target else len pre + 5)
                   (len st) st (callStack vm) (pools vm))).
Proof.
  intros Hc Hip Ht Hst Hsp. unfold step.
  rewrite (index_at (code vm) pre (le_encode 4 target ++ post) OP_JMPF (ip vm) Hc Hip).
  change OP_JMPF with x15. cbn [bind]. unfold readInt. cbn [code ip set_ip].
  rewrite (Uint32At_at (code vm) (pre ++ [x15]) post target (ip vm + 1));
    [| rewrite Hc; list_eq
     | rewrite Hip, len_app; reflexivity | exact Ht].
  cbn [bind].
  rewrite (pop_snoc _ st (VFloat x)); [| exact Hst | exact Hsp].
  cbn [bind asFloat]. destruct (PrimFloat.eqb x 0).
  - reflexivity.
  - cbn [set_ip constants code ip sp stack callStack pools].
    do 2 f_equal. f_equal. lia.
Qed.

(** [OP_JMP target] jumps. *)
Lemma step_jmp loadFunction (vm : VM) (pre post : list byte) (target : Z) :
  code vm = pre ++ [OP_JMP] ++ le_encode 4 target ++ post ->
  ip vm = len pre -> 0 <= target < 2 ^ 32 ->
  step loadFunction vm = Ok (Next (set_ip vm target)).
Proof.
  intros Hc Hip Ht. unfold step.
  rewrite (index_at (code vm) pre (le_encode 4 target ++ post) OP_JMP (ip vm) Hc Hip).
  change OP_JMP with x14. cbn [bind]. unfold readInt. cbn [code ip set_ip].
  rewrite (Uint32At_at (code vm) (pre ++ [x14]) post target (ip vm + 1));
    [| rewrite Hc; list_eq
     | rewrite Hip, len_app; reflexivity | exact Ht].
  reflexivity.
Qed.

Lemma pushed_stack_consistent (vm : VM) (v : Value) (i : Z) :
  sp vm = len (stack vm) -> sp (pushed vm v i) = len (stack (pushed vm v i)).
Proof.
  intros H. cbn [pushed sp stack]. rewrite len_app, H. reflexivity.
Qed.

Lemma set_ip_same (vm : VM) : set_ip vm (ip vm) = vm.
Proof. destruct vm. reflexivity. Qed.

(** X17: the program [return e], [e] over literals whose numbers are number
    lexemes, returns the value of [e]: with enough fuel [Run] on the main
    chunk of the program, what [emitStmt] and the implicit return of [Emit]
    make, returns it.  A literal too large for a float64 counts as 0. *)
Theorem returning_an_arithmetic_expression :
  forall loadFunction (FuncDecl : Type)
         (emitFunctionDef emitFunctionExpr emitFunctionOneLiner
            : Chunk -> FuncDecl -> result Chunk)
         (e : Expr) (c : Chunk),
    arithmetic e = true -> lexemes e = true ->
    emitMain FuncDecl emitFunctionDef emitFunctionExpr emitFunctionOneLiner
      [ReturnStmt e] = Ok c ->
    len (Constants c) <= 2 ^ 32 ->
    exists fuel,
      returned (Run loadFunction fuel (machine (Constants c) (Code c))) =
      Some (Ok (Some (VFloat (valueOf e)))).
Proof.
  intros loadFunction FuncDecl eDef eExpr eOne e c Ha _ H Hlen.
  unfold emitMain in H. cbn [emitAll emitStmt] in H.
  apply bind_Ok_inv in H as (c2 & H & H3).
  apply bind_Ok_inv in H as (c1 & H & H2).
  apply bind_Ok_inv in H as (c0 & H1 & H).
  apply Ok_inj in H, H2, H3. subst c1 c2 c. cbn [emit Code Constants] in *.
  set (vm := machine (Constants c0) ((Code c0 ++ [OP_RET]) ++ [OP_RET])).
  destruct (compiled_arithmetic loadFunction e Ha NewChunk c0 vm
              ([OP_RET] ++ [OP_RET]) [] H1) as [n Hn];
    [ subst vm; cbn [machine code]; list_eq
    | subst vm; unfold activePool; cbn [machine pools constants lookup];
      rewrite app_nil_r; reflexivity
    | exact Hlen | reflexivity | reflexivity |].
  exists (n + 1)%nat. rewrite (Run_stepN _ _ _ _ _ Hn).
  set (vm1 := pushed vm (VFloat (valueOf e)) (len (Code c0))).
  assert (Hstep : step loadFunction vm1 =
                  Ok (Done (Some (VFloat (valueOf e)))
                        (mkVM 0 (code vm) (len (Code c0) + 1) 0 [] [] (pools vm)))).
  { unfold step.
    rewrite (index_at _ (Code c0) [OP_RET] OP_RET);
      [| subst vm1 vm; cbn [pushed machine code]; list_eq | reflexivity].
    change OP_RET with x13. cbn [bind].
    change (len (callStack (set_ip vm1 (ip vm1 + 1))) =? 0) with true. cbn iota.
    rewrite (pop_snoc _ [] (VFloat (valueOf e))); reflexivity. }
  cbn [Run]. rewrite (step_Ok_in_code _ _ _ Hstep), Hstep. reflexivity.
Qed.

Lemma emitAll_pass (FuncDecl : Type)
    (eDef eExpr eOne : Chunk -> FuncDecl -> result Chunk)
    (c : Chunk) (body : list (Stmt FuncDecl)) :
  Forall (fun s => s = PassStmt) body ->
  emitAll (emitStmt FuncDecl eDef eExpr eOne) c body = Ok c.
Proof.
  induction 1 as [| s body -> _ IH]; cbn [emitAll emitStmt bind]; [reflexivity | exact IH].
Qed.

(** X18: a [while] loop whose condition is over literals, its numbers number
    lexemes, run from its first offset.  When the value of the condition is zero the machine comes
    to the first offset after the loop with its stack as it was, whatever the
    body; when it is not zero and the body is made of [pass], the machine
    never returns, whatever the fuel. *)
Theorem while_loop_exits_or_spins :
  forall loadFunction (FuncDecl : Type)
         (emitFunctionDef emitFunctionExpr emitFunctionOneLiner
            : Chunk -> FuncDecl -> result Chunk),
    (forall c d, fine c (emitFunctionDef c d)) ->
    (forall c d, fine c (emitFunctionExpr c d)) ->
    (forall c d, fine c (emitFunctionOneLiner c d)) ->
    forall (c c' : Chunk) (cond : Expr) (body : list (Stmt FuncDecl))
           (vm : VM) (rest : list byte) (more : list Value),
      arithmetic cond = true -> lexemes cond = true ->
      emitStmt FuncDecl emitFunctionDef emitFunctionExpr emitFunctionOneLiner c
        (WhileStmt cond body) = Ok c' ->
      len (Constants c') <= 2 ^ 32 -> len (Code c') < 2 ^ 32 ->
      code vm = Code c' ++ rest -> activePool vm = Constants c' ++ more ->
      ip vm = len (Code c) -> sp vm = len (stack vm) ->
      (PrimFloat.eqb (valueOf cond) 0 = true ->
       exists n, stepN loadFunction n vm = Ok (set_ip vm (len (Code c')))) /\
      (PrimFloat.eqb (valueOf cond) 0 = false ->
       Forall (fun s => s = PassStmt) body ->
       forall fuel, Run loadFunction fuel vm = None).
Proof.
  intros loadFunction FuncDecl emitFunctionDef emitFunctionExpr emitFunctionOneLiner
         emitFunctionDef_fine emitFunctionExpr_fine emitFunctionOneLiner_fine
         c c' cond body vm rest more Ha _ H Hk Hl Hcode Hpool Hip Hsp.
  destruct (while_layout _ _ _ _ emitFunctionDef_fine emitFunctionExpr_fine
              emitFunctionOneLiner_fine _ _ _ _ H)
    as (c1 & c2 & condCode & bodyCode & H1 & Hc1 & H2 & Hc2 & Hc' & Hk').
  destruct (emitBlock_grows _ _ _ _ emitFunctionDef_fine emitFunctionExpr_fine
              emitFunctionOneLiner_fine _ _ _ H2) as [_ [vs Hvs]].
  cbn [emit emitInt Constants] in Hvs.
  pose proof (len_nonneg (Code c)) as Hc0. pose proof (len_nonneg (Code c')) as Hc0'.
  remember (len (Code c')) as T eqn:HT.
  assert (Hlc : len (Code c) <= T).
  { rewrite HT, Hc', len_app.
    pose proof (len_nonneg (condCode ++ [OP_JMPF] ++ le_encode 4 T ++
                            bodyCode ++ [OP_JMP] ++ le_encode 4 (len (Code c)))).
    lia. }
  destruct (compiled_arithmetic loadFunction cond Ha c c1 vm
              ([OP_JMPF] ++ le_encode 4 T ++ bodyCode ++ [OP_JMP] ++
               le_encode 4 (len (Code c)) ++ rest)
              (vs ++ more) H1) as [n1 Hn1];
    [ rewrite Hcode, Hc', Hc1; list_eq
    | rewrite Hpool, Hk', Hvs; list_eq
    | rewrite Hk', Hvs, len_app in Hk; pose proof (len_nonneg vs); lia
    | exact Hip | exact Hsp |].
  set (vm1 := pushed vm (VFloat (valueOf cond)) (len (Code c1))) in *.
  assert (Hj : step loadFunction vm1 =
               Ok (Next (mkVM (constants vm) (code vm)
                              (if PrimFloat.eqb (valueOf cond) 0 then T
                               else len (Code c1) + 5)
                              (len (stack vm)) (stack vm) (callStack vm) (pools vm)))).
  { apply (step_jmpf loadFunction vm1 (Code c1)
             (bodyCode ++ [OP_JMP] ++ le_encode 4 (len (Code c)) ++ rest)
             T (stack vm) (valueOf cond)).
    - cbn [vm1 pushed code]. rewrite Hcode, Hc', Hc1. list_eq.
    - reflexivity.
    - lia.
    - reflexivity.
    - apply pushed_stack_consistent. exact Hsp. }
  split.
  - intros Hz. exists (n1 + 1)%nat. rewrite (stepN_app _ _ _ _ _ Hn1).
    apply stepN_one. rewrite Hj, Hz. unfold set_ip. rewrite Hsp. reflexivity.
  - intros Hz Hpass. rewrite (emitAll_pass _ _ _ _ _ _ Hpass) in H2.
    apply Ok_inj in H2. subst c2.
    cbn [emit emitInt Code] in Hc2. rewrite <- !app_assoc in Hc2.
    apply app_inv_head in Hc2. apply app_inv_head in Hc2.
    rewrite <- (app_nil_r (le_encode 4 0)) in Hc2 at 1.
    apply app_inv_head in Hc2. symmetry in Hc2. subst bodyCode.
    apply (Run_cycle loadFunction (n1 + 1)).
    replace (S (n1 + 1)) with (n1 + (1 + 1))%nat by lia.
    rewrite (stepN_app _ _ _ _ _ Hn1).
    rewrite Hz in Hj. rewrite (stepN_app _ 1 1 _ _ (stepN_one _ _ _ Hj)).
    apply stepN_one.
    rewrite (step_jmp loadFunction _ (Code c1 ++ [OP_JMPF] ++ le_encode 4 T)
               rest (len (Code c)));
      [| cbn [code]; rewrite Hcode, Hc', Hc1; list_eq
       | cbn [ip]; rewrite !len_app, len_le_encode;
         change (len [OP_JMPF]) with 1; lia
       | lia ].
    unfold set_ip. cbn [constants code ip sp stack callStack pools].
    rewrite <- Hip, <- Hsp. destruct vm. reflexivity.
Qed.

(** X19: an [if] whose condition is over literals, its numbers number
    lexemes, run from its first offset.  The machine comes, with its stack as it was, to the then branch
    when the value of the condition is not zero; when it is zero, to the else
    branch, or to the first offset after the statement when there is none.
    And the jump that ends the then branch goes to the first offset after
    the statement. *)
Theorem if_statement_takes_the_branch_of_its_condition :
  forall loadFunction (FuncDecl : Type)
         (emitFunctionDef emitFunctionExpr emitFunctionOneLiner
            : Chunk -> FuncDecl -> result Chunk),
    (forall c d, fine c (emitFunctionDef c d)) ->
    (forall c d, fine c (emitFunctionExpr c d)) ->
    (forall c d, fine c (emitFunctionOneLiner c d)) ->
    forall (c c' : Chunk) (cond : Expr) (thn els : list (Stmt FuncDecl))
           (vm : VM) (rest : list byte) (more : list Value),
      arithmetic cond = true -> lexemes cond = true ->
      emitStmt FuncDecl emitFunctionDef emitFunctionExpr emitFunctionOneLiner c
        (IfStmt cond thn els) = Ok c' ->
      len (Constants c') <= 2 ^ 32 -> len (Code c') < 2 ^ 32 ->
      code vm = Code c' ++ rest -> activePool vm = Constants c' ++ more ->
      ip vm = len (Code c) -> sp vm = len (stack vm) ->
      exists c1 c2,
        emitExpr c cond = Ok c1 /\
        emitAll (emitStmt FuncDecl emitFunctionDef emitFunctionExpr
                   emitFunctionOneLiner)
          (emitInt (emit c1 OP_JMPF) 0) thn = Ok c2 /\
        (exists n,
            stepN loadFunction n vm =
            Ok (set_ip vm (if PrimFloat.eqb (valueOf cond) 0
                           then if 0 <? len els then len (Code c2) + 5
                                else len (Code c')
                           else len (Code c1) + 5))) /\
        (forall vm2,
            code vm2 = code vm -> ip vm2 = len (Code c2) -> (0 <? len els) = true ->
            step loadFunction vm2 = Ok (Next (set_ip vm2 (len (Code c'))))).
Proof.
  intros loadFunction FuncDecl emitFunctionDef emitFunctionExpr emitFunctionOneLiner
         emitFunctionDef_fine emitFunctionExpr_fine emitFunctionOneLiner_fine
         c c' cond thn els vm rest more Ha _ H Hk Hl Hcode Hpool Hip Hsp.
  destruct (if_layout _ _ _ _ emitFunctionDef_fine emitFunctionExpr_fine
              emitFunctionOneLiner_fine _ _ _ _ _ H)
    as (c1 & c2 & condCode & thenCode & H1 & Hc1 & H2 & Hc2 & [vs Hvs] & Hlay).
  exists c1, c2. split; [exact H1 |]. split; [exact H2 |].
  pose proof (len_nonneg (Code c2)) as Hc0. pose proof (len_nonneg (Code c')) as Hc0'.
  remember (len (Code c')) as T eqn:HT.
  assert (exists target tail,
             Code c' = Code c1 ++ [OP_JMPF] ++ le_encode 4 target ++ tail /\
             0 <= target < 2 ^ 32 /\
             target = (if 0 <? len els then len (Code c2) + 5 else T) /\
             ((0 <? len els) = true ->
              exists upto elseCode,
                len upto = len (Code c2) /\
                Code c' = upto ++ [OP_JMP] ++ le_encode 4 T ++ elseCode))
    as (target & tail & Hc' & Ht & Htarget & Helse).
  { destruct (0 <? len els).
    - destruct Hlay as (c3 & elseCode & Hc3 & L3 & _ & Hc'). cbn zeta in *.
      exists (len (Code c2) + 5), (thenCode ++ [OP_JMP] ++ le_encode 4 T ++ elseCode).
      split; [rewrite Hc', Hc1; list_eq |].
      split; [| split; [reflexivity |]].
      + assert (len (Code c2) + 5 <= T); [| lia].
        rewrite HT, Hc', Hc2, Hc1. rewrite !len_app, !len_le_encode.
        pose proof (len_nonneg elseCode).
        change (len [OP_JMPF]) with 1. change (len [OP_JMP]) with 1. lia.
      + intros _.
        exists (Code c ++ condCode ++ [OP_JMPF] ++ le_encode 4 (len (Code c2) + 5) ++
                thenCode), elseCode.
        split; [rewrite Hc2, Hc1, !len_app, !len_le_encode; lia |].
        rewrite Hc'. list_eq.
    - exists T, thenCode.
      split; [rewrite Hlay, Hc1; list_eq |].
      split; [lia |]. split; [reflexivity | discriminate]. }
  split.
  - destruct (compiled_arithmetic loadFunction cond Ha c c1 vm
                ([OP_JMPF] ++ le_encode 4 target ++ tail ++ rest) (vs ++ more) H1)
      as [n1 Hn1];
      [ rewrite Hcode, Hc'; list_eq
      | rewrite Hpool, Hvs; list_eq
      | rewrite Hvs, len_app in Hk; pose proof (len_nonneg vs); lia
      | exact Hip | exact Hsp |].
    set (vm1 := pushed vm (VFloat (valueOf cond)) (len (Code c1))) in *.
    exists (n1 + 1)%nat. rewrite (stepN_app _ _ _ _ _ Hn1). apply stepN_one.
    rewrite (step_jmpf loadFunction vm1 (Code c1) (tail ++ rest) target (stack vm)
               (valueOf cond));
      [| cbn [vm1 pushed code]; rewrite Hcode, Hc'; list_eq
       | reflexivity | exact Ht | reflexivity
       | apply pushed_stack_consistent; exact Hsp ].
    cbn [vm1 pushed constants code callStack pools]. unfold set_ip.
    rewrite Hsp, Htarget. reflexivity.
  - intros vm2 Hcode2 Hip2 He. destruct (Helse He) as (upto & elseCode & Hu & Hc2').
    apply (step_jmp loadFunction vm2 upto (elseCode ++ rest) T).
    + rewrite Hcode2, Hcode, Hc2'. list_eq.
    + rewrite Hu. exact Hip2.
    + lia.
Qed.

(** ** Statements: emission, layout and runs *)

Lemma noFunctions_fine : forall c d, fine c (noFunctions c d).
Proof. intros c d. apply grows_refl. Qed.

(** X13: statement emission only appends, and its jump patches stay inside
    what it appended.  Whatever the statement and the chunk, [emitStmt] ends
    with the code and the constants of the chunk extended, or on a panic that
    is no bounds panic: no [patchJump] slices outside the code, and none
    touches a byte emitted before the statement.  The function-compilation
    path is assumed to do the same. *)
Theorem emitStmt_appends_and_patches_in_bounds :
  forall (FuncDecl : Type)
         (emitFunctionDef emitFunctionExpr emitFunctionOneLiner
            : Chunk -> FuncDecl -> result Chunk),
    (forall c d, fine c (emitFunctionDef c d)) ->
    (forall c d, fine c (emitFunctionExpr c d)) ->
    (forall c d, fine c (emitFunctionOneLiner c d)) ->
    forall (s : Stmt FuncDecl) (c : Chunk),
      fine c (emitStmt FuncDecl emitFunctionDef emitFunctionExpr
                emitFunctionOneLiner c s).
Proof. exact emitStmt_fine. Qed.

Lemma emitStmt_appends_witness :
  fine NewChunk (emitStmt unit noFunctions noFunctions noFunctions NewChunk ifElse).
Proof.
  apply (emitStmt_appends_and_patches_in_bounds unit noFunctions noFunctions
           noFunctions noFunctions_fine noFunctions_fine noFunctions_fine
           ifElse NewChunk).
Defined.

(** X14: the layout of a [while] loop.  Its code is the code of the
    condition, [OP_JMPF] to the first offset after the loop, the code of the
    body, and [OP_JMP] back to the offset where the condition starts. *)
Theorem while_loop_jumps_back_to_its_condition :
  forall (FuncDecl : Type)
         (emitFunctionDef emitFunctionExpr emitFunctionOneLiner
            : Chunk -> FuncDecl -> result Chunk),
    (forall c d, fine c (emitFunctionDef c d)) ->
    (forall c d, fine c (emitFunctionExpr c d)) ->
    (forall c d, fine c (emitFunctionOneLiner c d)) ->
    forall (c c' : Chunk) cond (body : list (Stmt FuncDecl)),
      emitStmt FuncDecl emitFunctionDef emitFunctionExpr emitFunctionOneLiner c
        (WhileStmt cond body) = Ok c' ->
      exists c1 c2 condCode bodyCode,
        emitExpr c cond = Ok c1 /\ Code c1 = Code c ++ condCode /\
        emitAll (emitStmt FuncDecl emitFunctionDef emitFunctionExpr
                   emitFunctionOneLiner)
          (emitInt (emit c1 OP_JMPF) 0) body = Ok c2 /\
        Code c2 = Code c1 ++ [OP_JMPF] ++ le_encode 4 0 ++ bodyCode /\
        Code c' = Code c ++ condCode ++ [OP_JMPF] ++ le_encode 4 (len (Code c')) ++
                  bodyCode ++ [OP_JMP] ++ le_encode 4 (len (Code c)) /\
        Constants c' = Constants c2.
Proof. exact while_layout. Qed.

Lemma while_loop_layout_witness :
  exists c1 c2 condCode bodyCode,
    emitExpr NewChunk (BoolExpr true) = Ok c1 /\
    Code c1 = Code NewChunk ++ condCode /\
    emitAll (emitStmt unit noFunctions noFunctions noFunctions)
      (emitInt (emit c1 OP_JMPF) 0) [PassStmt] = Ok c2 /\
    Code c2 = Code c1 ++ [OP_JMPF] ++ le_encode 4 0 ++ bodyCode /\
    Code whileTrueChunk =
      Code NewChunk ++ condCode ++ [OP_JMPF] ++
      le_encode 4 (len (Code whileTrueChunk)) ++
      bodyCode ++ [OP_JMP] ++ le_encode 4 (len (Code NewChunk)) /\
    Constants whileTrueChunk = Constants c2.
Proof.
  apply (while_loop_jumps_back_to_its_condition unit noFunctions noFunctions
           noFunctions noFunctions_fine noFunctions_fine noFunctions_fine
           NewChunk whileTrueChunk (BoolExpr true) [PassStmt]).
  reflexivity.
Defined.

(** X15: the layout of an [if].  Its code is the code of the condition and
    [OP_JMPF] over the then branch; with an else branch the then branch ends
    with [OP_JMP] to the first offset after the statement and [OP_JMPF] aims
    at the else branch, just after that jump; without one [OP_JMPF] aims at
    the first offset after the statement. *)
Theorem if_statement_jumps_over_its_branches :
  forall (FuncDecl : Type)
         (emitFunctionDef emitFunctionExpr emitFunctionOneLiner
            : Chunk -> FuncDecl -> result Chunk),
    (forall c d, fine c (emitFunctionDef c d)) ->
    (forall c d, fine c (emitFunctionExpr c d)) ->
    (forall c d, fine c (emitFunctionOneLiner c d)) ->
    forall (c c' : Chunk) cond (thn els : list (Stmt FuncDecl)),
      emitStmt FuncDecl emitFunctionDef emitFunctionExpr emitFunctionOneLiner c
        (IfStmt cond thn els) = Ok c' ->
      exists c1 c2 condCode thenCode,
        emitExpr c cond = Ok c1 /\ Code c1 = Code c ++ condCode /\
        emitAll (emitStmt FuncDecl emitFunctionDef emitFunctionExpr
                   emitFunctionOneLiner)
          (emitInt (emit c1 OP_JMPF) 0) thn = Ok c2 /\
        Code c2 = Code c1 ++ [OP_JMPF] ++ le_encode 4 0 ++ thenCode /\
        (exists vs, Constants c' = Constants c1 ++ vs) /\
        if 0 <? len els then
          exists c3 elseCode,
            let elseStart := len (Code c2) + 5 in
            Code c3 = Code c ++ condCode ++ [OP_JMPF] ++ le_encode 4 elseStart ++
                      thenCode ++ [OP_JMP] ++ le_encode 4 0 /\
            len (Code c3) = elseStart /\
            (exists c4,
                emitAll (emitStmt FuncDecl emitFunctionDef emitFunctionExpr
                           emitFunctionOneLiner) c3 els = Ok c4 /\
                Code c4 = Code c3 ++ elseCode) /\
            Code c' = Code c ++ condCode ++ [OP_JMPF] ++ le_encode 4 elseStart ++
                      thenCode ++ [OP_JMP] ++ le_encode 4 (len (Code c')) ++ elseCode
        else
          Code c' = Code c ++ condCode ++ [OP_JMPF] ++ le_encode 4 (len (Code c')) ++
                    thenCode.
Proof. exact if_layout. Qed.

Lemma if_statement_layout_witness :
  exists c1 c2 condCode thenCode,
    emitExpr NewChunk (BoolExpr true) = Ok c1 /\
    Code c1 = Code NewChunk ++ condCode /\
    emitAll (emitStmt unit noFunctions noFunctions noFunctions)
      (emitInt (emit c1 OP_JMPF) 0) [PassStmt] = Ok c2 /\
    Code c2 = Code c1 ++ [OP_JMPF] ++ le_encode 4 0 ++ thenCode /\
    (exists vs, Constants ifElseChunk = Constants c1 ++ vs) /\
    if 0 <? len [@ExitStmt unit] then
      exists c3 elseCode,
        let elseStart := len (Code c2) + 5 in
        Code c3 = Code NewChunk ++ condCode ++ [OP_JMPF] ++ le_encode 4 elseStart ++
                  thenCode ++ [OP_JMP] ++ le_encode 4 0 /\
        len (Code c3) = elseStart /\
        (exists c4,
            emitAll (emitStmt unit noFunctions noFunctions noFunctions) c3 [ExitStmt]
            = Ok c4 /\
            Code c4 = Code c3 ++ elseCode) /\
        Code ifElseChunk =
          Code NewChunk ++ condCode ++ [OP_JMPF] ++ le_encode 4 elseStart ++
          thenCode ++ [OP_JMP] ++ le_encode 4 (len (Code ifElseChunk)) ++ elseCode
    else
      Code ifElseChunk =
        Code NewChunk ++ condCode ++ [OP_JMPF] ++
        le_encode 4 (len (Code ifElseChunk)) ++ thenCode.
Proof.
  apply (if_statement_jumps_over_its_branches unit noFunctions noFunctions
           noFunctions noFunctions_fine noFunctions_fine noFunctions_fine
           NewChunk ifElseChunk (BoolExpr true) [PassStmt] [ExitStmt]).
  reflexivity.
Defined.

(** A number lexeme too large for a float64 is read as 0: [ParseFloat]
    reports the range error, [Sscanf] fails and [v] stays 0. *)
Lemma parseNumber_range_error :
  numberLexeme tooLarge = true /\
  ParseFloat (10 ^ 400) 0 = None /\
  parseNumber tooLarge = 0%float /\
  lexemes literalSum = true /\
  valueOf literalSum = 1.5%float.
Proof. repeat split; vm_compute; reflexivity. Qed.

(** Programs with the literal [tooLarge]: it is returned as 0, it ends a
    [while] loop at once, and it sends an [if] to its else branch. *)
Lemma too_large_literal_counts_as_zero :
  forall loadFunction,
    compileAndRun loadFunction 10 [ReturnStmt (NumberExpr tooLarge)]
    = Some (Ok (Some (VFloat 0))) /\
    compileAndRun loadFunction 10
      [WhileStmt (NumberExpr tooLarge) [PassStmt]; ReturnStmt (NumberExpr "7")]
    = Some (Ok (Some (VFloat 7))) /\
    compileAndRun loadFunction 10
      [IfStmt (NumberExpr tooLarge) [ReturnStmt (NumberExpr "1")]
              [ReturnStmt (NumberExpr "2")]]
    = Some (Ok (Some (VFloat 2))).
Proof. intros ld. repeat split; vm_compute; reflexivity. Qed.

(** X16: the code of an expression over literals, its numbers number lexemes
    (a literal too large for a float64 counts as 0), computes its value.  Run
    from the offset where the code of the expression starts, over a pool that
    starts with the constants of the chunk, the machine comes after some
    turns to the offset where that code ends, with the value of the expression
    pushed on the stack it started with and nothing else changed. *)
Theorem compiled_arithmetic_pushes_its_value :
  forall loadFunction (e : Expr) (c c' : Chunk) (vm : VM)
         (rest : list byte) (more : list Value),
    arithmetic e = true -> lexemes e = true ->
    emitExpr c e = Ok c' ->
    code vm = Code c' ++ rest ->
    activePool vm = Constants c' ++ more ->
    len (Constants c') <= 2 ^ 32 ->
    ip vm = len (Code c) -> sp vm = len (stack vm) ->
    exists n,
      stepN loadFunction n vm = Ok (pushed vm (VFloat (valueOf e)) (len (Code c'))).
Proof.
  intros ld e c c' vm rest more Ha _. apply compiled_arithmetic. exact Ha.
Qed.

Lemma compiled_arithmetic_witness :
  exists n,
    stepN unknownFunction n (machine (Constants literalSumChunk) (Code literalSumChunk)) =
    Ok (pushed (machine (Constants literalSumChunk) (Code literalSumChunk))
               (VFloat (valueOf literalSum)) (len (Code literalSumChunk))).
Proof.
  apply (compiled_arithmetic_pushes_its_value unknownFunction literalSum NewChunk
           literalSumChunk
           (machine (Constants literalSumChunk) (Code literalSumChunk)) [] []).
  - reflexivity.
  - reflexivity.
  - reflexivity.
  - reflexivity.
  - reflexivity.
  - vm_compute. discriminate.
  - reflexivity.
  - reflexivity.
Defined.


Lemma returning_witness :
  exists fuel,
    returned (Run unknownFunction fuel
                (machine (Constants literalSumChunk)
                         (Code (emit (emit literalSumChunk OP_RET) OP_RET)))) =
    Some (Ok (Some (VFloat (valueOf literalSum)))).
Proof.
  apply (returning_an_arithmetic_expression unknownFunction unit noFunctions
           noFunctions noFunctions literalSum
           (emit (emit literalSumChunk OP_RET) OP_RET)).
  - reflexivity.
  - reflexivity.
  - reflexivity.
  - vm_compute. discriminate.
Defined.


Lemma while_loop_witness :
  (PrimFloat.eqb (valueOf (BoolExpr true)) 0 = true ->
   exists n,
     stepN unknownFunction n (machine [VFloat 1] (Code whileTrueChunk)) =
     Ok (set_ip (machine [VFloat 1] (Code whileTrueChunk)) (len (Code whileTrueChunk)))) /\
  (PrimFloat.eqb (valueOf (BoolExpr true)) 0 = false ->
   Forall (fun s => s = PassStmt) [@PassStmt unit] ->
   forall fuel,
     Run unknownFunction fuel (machine [VFloat 1] (Code whileTrueChunk)) = None).
Proof.
  apply (while_loop_exits_or_spins unknownFunction unit noFunctions noFunctions
           noFunctions noFunctions_fine noFunctions_fine noFunctions_fine
           NewChunk whileTrueChunk (BoolExpr true) [PassStmt]
           (machine [VFloat 1] (Code whileTrueChunk)) [] []).
  - reflexivity.
  - reflexivity.
  - reflexivity.
  - vm_compute. discriminate.
  - reflexivity.
  - reflexivity.
  - reflexivity.
  - reflexivity.
  - reflexivity.
Defined.


Lemma if_statement_witness :
  exists c1 c2,
    emitExpr NewChunk (BoolExpr true) = Ok c1 /\
    emitAll (emitStmt unit noFunctions noFunctions noFunctions)
      (emitInt (emit c1 OP_JMPF) 0) [PassStmt] = Ok c2 /\
    (exists n,
        stepN unknownFunction n (machine [VFloat 1] (Code ifElseChunk)) =
        Ok (set_ip (machine [VFloat 1] (Code ifElseChunk))
                   (if PrimFloat.eqb (valueOf (BoolExpr true)) 0
                    then if 0 <? len [@ExitStmt unit] then len (Code c2) + 5
                         else len (Code ifElseChunk)
                    else len (Code c1) + 5))) /\
    (forall vm2,
        code vm2 = code (machine [VFloat 1] (Code ifElseChunk)) ->
        ip vm2 = len (Code c2) -> (0 <? len [@ExitStmt unit]) = true ->
        step unknownFunction vm2 = Ok (Next (set_ip vm2 (len (Code ifElseChunk))))).
Proof.
  apply (if_statement_takes_the_branch_of_its_condition unknownFunction unit
           noFunctions noFunctions noFunctions
           noFunctions_fine noFunctions_fine noFunctions_fine
           NewChunk ifElseChunk (BoolExpr true) [PassStmt] [ExitStmt]
           (machine [VFloat 1] (Code ifElseChunk)) [] []).
  - reflexivity.
  - reflexivity.
  - reflexivity.
  - vm_compute. discriminate.
  - reflexivity.
  - reflexivity.
  - reflexivity.
  - reflexivity.
  - reflexivity.
Defined.

(** ** Assignments as statements *)

(** [OP_STORE slot] pops the value and writes it to the slot of the pool. *)
Lemma step_store loadFunction (vm : VM) (pre post : list byte) (slot : Z)
    (st : list Value) (v old : Value) :
  code vm = pre ++ [OP_STORE] ++ le_encode 4 slot ++ post ->
  ip vm = len pre -> 0 <= slot < 2 ^ 32 ->
  stack vm = st ++ [v] -> sp vm = len (stack vm) ->
  index (activePool vm) slot = Ok old ->
  step loadFunction vm =
    Ok (Next (mkVM (constants vm) (code vm) (len pre + 5) (len st) st (callStack vm)
                   (<[constants vm := <[Z.to_nat slot := v]> (activePool vm)]>
                      (pools vm)))).
Proof.
  intros Hc Hip Hs Hst Hsp Hold. unfold step.
  rewrite (index_at (code vm) pre (le_encode 4 slot ++ post) OP_STORE (ip vm) Hc Hip).
  change OP_STORE with x11. cbn [bind]. unfold readInt. cbn [code ip set_ip].
  rewrite (Uint32At_at (code vm) (pre ++ [x11]) post slot (ip vm + 1));
    [| rewrite Hc; list_eq
     | rewrite Hip, len_app; reflexivity | exact Hs].
  cbn [bind].
  rewrite (pop_snoc _ st v); [| exact Hst | exact Hsp].
  cbn [bind]. change (activePool _) with (activePool vm). rewrite Hold. cbn [bind].
  cbn [set_ip constants code ip sp stack callStack pools].
  do 2 f_equal. f_equal. lia.
Qed.

(** X24: an assignment used as a statement underflows the stack.  The code
    of [name = e] as a statement is the code of [e], [OP_STORE] and [OP_POP];
    [OP_STORE] pops the value it stores, so that [OP_POP] finds the stack
    empty: the program of this one statement, [e] over literals, panics with
    "Stack underflow". *)
Theorem assignment_statement_underflows :
  forall loadFunction (FuncDecl : Type)
         (emitFunctionDef emitFunctionExpr emitFunctionOneLiner
            : Chunk -> FuncDecl -> result Chunk)
         (name : string) (e : Expr) (c : Chunk),
    arithmetic e = true ->
    emitMain FuncDecl emitFunctionDef emitFunctionExpr emitFunctionOneLiner
      [ExprStmt (AssignExpr name e)] = Ok c ->
    len (Constants c) <= 2 ^ 32 ->
    exists fuel,
      returned (Run loadFunction fuel (machine (Constants c) (Code c))) =
      Some (Panic (Msg "Stack underflow")).
Proof.
  intros loadFunction FuncDecl eDef eExpr eOne name e c Ha H Hlen.
  unfold emitMain in H. cbn [emitAll emitStmt emitExpr] in H.
  apply bind_Ok_inv in H as (c4 & H & H5).
  apply bind_Ok_inv in H as (c3 & H & H4).
  apply bind_Ok_inv in H as (c2 & H & H3).
  apply bind_Ok_inv in H as (c1 & H1 & H2).
  apply Ok_inj in H2, H3, H4, H5. subst c2 c3 c4 c.
  cbn [addConst emit emitInt fst snd Code Constants] in *.
  rewrite len_app in Hlen. change (len [VString name]) with 1 in Hlen.
  pose proof (len_nonneg (Constants c1)) as Hk.
  set (code0 := (((Code c1 ++ [OP_STORE]) ++ le_encode 4 (len (Constants c1))) ++
                 [OP_POP]) ++ [OP_RET]).
  set (vm := machine (Constants c1 ++ [VString name]) code0).
  destruct (compiled_arithmetic loadFunction e Ha NewChunk c1 vm
              ([OP_STORE] ++ le_encode 4 (len (Constants c1)) ++ [OP_POP] ++ [OP_RET])
              [VString name] H1) as [n Hn];
    [ subst vm code0; cbn [machine code]; list_eq
    | reflexivity | lia | reflexivity | reflexivity |].
  set (vm1 := pushed vm (VFloat (valueOf e)) (len (Code c1))) in *.
  pose proof (step_store loadFunction vm1 (Code c1) ([OP_POP] ++ [OP_RET])
                (len (Constants c1)) [] (VFloat (valueOf e)) (VString name)) as Hstore.
  specialize (Hstore ltac:(subst vm1 vm code0; cbn [pushed machine code]; list_eq)
                     eq_refl ltac:(lia) eq_refl eq_refl
                     ltac:(apply index_app_here)).
  match type of Hstore with
  | _ = Ok (Next ?v) => set (vm2 := v) in *
  end.
  exists (n + (1 + 1))%nat. rewrite (Run_stepN _ _ _ _ _ Hn).
  rewrite (Run_stepN _ 1%nat vm1 vm2 1%nat (stepN_one _ _ _ Hstore)).
  assert (Hop : index (code vm2) (ip vm2) = Ok OP_POP).
  { apply (index_at _ (Code c1 ++ [OP_STORE] ++ le_encode 4 (len (Constants c1)))
             [OP_RET]).
    - subst vm2 vm1 vm code0. cbn [pushed machine code]. list_eq.
    - subst vm2. cbn [ip]. rewrite !len_app, len_le_encode.
      change (len [OP_STORE]) with 1. lia. }
  assert (Hstep : step loadFunction vm2 = Panic (Msg "Stack underflow")).
  { unfold step. rewrite Hop. reflexivity. }
  cbn [Run].
  replace (ip vm2 <? len (code vm2)) with true
    by (symmetry; apply Z.ltb_lt; apply index_Ok_lookup in Hop as [Hr _]; lia).
  rewrite Hstep. reflexivity.
Qed.

Lemma assignment_statement_witness :
  exists fuel,
    returned (Run unknownFunction fuel
                (machine (Constants assignmentChunk) (Code assignmentChunk))) =
    Some (Panic (Msg "Stack underflow")).
Proof.
  apply (assignment_statement_underflows unknownFunction unit noFunctions noFunctions
           noFunctions "x" (BoolExpr true) assignmentChunk).
  - reflexivity.
  - reflexivity.
  - vm_compute. discriminate.
Defined.

(** ** The lexer: loops, tokens and fuel *)

Ltac case_if :=
  match goal with
  | |- context [if ?c then _ else _] => destruct c eqn:?
  end.

Section LexerFacts.

Import lexer.

Lemma isAtEnd_false (l : Lexer) : isAtEnd l = false <-> pos l < len (src l).
Proof. unfold isAtEnd. rewrite Z.leb_gt. reflexivity. Qed.

Lemma isAtEnd_true (l : Lexer) : isAtEnd l = true <-> len (src l) <= pos l.
Proof. unfold isAtEnd. rewrite Z.leb_le. reflexivity. Qed.

Lemma steps_refl (l : Lexer) : pos l <= len (src l) -> steps l l.
Proof. unfold steps. intros H. repeat split; lia. Qed.

Lemma steps_trans (l1 l2 l3 : Lexer) : steps l1 l2 -> steps l2 l3 -> steps l1 l3.
Proof.
  unfold steps. intros (A1 & A2 & A3 & A4) (B1 & B2 & B3 & B4).
  repeat split; try congruence; lia.
Qed.

Lemma advance_steps (l : Lexer) :
  isAtEnd l = false ->
  steps l (snd (advance l)) /\ pos (snd (advance l)) = pos l + 1.
Proof.
  intros H. unfold advance. rewrite H. cbn [snd pos src indentStack startOfLine].
  apply isAtEnd_false in H. unfold steps. cbn [pos src indentStack startOfLine].
  repeat split; lia.
Qed.

Lemma nextLine_steps (l : Lexer) : pos l <= len (src l) -> steps l (nextLine l).
Proof. unfold steps, nextLine. cbn. intros H. repeat split; lia. Qed.

Lemma peek_at_end (l : Lexer) : peek l <> 0 -> isAtEnd l = false.
Proof. unfold peek. destruct (isAtEnd l); congruence. Qed.

Lemma peekNext_at_end (l : Lexer) : peekNext l <> 0 -> pos l + 1 < len (src l).
Proof.
  unfold peekNext. destruct (len (src l) <=? pos l + 1) eqn:E; [congruence |].
  intros _. apply Z.leb_gt in E. exact E.
Qed.

Lemma peekThird_at_end (l : Lexer) : peekThird l <> 0 -> pos l + 2 < len (src l).
Proof.
  unfold peekThird. destruct (len (src l) <=? pos l + 2) eqn:E; [congruence |].
  intros _. apply Z.leb_gt in E. exact E.
Qed.

Lemma remaining_lt (l l' : Lexer) :
  src l' = src l -> pos l < pos l' -> pos l' <= len (src l') ->
  (remaining l' < remaining l)%nat.
Proof. unfold remaining. intros -> H1 H2. lia. Qed.

Lemma remaining_le (l l' : Lexer) :
  steps l l' -> (remaining l' <= remaining l)%nat.
Proof. unfold remaining. intros (-> & _ & _ & H). lia. Qed.

(** The loops: with a turn more than runes left, a loop whose body goes on
    only by reading ends, having kept what its body keeps. *)
Lemma forNotAtEnd_steps {S : Type} (lexerOf : S -> Lexer) (body : S -> flow S)
    (J : S -> Prop) :
  (forall s, J s -> isAtEnd (lexerOf s) = false ->
     match body s with
     | Continue s' =>
         J s' /\ steps (lexerOf s) (lexerOf s') /\ pos (lexerOf s) < pos (lexerOf s')
     | Break s' => J s' /\ steps (lexerOf s) (lexerOf s')
     end) ->
  forall (fuel : nat) (s : S),
    J s -> pos (lexerOf s) <= len (src (lexerOf s)) ->
    (remaining (lexerOf s) < fuel)%nat ->
    exists s',
      forNotAtEnd lexerOf body fuel s = Some s' /\ J s' /\
      steps (lexerOf s) (lexerOf s') /\
      (isAtEnd (lexerOf s) = false -> (exists s1, body s = Continue s1) ->
       pos (lexerOf s) < pos (lexerOf s')).
Proof.
  intros Hbody. induction fuel as [| fuel IH]; intros s HJ Hpos Hfuel; [lia |].
  cbn [forNotAtEnd]. destruct (isAtEnd (lexerOf s)) eqn:E.
  - exists s. split; [reflexivity |]. split; [exact HJ |].
    split; [apply steps_refl; exact Hpos | discriminate].
  - specialize (Hbody s HJ E). destruct (body s) as [s1 | s1].
    + destruct Hbody as (HJ1 & Hst & Hlt).
      destruct (IH s1 HJ1) as (s' & Hrun & HJ' & Hst' & _).
      * destruct Hst as (_ & _ & _ & H). lia.
      * pose proof Hst as (Hsrc & _ & _ & Hle).
        pose proof (remaining_lt (lexerOf s) (lexerOf s1) Hsrc Hlt ltac:(lia)). lia.
      * exists s'. split; [exact Hrun |]. split; [exact HJ' |].
        split; [eapply steps_trans; eassumption |].
        intros _ _. destruct Hst' as (_ & _ & _ & H). lia.
    + destruct Hbody as (HJ1 & Hst).
      exists s1. split; [reflexivity |]. split; [exact HJ1 |].
      split; [exact Hst |]. intros _ [s2 H]. discriminate.
Qed.

(** The same for a loop on the lexer alone. *)
Lemma loop_steps (body : Lexer -> flow Lexer) :
  (forall l, isAtEnd l = false ->
     match body l with
     | Continue l' => steps l l' /\ pos l < pos l'
     | Break l' => steps l l'
     end) ->
  forall (fuel : nat) (l : Lexer),
    pos l <= len (src l) -> (remaining l < fuel)%nat ->
    exists l',
      forNotAtEnd id body fuel l = Some l' /\ steps l l' /\
      (isAtEnd l = false -> (exists l1, body l = Continue l1) -> pos l < pos l').
Proof.
  intros Hbody fuel l Hpos Hfuel.
  destruct (forNotAtEnd_steps id body (fun _ => True)) with (fuel := fuel) (s := l)
    as (l' & H1 & _ & H2 & H3); try assumption; try exact I.
  - intros s _ E. specialize (Hbody s E). unfold id.
    destruct (body s); [destruct Hbody |]; auto.
  - exists l'. auto.
Qed.

Lemma advance_newline_steps (l : Lexer) :
  isAtEnd l = false ->
  let '(ch, l') := advance l in
  steps l (if ch =? newline then nextLine l' else l') /\
  pos l < pos (if ch =? newline then nextLine l' else l').
Proof.
  intros E. destruct (advance_steps l E) as [Hst Hp].
  destruct (advance l) as [ch l'] eqn:Ha. cbn [snd] in *.
  destruct (ch =? newline).
  - split.
    + eapply steps_trans; [exact Hst |]. apply nextLine_steps.
      destruct Hst as (_ & _ & _ & H). lia.
    + cbn [nextLine pos]. lia.
  - split; [exact Hst | lia].
Qed.

Ltac loop_body Hb :=
  match goal with
  | |- context [forNotAtEnd id ?b _ _] =>
      assert (Hb : forall l0, isAtEnd l0 = false ->
                   match b l0 with
                   | Continue l' => steps l0 l' /\ pos l0 < pos l'
                   | Break l' => steps l0 l'
                   end); [intros l0 E0; cbv beta zeta |]
  end.

Lemma skipWhitespaceExceptNewline_steps (fuel : nat) (l : Lexer) :
  pos l <= len (src l) -> (remaining l < fuel)%nat ->
  exists l', skipWhitespaceExceptNewline fuel l = Some l' /\ steps l l'.
Proof.
  intros Hpos Hfuel. unfold skipWhitespaceExceptNewline. loop_body Hb.
  - case_if.
    + destruct (advance_steps l0 E0). split; [assumption | lia].
    + apply steps_refl. apply isAtEnd_false in E0. lia.
  - destruct (loop_steps _ Hb fuel l Hpos Hfuel) as (l' & H1 & H2 & _).
    exists l'. split; [exact H1 | exact H2].
Qed.

Lemma skipLineComment_steps (fuel : nat) (l : Lexer) :
  isAtEnd l = false -> (peek l =? newline) = false -> (remaining l < fuel)%nat ->
  exists l', skipLineComment fuel l = Some l' /\ steps l l' /\ pos l < pos l'.
Proof.
  intros E Hnl Hfuel. unfold skipLineComment. loop_body Hb.
  - case_if.
    + destruct (advance_steps l0 E0). split; [assumption | lia].
    + apply steps_refl. apply isAtEnd_false in E0. lia.
  - destruct (loop_steps _ Hb fuel l) as (l' & H1 & H2 & H3);
      [apply isAtEnd_false in E; lia | exact Hfuel |].
    exists l'. split; [exact H1 |]. split; [exact H2 |].
    apply H3; [exact E |]. rewrite Hnl. cbn [negb]. eexists. reflexivity.
Qed.

Lemma skipBlockComment_steps (fuel : nat) (l : Lexer) :
  pos l + 1 < len (src l) -> 0 <= pos l -> (remaining l < fuel)%nat ->
  exists l', skipBlockComment fuel l = Some l' /\ steps l l' /\ pos l < pos l'.
Proof.
  intros Hin Hpos Hfuel. unfold skipBlockComment.
  assert (E : isAtEnd l = false) by (apply isAtEnd_false; lia).
  destruct (advance_steps l E) as [S1 P1]. set (l1 := snd (advance l)) in *.
  assert (E1 : isAtEnd l1 = false).
  { apply isAtEnd_false. destruct S1 as (-> & _). lia. }
  destruct (advance_steps l1 E1) as [S2 P2]. set (l2 := snd (advance l1)) in *.
  loop_body Hb.
  - destruct (_ && _) eqn:Hclose.
    + apply andb_true_iff in Hclose as [_ Hn]. apply Z.eqb_eq in Hn.
      assert (Hin0 : pos l0 + 1 < len (src l0)).
      { apply peekNext_at_end. rewrite Hn. discriminate. }
      destruct (advance_steps l0 E0) as [T1 Q1]. set (m1 := snd (advance l0)) in *.
      assert (F1 : isAtEnd m1 = false).
      { apply isAtEnd_false. destruct T1 as (-> & _). lia. }
      destruct (advance_steps m1 F1) as [T2 Q2].
      eauto using steps_trans.
    + pose proof (advance_newline_steps l0 E0) as H.
      destruct (advance l0) as [ch l0']. exact H.
  - destruct (loop_steps _ Hb fuel l2) as (l' & H1 & H2 & _).
    + destruct S2 as (_ & _ & _ & H). lia.
    + pose proof (remaining_le _ _ S1). pose proof (remaining_le _ _ S2). lia.
    + exists l'. split; [exact H1 |].
      split; [eauto using steps_trans |].
      destruct H2 as (_ & _ & _ & H). lia.
Qed.

Lemma keyword_ordinary (lex : list rune) :
  stackMove (keyword lex) = 0 /\ keyword lex <> EOF.
Proof.
  unfold keyword.
  repeat match goal with
         | |- context [if ?b then _ else _] => destruct b
         end; split; (reflexivity || discriminate).
Qed.

Variable IsLetter IsDigit : rune -> bool.

Lemma lexIdentifierOrKeyword_lexes (fuel : nat) (l : Lexer) :
  isAtEnd l = false ->
  (isLetter IsLetter (peek l) || (peek l =? rn "_")) = true ->
  (remaining l < fuel)%nat ->
  exists r, lexIdentifierOrKeyword IsLetter IsDigit fuel l = Some r /\ lexes l r.
Proof.
  intros E Hfirst Hfuel. unfold lexIdentifierOrKeyword. loop_body Hb.
  - case_if.
    + destruct (advance_steps l0 E0). split; [assumption | lia].
    + apply steps_refl. apply isAtEnd_false in E0. lia.
  - destruct (loop_steps _ Hb fuel l) as (l' & H1 & H2 & H3);
      [apply isAtEnd_false in E; lia | exact Hfuel |].
    rewrite H1. cbn [andThen]. eexists. split; [reflexivity |].
    unfold lexes. cbn [fst snd Type_]. split; [exact H2 |]. split.
    + apply H3; [exact E |].
      assert (Hc : (isLetter IsLetter (peek l) || isDigit IsDigit (peek l) ||
                    (peek l =? rn "_")) = true).
      { apply orb_true_iff in Hfirst as [H | H]; rewrite H;
          rewrite ?orb_true_r; reflexivity. }
      rewrite Hc. eexists. reflexivity.
    + destruct (keyword_ordinary (lexeme l' (pos l) (pos l'))) as [Hm He].
      split; [exact Hm |]. unfold isEOF. cbn [Type_].
      destruct (keyword _); try reflexivity. congruence.
Qed.

Lemma lexNumber_lexes (fuel : nat) (l : Lexer) :
  isAtEnd l = false -> isDigit IsDigit (peek l) = true ->
  (remaining l < fuel)%nat ->
  exists r, lexNumber IsDigit fuel l = Some r /\ lexes l r.
Proof.
  intros E Hfirst Hfuel. unfold lexNumber.
  match goal with
  | |- context [forNotAtEnd snd ?b _ _] =>
      destruct (forNotAtEnd_steps snd b (fun _ => True)) with (fuel := fuel) (s := (false, l))
        as ([d l'] & H1 & _ & H2 & H3)
  end.
  - intros [d l0] _ E0. cbn [snd] in *. cbv zeta.
    destruct (isDigit IsDigit (peek l0)).
    + destruct (advance_steps l0 E0). cbn [snd].
      split; [exact I |]. split; [assumption | lia].
    + case_if.
      * destruct (advance_steps l0 E0). cbn [snd].
      split; [exact I |]. split; [assumption | lia].
      * cbn [snd]. split; [exact I |]. apply steps_refl.
        apply isAtEnd_false in E0. lia.
  - exact I.
  - cbn [snd]. apply isAtEnd_false in E. lia.
  - exact Hfuel.
  - rewrite H1. cbn [andThen]. eexists. split; [reflexivity |].
    unfold lexes. cbn [fst snd Type_ stackMove isEOF] in *.
    split; [exact H2 |]. split; [| split; reflexivity].
    apply H3; [exact E |]. rewrite Hfirst. eexists. reflexivity.
Qed.

Lemma lexString_lexes (quote : rune) (fuel : nat) (l : Lexer) :
  isAtEnd l = false -> (remaining l < fuel)%nat ->
  exists r, lexString quote fuel l = Some r /\ lexes l r.
Proof.
  intros E Hfuel. unfold lexString.
  destruct (advance_steps l E) as [S1 P1]. set (l1 := snd (advance l)) in *.
  loop_body Hb.
  - case_if.
    + pose proof (advance_newline_steps l0 E0) as H.
      destruct (advance l0) as [ch l0']. exact H.
    + apply steps_refl. apply isAtEnd_false in E0. lia.
  - destruct (loop_steps _ Hb fuel l1) as (l' & H1 & H2 & _).
    + destruct S1 as (_ & _ & _ & H). lia.
    + pose proof (remaining_le _ _ S1). lia.
    + rewrite H1. cbn [andThen]. eexists. split; [reflexivity |].
      unfold lexes. cbn [fst snd Type_ stackMove isEOF].
      assert (Hl' : steps l l') by eauto using steps_trans.
      destruct (negb (isAtEnd l')) eqn:E'.
      * apply negb_true_iff in E'. destruct (advance_steps l' E') as [S3 P3].
        split; [eauto using steps_trans |].
        split; [| split; reflexivity].
        destruct H2 as (_ & _ & _ & H). lia.
      * split; [exact Hl' |]. split; [| split; reflexivity].
        destruct H2 as (_ & _ & _ & H). lia.
Qed.

Lemma lexTripleString_lexes (fuel : nat) (l : Lexer) :
  0 <= pos l -> pos l + 2 < len (src l) -> (remaining l < fuel)%nat ->
  exists r, lexTripleString fuel l = Some r /\ lexes l r.
Proof.
  intros Hpos Hin Hfuel. unfold lexTripleString.
  assert (E : isAtEnd l = false) by (apply isAtEnd_false; lia).
  destruct (advance_steps l E) as [S1 P1]. set (l1 := snd (advance l)) in *.
  assert (E1 : isAtEnd l1 = false).
  { apply isAtEnd_false. destruct S1 as (-> & _). lia. }
  destruct (advance_steps l1 E1) as [S2 P2]. set (l2 := snd (advance l1)) in *.
  assert (E2 : isAtEnd l2 = false).
  { apply isAtEnd_false. destruct S2 as (-> & _). destruct S1 as (-> & _). lia. }
  destruct (advance_steps l2 E2) as [S3 P3]. set (l3 := snd (advance l2)) in *.
  assert (S03 : steps l l3) by eauto using steps_trans.
  loop_body Hb.
  - case_if.
    + apply steps_refl. apply isAtEnd_false in E0. lia.
    + pose proof (advance_newline_steps l0 E0) as H.
      destruct (advance l0) as [ch l0']. exact H.
  - destruct (loop_steps _ Hb fuel l3) as (l' & H1 & H2 & _).
    + destruct S3 as (_ & _ & _ & H). lia.
    + pose proof (remaining_le _ _ S03). lia.
    + rewrite H1. cbn [andThen]. eexists. split; [reflexivity |].
      unfold lexes. cbn [fst snd Type_ stackMove isEOF].
      assert (Hl' : steps l l') by eauto using steps_trans.
      assert (Hlt : pos l < pos l') by (destruct H2 as (_ & _ & _ & H); lia).
      destruct (negb (isAtEnd l')) eqn:E'; [| auto].
      assert (Hadv : forall m, steps l m -> steps l (snd (advance m)) /\
                               pos m <= pos (snd (advance m))).
      { intros m Hm. destruct (isAtEnd m) eqn:Em.
        - unfold advance. rewrite Em. cbn [snd]. split; [exact Hm | lia].
        - destruct (advance_steps m Em). split; [eauto using steps_trans | lia]. }
      destruct (Hadv l' Hl') as [A1 B1].
      destruct (Hadv _ A1) as [A2 B2]. destruct (Hadv _ A2) as [A3 B3].
      split; [exact A3 |]. split; [lia | split; reflexivity].
Qed.

Lemma lexSymbol_lexes (l : Lexer) :
  isAtEnd l = false -> lexes l (lexSymbol l).
Proof.
  intros E. unfold lexSymbol.
  destruct (advance_steps l E) as [S1 P1].
  destruct (advance l) as [ch l1] eqn:Ha. cbn [snd] in *.
  assert (Hsec : forall c : ascii, rn c <> 0 -> followedBy l1 c = true ->
                 steps l (snd (advance l1)) /\ pos l < pos (snd (advance l1))).
  { intros c Hc Hf. unfold followedBy in Hf. apply Z.eqb_eq in Hf.
    assert (E1 : isAtEnd l1 = false) by (apply peek_at_end; congruence).
    destruct (advance_steps l1 E1) as [S2 P2].
    split; [eauto using steps_trans | lia]. }
  assert (Hone : steps l l1 /\ pos l < pos l1) by (split; [exact S1 | lia]).
  unfold lexes.
  repeat match goal with
         | |- context [if ?b then _ else _] => destruct b eqn:?
         end;
    cbn [fst snd Type_ symbol stackMove isEOF];
    (split; [| split; [| split; reflexivity]]);
    first [ apply Hone
          | eapply Hsec; [| eassumption]; discriminate ].
Qed.

End LexerFacts.

Section LexerTokens.

Import lexer.

Variable IsLetter IsDigit : rune -> bool.

Ltac proj := cbn [setStartOfLine setIndentStack nextLine src pos indentStack
                  startOfLine line col fst snd Type_ stackMove isEOF closes] in *.

Lemma index_last (init : list Z) (top : Z) :
  index (init ++ [top]) (len (init ++ [top]) - 1) = Ok top.
Proof.
  replace (len (init ++ [top]) - 1) with (len init)
    by (rewrite len_app; change (len [top]) with 1; lia).
  apply index_app_here.
Qed.

Lemma stack_top (l : Lexer) :
  wellFormed l ->
  exists init top,
    indentStack l = init ++ [top] /\ 0 <= top /\
    (init = [] -> top = 0) /\
    (init <> [] -> exists rest, init = 0 :: rest) /\
    Forall (fun n => 0 <= n) init.
Proof.
  intros (_ & [rest Hst] & Hall).
  destruct (exists_last (l := indentStack l)) as (init & top & Hlast);
    [rewrite Hst; discriminate |].
  exists init, top. rewrite Hlast in Hall, Hst.
  apply Forall_app in Hall as [Hi Ht]. inversion Ht; subst.
  split; [exact Hlast |]. split; [assumption |]. split; [| split; [| exact Hi]].
  - intros ->. cbn in Hst. congruence.
  - intros Hne. destruct init as [| x init']; [congruence |].
    cbn in Hst. inversion Hst. eauto.
Qed.

Lemma lexes_tokenFrom (l l1 : Lexer) (r : Token * Lexer) :
  wellFormed l -> steps l l1 -> lexes l1 r -> tokenFrom l (fst r) (snd r).
Proof.
  intros (Hpos & Hst & Hall) (A1 & A2 & A3 & A4) ((B1 & B2 & B3 & B4) & Blt & Bm & Be).
  assert (Hc : closes (Type_ (fst r)) = false).
  { unfold isEOF in Be. destruct (Type_ (fst r)); try reflexivity;
      cbn in Bm, Be; congruence. }
  unfold tokenFrom, wellFormed, measure.
  rewrite B1, B2, B3, A1, A2, A3, Bm, Be, Hc in *.
  repeat split; try assumption; try lia; try discriminate.
Qed.

Lemma nextToken_spec :
  forall (fuel : nat) (l : Lexer),
    wellFormed l ->
    (remaining l + 1 + (if startOfLine l then 1 else 0) <= fuel)%nat ->
    exists tok l',
      nextToken IsLetter IsDigit fuel l = Some (Ok (tok, l')) /\ tokenFrom l tok l'.
Proof.
  induction fuel as [| fuel IH]; intros l Hwf Hfuel; [lia |].
  pose proof Hwf as (Hpos & Hst & Hall).
  (* a call of [nextToken] by itself, from a lexer that is further on *)
  assert (Hrec : forall m,
             src m = src l -> indentStack m = indentStack l -> startOfLine m = false ->
             pos l <= pos m <= len (src m) ->
             startOfLine l = true \/ pos l < pos m ->
             exists tok l',
               nextToken IsLetter IsDigit fuel m = Some (Ok (tok, l')) /\
               tokenFrom l tok l').
  { intros m M1 M2 M3 M4 M5.
    destruct (IH m) as (tok & l' & Hn & Hw' & Hd & He & Hm & Hc5 & Hc6).
    - unfold wellFormed. rewrite M2. repeat split; try assumption; lia.
    - rewrite M3. unfold remaining in *. rewrite M1 in *.
      destruct M5 as [M5 | M5]; [rewrite M5 in Hfuel |]; destruct (startOfLine l); lia.
    - exists tok, l'. split; [exact Hn |]. unfold tokenFrom.
      rewrite M2 in Hd.
      split; [exact Hw' |]. split; [exact Hd |]. split; [exact He |].
      split; [| split; [exact Hc5 | intros _; exact (Hc6 M3)]].
      intros Hne. specialize (Hm Hne). unfold measure in *.
      rewrite M1, M2, M3 in Hm.
      destruct M5 as [M5 | M5]; [rewrite M5 |]; destruct (startOfLine l); lia. }
  cbn [nextToken]. destruct (startOfLine l) eqn:Hflag.
  - (* lexIndentation *)
    unfold lexIndentation.
    set (l0 := setStartOfLine l false).
    match goal with
    | |- context [forNotAtEnd snd ?b _ _] =>
        destruct (forNotAtEnd_steps snd b
                    (fun s => 0 <= fst s /\ pos l0 <= pos (snd s) /\
                              (0 < fst s -> pos l0 < pos (snd s))))
          with (fuel := S fuel) (s := (0, l0))
          as ([count l1] & H1 & (Hc0 & _ & Hc1) & (A1 & A2 & A3 & A4) & _)
    end.
    + intros [n m] (J1 & J2 & J3) E0. cbn [fst snd] in *. cbv zeta.
      destruct (advance_steps m E0) as [S1 P1].
      pose proof S1 as (_ & _ & _ & S4).
      case_if; [| case_if]; cbn [fst snd].
      * split; [split; [lia | split; [lia | intros _; lia]] |].
        split; [exact S1 | lia].
      * split; [split; [lia | split; [lia | intros _; lia]] |].
        split; [exact S1 | lia].
      * split; [split; [| split]; assumption |]. apply steps_refl.
        apply isAtEnd_false in E0. lia.
    + cbn [fst snd]. split; [lia | split; lia].
    + subst l0. proj. lia.
    + subst l0. unfold remaining in *. proj. lia.
    + rewrite H1. cbn [andThen]. subst l0. proj.
      case_if.
      * apply Hrec; proj;
          first [assumption | reflexivity | lia | (left; exact Hflag)].
      * destruct (stack_top l Hwf) as (init & top & Hi & Htop & Hnil & Hcons & Hinit).
        rewrite A2, Hi, index_last.
        destruct (top <? count) eqn:Hgt; [| destruct (count <? top) eqn:Hlt].
        -- (* INDENT *)
           apply Z.ltb_lt in Hgt. eexists. eexists. split; [reflexivity |].
           unfold tokenFrom, wellFormed, measure. proj.
           rewrite A1, A3, Hi in *.
           destruct Hst as [rest Hrest]. rewrite Hrest.
           split; [split; [lia | split; [eexists; reflexivity |]] |].
           { rewrite <- Hrest. apply Forall_app. split; [exact Hall |].
             constructor; [lia | constructor]. }
           split; [rewrite !len_app; change (len [count]) with 1; lia |].
           split; [discriminate |].
           split; [| split; discriminate]. intros _.
           rewrite Hflag, !len_app. change (len [count]) with 1.
           specialize (Hc1 ltac:(lia)). lia.
        -- (* DEDENT *)
           apply Z.ltb_lt in Hlt. eexists. eexists. split; [reflexivity |].
           unfold tokenFrom, wellFormed, measure. proj.
           rewrite removelast_last. rewrite A1, A3, Hi in *.
           assert (Hne : init <> []) by (intros ->; specialize (Hnil eq_refl); lia).
           destruct (Hcons Hne) as [rest' Hrest'].
           split; [split; [lia | split; [eexists; exact Hrest' | exact Hinit]] |].
           split; [rewrite len_app; change (len [top]) with 1; lia |].
           split; [discriminate |].
           split; [| split; [reflexivity | rewrite Hflag; discriminate]]. intros _.
           rewrite Hflag, len_app. change (len [top]) with 1. lia.
        -- apply Hrec; proj;
             first [assumption | reflexivity | lia | (left; exact Hflag)].
  - (* the text of a line *)
    destruct (skipWhitespaceExceptNewline_steps (S fuel) l) as (l1 & -> & Hs1);
      [lia | unfold remaining in *; lia |].
    cbn [andThen]. pose proof Hs1 as (A1 & A2 & A3 & A4).
    assert (Hr1 : (remaining l1 < S fuel)%nat)
      by (pose proof (remaining_le _ _ Hs1); lia).
    assert (Hlex : forall o,
               (exists r, o = Some r /\ lexes l1 r) ->
               exists tok l',
                 andThen o (fun r => Some (Ok r)) = Some (Ok (tok, l')) /\
                 tokenFrom l tok l').
    { intros o ([tok l'] & -> & Hl). exists tok, l'. split; [reflexivity |].
      apply (lexes_tokenFrom l l1 (tok, l') Hwf Hs1 Hl). }
    destruct (isAtEnd l1) eqn:E1.
    + (* the end of the source *)
      destruct (stack_top l Hwf) as (init & top & Hi & Htop & Hnil & Hcons & Hinit).
      destruct (1 <? len (indentStack l1)) eqn:Hdeep.
      * apply Z.ltb_lt in Hdeep. eexists. eexists. split; [reflexivity |].
        unfold tokenFrom, wellFormed, measure. proj.
        rewrite A1, A2, A3, Hi in *. rewrite removelast_last.
        rewrite len_app in Hdeep. change (len [top]) with 1 in Hdeep.
        assert (Hne : init <> [])
          by (intros ->; change (len (@nil Z)) with 0 in Hdeep; lia).
        destruct (Hcons Hne) as [rest' Hrest'].
        split; [split; [lia | split; [eexists; exact Hrest' | exact Hinit]] |].
        split; [rewrite len_app; change (len [top]) with 1; lia |].
        split; [discriminate |].
        split; [| split; [intros _; congruence | intros _ _; exact E1]]. intros _.
        rewrite len_app. change (len [top]) with 1. lia.
      * apply Z.ltb_ge in Hdeep. eexists. eexists. split; [reflexivity |].
        unfold tokenFrom, wellFormed, measure. proj.
        rewrite A1, A2, A3 in *.
        split; [split; [lia | split; assumption] |].
        split; [lia |].
        split; [| split; [discriminate | split; [intros _; congruence
                                                | intros _ _; exact E1]]].
        intros _.
        destruct Hst as [rest Hrest]. rewrite Hrest, len_cons in *.
        pose proof (len_nonneg rest). lia.
    + cbv zeta.
      assert (Hin1 : pos l1 < len (src l1)) by (apply isAtEnd_false; exact E1).
      destruct (peek l1 =? newline) eqn:Hnl.
      { (* NEWLINE *)
        destruct (advance_steps l1 E1) as [(B1 & B2 & B3 & B4) P1].
        eexists. eexists. split; [reflexivity |].
        unfold tokenFrom, wellFormed, measure. proj.
        rewrite B1, B2, A1, A2, Hflag in *.
        split; [split; [lia | split; assumption] |].
        split; [lia |]. split; [discriminate |].
        split; [intros _; lia | split; discriminate]. }
      destruct (peek l1 =? rn "#") eqn:Hcomment.
      { destruct (skipLineComment_steps (S fuel) l1 E1 Hnl Hr1)
          as (l2 & -> & (B1 & B2 & B3 & B4) & Blt).
        cbn [andThen]. apply Hrec; try congruence; [lia | right; lia]. }
      destruct ((peek l1 =? rn "/") && (peekNext l1 =? rn "*")) eqn:Hblock.
      { apply andb_true_iff in Hblock as [_ Hn]. apply Z.eqb_eq in Hn.
        assert (Hin2 : pos l1 + 1 < len (src l1))
          by (apply peekNext_at_end; rewrite Hn; discriminate).
        destruct (skipBlockComment_steps (S fuel) l1 Hin2 ltac:(lia) Hr1)
          as (l2 & -> & (B1 & B2 & B3 & B4) & Blt).
        cbn [andThen]. apply Hrec; try congruence; [lia | right; lia]. }
      destruct (isLetter IsLetter (peek l1) || (peek l1 =? rn "_")) eqn:Hletter.
      { apply Hlex. apply lexIdentifierOrKeyword_lexes; assumption. }
      destruct (isDigit IsDigit (peek l1)) eqn:Hdigit.
      { apply Hlex. apply lexNumber_lexes; assumption. }
      destruct (peek l1 =? doubleQuote) eqn:Hquote.
      { destruct ((peekNext l1 =? doubleQuote) && (peekThird l1 =? doubleQuote))
          eqn:Htriple.
        - apply andb_true_iff in Htriple as [_ Hn]. apply Z.eqb_eq in Hn.
          assert (Hin3 : pos l1 + 2 < len (src l1))
            by (apply peekThird_at_end; rewrite Hn; discriminate).
          apply Hlex. apply lexTripleString_lexes; [lia | assumption | assumption].
        - apply Hlex. apply lexString_lexes; assumption. }
      destruct (peek l1 =? singleQuote) eqn:Hsingle.
      { apply Hlex. apply lexString_lexes; assumption. }
      eexists. eexists. split; [apply f_equal, f_equal, surjective_pairing |].
      apply (lexes_tokenFrom l l1 _ Hwf Hs1). apply lexSymbol_lexes. exact E1.
Qed.

Lemma Lex_spec :
  forall (fuel : nat) (l : Lexer),
    wellFormed l -> (Z.to_nat (measure l) + 1 <= fuel)%nat ->
    exists tokens,
      Lex IsLetter IsDigit fuel l = Some (Ok tokens) /\
      (exists init eof, tokens = init ++ [eof] /\ isEOF eof = true /\
                        Forall (fun tok => isEOF tok = false) init) /\
      len (indentStack l) + balance tokens = 1 /\
      (forall k : nat, 1 <= len (indentStack l) + balance (take k tokens)).
Proof.
  induction fuel as [| fuel IH]; intros l Hwf Hfuel; [lia |].
  pose proof Hwf as (Hpos & [rest Hst] & Hall).
  assert (Hdepth : 1 <= len (indentStack l))
    by (rewrite Hst, len_cons; pose proof (len_nonneg rest); lia).
  destruct (nextToken_spec (S fuel) l Hwf) as (tok & l' & Hn & Hw' & Hd & He & Hm & _).
  { unfold measure, remaining in *. destruct (startOfLine l); lia. }
  cbn [Lex]. rewrite Hn. destruct (isEOF tok) eqn:E.
  - exists [tok]. split; [reflexivity |]. specialize (He eq_refl).
    split; [exists [], tok; repeat split; [exact E | constructor] |].
    assert (Hb : len (indentStack l) + balance [tok] = 1)
      by (cbn [balance fold_right]; lia).
    split; [exact Hb |].
    intros [| k]; cbn [take]; [cbn [balance fold_right]; lia |].
    rewrite take_nil. exact (Z.eq_le_incl _ _ (eq_sym Hb)).
  - specialize (Hm eq_refl).
    destruct (IH l' Hw') as (tokens & -> & (init & eof & -> & Heof & Hinit) & Hb & Hpre).
    { pose proof Hw' as (Hpos' & [rest' Hst'] & _).
      unfold measure in *. rewrite Hst', len_cons in *.
      pose proof (len_nonneg rest'). destruct (startOfLine l'); lia. }
    exists (tok :: init ++ [eof]). split; [reflexivity |].
    split; [exists (tok :: init), eof; repeat split;
            [exact Heof | constructor; assumption] |].
    split; [cbn [balance fold_right]; fold (balance (init ++ [eof])); lia |].
    intros [| k]; cbn [take balance fold_right]; [lia |].
    fold (balance (take k (init ++ [eof]))). specialize (Hpre k). lia.
Qed.

End LexerTokens.

Section LexerFuel.

Import lexer.

Lemma forNotAtEnd_monotone {S : Type} (lexerOf : S -> Lexer) (body : S -> flow S) :
  fuelMonotone (forNotAtEnd lexerOf body).
Proof.
  intros fuel. induction fuel as [| fuel IH]; intros fuel' s s' H Hle; [discriminate |].
  destruct fuel' as [| fuel']; [lia |]. cbn [forNotAtEnd] in *.
  destruct (isAtEnd (lexerOf s)); [exact H |].
  destruct (body s); [| exact H]. apply (IH fuel'); [exact H | lia].
Qed.

Lemma andThen_monotone {A B C : Type} (f : nat -> A -> option B) (k : B -> option C) :
  fuelMonotone f -> fuelMonotone (fun fuel a => andThen (f fuel a) k).
Proof.
  intros Hf fuel fuel' a c H Hle. cbv beta in *.
  destruct (f fuel a) as [b |] eqn:E; [| discriminate].
  rewrite (Hf _ _ _ _ E Hle). exact H.
Qed.

Lemma skipWhitespaceExceptNewline_monotone : fuelMonotone skipWhitespaceExceptNewline.
Proof. apply forNotAtEnd_monotone. Qed.

Lemma skipLineComment_monotone : fuelMonotone skipLineComment.
Proof. apply forNotAtEnd_monotone. Qed.

Lemma skipBlockComment_monotone : fuelMonotone skipBlockComment.
Proof.
  intros fuel fuel' l l' H Hle. unfold skipBlockComment in *.
  eapply forNotAtEnd_monotone; eassumption.
Qed.

Variable IsLetter IsDigit : rune -> bool.

Lemma lexIdentifierOrKeyword_monotone :
  fuelMonotone (lexIdentifierOrKeyword IsLetter IsDigit).
Proof.
  intros fuel fuel' l r H Hle. unfold lexIdentifierOrKeyword in *.
  match type of H with
  | andThen (forNotAtEnd ?f ?b fuel ?s) ?k = _ =>
      exact (andThen_monotone (fun n (_ : unit) => forNotAtEnd f b n s) k
               (fun n n' _ x Hx => forNotAtEnd_monotone f b n n' s x Hx)
               fuel fuel' tt r H Hle)
  end.
Qed.

Lemma lexNumber_monotone : fuelMonotone (lexNumber IsDigit).
Proof.
  intros fuel fuel' l r H Hle. unfold lexNumber in *.
  match type of H with
  | andThen (forNotAtEnd ?f ?b fuel ?s) ?k = _ =>
      exact (andThen_monotone (fun n (_ : unit) => forNotAtEnd f b n s) k
               (fun n n' _ x Hx => forNotAtEnd_monotone f b n n' s x Hx)
               fuel fuel' tt r H Hle)
  end.
Qed.

Lemma lexString_monotone (quote : rune) : fuelMonotone (lexString quote).
Proof.
  intros fuel fuel' l r H Hle. unfold lexString in *.
  match type of H with
  | andThen (forNotAtEnd ?f ?b fuel ?s) ?k = _ =>
      exact (andThen_monotone (fun n (_ : unit) => forNotAtEnd f b n s) k
               (fun n n' _ x Hx => forNotAtEnd_monotone f b n n' s x Hx)
               fuel fuel' tt r H Hle)
  end.
Qed.

Lemma lexTripleString_monotone : fuelMonotone lexTripleString.
Proof.
  intros fuel fuel' l r H Hle. unfold lexTripleString in *.
  match type of H with
  | andThen (forNotAtEnd ?f ?b fuel ?s) ?k = _ =>
      exact (andThen_monotone (fun n (_ : unit) => forNotAtEnd f b n s) k
               (fun n n' _ x Hx => forNotAtEnd_monotone f b n n' s x Hx)
               fuel fuel' tt r H Hle)
  end.
Qed.

Lemma lexIndentation_monotone
    (next next' : Lexer -> option (result (Token * Lexer))) :
  (forall l r, next l = Some r -> next' l = Some r) ->
  forall (fuel fuel' : nat) (l : Lexer) r,
    lexIndentation fuel next l = Some r -> (fuel <= fuel')%nat ->
    lexIndentation fuel' next' l = Some r.
Proof.
  intros Hnext fuel fuel' l r H Hle. unfold lexIndentation in *.
  match type of H with
  | andThen (forNotAtEnd ?f ?b fuel ?s) ?k = _ =>
      destruct (forNotAtEnd f b fuel s) as [[count l1] |] eqn:E; [| discriminate];
      rewrite (forNotAtEnd_monotone f b _ _ _ _ E Hle)
  end.
  cbn [andThen] in *.
  destruct (_ || _); [apply Hnext; exact H |].
  destruct (index _ _); [| exact H].
  destruct (_ <? _); [exact H |]. destruct (_ <? _); [exact H |].
  apply Hnext. exact H.
Qed.

Lemma nextToken_monotone : fuelMonotone (nextToken IsLetter IsDigit).
Proof.
  intros fuel. induction fuel as [| fuel IH]; intros fuel' l r H Hle; [discriminate |].
  destruct fuel' as [| fuel']; [lia |]. cbn [nextToken] in *.
  assert (Hnext : forall m q, nextToken IsLetter IsDigit fuel m = Some q ->
                              nextToken IsLetter IsDigit fuel' m = Some q)
    by (intros m q Hq; apply (IH fuel' m q Hq); lia).
  destruct (startOfLine l).
  - eapply lexIndentation_monotone; [exact Hnext | exact H | exact Hle].
  - destruct (skipWhitespaceExceptNewline (S fuel) l) as [l1 |] eqn:E; [| discriminate].
    rewrite (skipWhitespaceExceptNewline_monotone _ _ _ _ E Hle).
    cbn [andThen] in *. destruct (isAtEnd l1); [exact H |]. cbv zeta in *.
    destruct (peek l1 =? newline); [exact H |].
    destruct (peek l1 =? rn "#").
    { destruct (skipLineComment (S fuel) l1) as [l2 |] eqn:E2; [| discriminate].
      rewrite (skipLineComment_monotone _ _ _ _ E2 Hle). apply Hnext. exact H. }
    destruct (_ && _).
    { destruct (skipBlockComment (S fuel) l1) as [l2 |] eqn:E2; [| discriminate].
      rewrite (skipBlockComment_monotone _ _ _ _ E2 Hle). apply Hnext. exact H. }
    destruct (_ || _).
    { exact (andThen_monotone _ _ lexIdentifierOrKeyword_monotone _ _ _ _ H Hle). }
    destruct (isDigit IsDigit (peek l1)).
    { exact (andThen_monotone _ _ lexNumber_monotone _ _ _ _ H Hle). }
    destruct (peek l1 =? doubleQuote).
    { destruct (_ && _).
      - exact (andThen_monotone _ _ lexTripleString_monotone _ _ _ _ H Hle).
      - exact (andThen_monotone _ _ (lexString_monotone _) _ _ _ _ H Hle). }
    destruct (peek l1 =? singleQuote).
    { exact (andThen_monotone _ _ (lexString_monotone _) _ _ _ _ H Hle). }
    exact H.
Qed.

Lemma Lex_monotone : fuelMonotone (Lex IsLetter IsDigit).
Proof.
  intros fuel. induction fuel as [| fuel IH]; intros fuel' l r H Hle; [discriminate |].
  destruct fuel' as [| fuel']; [lia |]. cbn [Lex] in *.
  destruct (nextToken IsLetter IsDigit (S fuel) l) as [q |] eqn:E; [| discriminate].
  rewrite (nextToken_monotone _ _ _ _ E Hle).
  destruct q as [[tok l1] | p]; [| exact H].
  destruct (isEOF tok); [exact H |].
  destruct (Lex IsLetter IsDigit fuel l1) as [q1 |] eqn:E1; [| discriminate].
  rewrite (IH fuel' l1 q1 E1) by lia. exact H.
Qed.

(** [Lex] gives the same with any two fuels that are enough. *)
Lemma Lex_fuel (fuel fuel' : nat) (l : Lexer) r r' :
  Lex IsLetter IsDigit fuel l = Some r -> Lex IsLetter IsDigit fuel' l = Some r' ->
  r = r'.
Proof.
  intros H H'.
  pose proof (Lex_monotone _ (Nat.max fuel fuel') _ _ H ltac:(lia)) as H1.
  pose proof (Lex_monotone _ (Nat.max fuel fuel') _ _ H' ltac:(lia)) as H2.
  congruence.
Qed.

Lemma New_wellFormed (source : list rune) : wellFormed (New source).
Proof.
  unfold wellFormed, New. cbn [pos src indentStack].
  split; [pose proof (len_nonneg source); lia |].
  split; [exists []; reflexivity |]. constructor; [lia | constructor].
Qed.

Lemma New_measure (source : list rune) :
  (Z.to_nat (measure (New source)) + 1 = 2 * length source + 3)%nat.
Proof.
  unfold measure, New. cbn [pos src indentStack startOfLine].
  change (len [0]) with 1. unfold len. lia.
Qed.

End LexerFuel.

Section LexerTheorems.

Import lexer.

Variable IsLetter IsDigit : rune -> bool.

(** Whatever the fuel, what [nextToken] gives from a well-formed lexer is a
    token, never a panic. *)
Lemma nextToken_tokenFrom (fuel : nat) (l : Lexer) r :
  wellFormed l -> nextToken IsLetter IsDigit fuel l = Some r ->
  exists tok l', r = Ok (tok, l') /\ tokenFrom l tok l'.
Proof.
  intros Hwf H.
  destruct (nextToken_spec IsLetter IsDigit _ l Hwf (Nat.le_refl _))
    as (tok & l' & Hn & Ht).
  exists tok, l'. split; [| exact Ht].
  pose proof (nextToken_monotone IsLetter IsDigit _
                (Nat.max fuel (remaining l + 1 + (if startOfLine l then 1 else 0)))
                _ _ H ltac:(lia)) as H1.
  pose proof (nextToken_monotone IsLetter IsDigit _
                (Nat.max fuel (remaining l + 1 + (if startOfLine l then 1 else 0)))
                _ _ Hn ltac:(lia)) as H2.
  congruence.
Qed.

(** One turn of the loop of [Lex]. *)
Lemma Lex_turn (fuel : nat) (l : Lexer) (tokens : list Token) :
  wellFormed l -> Lex IsLetter IsDigit (S fuel) l = Some (Ok tokens) ->
  exists tok l',
    nextToken IsLetter IsDigit (S fuel) l = Some (Ok (tok, l')) /\ tokenFrom l tok l' /\
    ((isEOF tok = true /\ tokens = [tok]) \/
     (isEOF tok = false /\
      exists rest, Lex IsLetter IsDigit fuel l' = Some (Ok rest) /\
                   tokens = tok :: rest)).
Proof.
  intros Hwf H. cbn [Lex] in H.
  destruct (nextToken IsLetter IsDigit (S fuel) l) as [r |] eqn:E; [| discriminate].
  destruct (nextToken_tokenFrom _ _ _ Hwf E) as (tok & l' & -> & Ht).
  exists tok, l'. split; [reflexivity |]. split; [exact Ht |].
  destruct (isEOF tok); [left; split; [reflexivity | congruence] |].
  right. split; [reflexivity |].
  destruct (Lex IsLetter IsDigit fuel l') as [[rest | p] |]; try discriminate.
  exists rest. split; [reflexivity | congruence].
Qed.



Lemma nextToken_at_end (fuel : nat) (l l' : Lexer) (tok : Token) :
  isAtEnd l = true -> startOfLine l = false ->
  nextToken IsLetter IsDigit fuel l = Some (Ok (tok, l')) ->
  closes (Type_ tok) = true.
Proof.
  intros He Hf H. destruct fuel as [| fuel]; [discriminate |].
  cbn [nextToken] in H. rewrite Hf in H.
  unfold skipWhitespaceExceptNewline in H. cbn [forNotAtEnd] in H.
  change (isAtEnd (id l)) with (isAtEnd l) in H. rewrite He in H.
  cbn [andThen] in H. rewrite He in H.
  destruct (1 <? len (indentStack l)); injection H as <- _; reflexivity.
Qed.

(** At the end of the source and inside a line, what is left is closing
    tokens. *)
Lemma Lex_at_end (fuel : nat) :
  forall (l : Lexer) (tokens : list Token),
    wellFormed l -> isAtEnd l = true -> startOfLine l = false ->
    Lex IsLetter IsDigit fuel l = Some (Ok tokens) ->
    Forall (fun tok => closes (Type_ tok) = true) tokens.
Proof.
  induction fuel as [| fuel IH]; intros l tokens Hwf He Hf H; [discriminate |].
  destruct (Lex_turn _ _ _ Hwf H) as (tok & l' & Hn & Ht & Hcase).
  pose proof (nextToken_at_end _ _ _ _ He Hf Hn) as Hc.
  destruct Ht as (Hw' & _ & _ & _ & Hc5 & Hc6).
  destruct Hcase as [[_ ->] | [_ (rest & Hrest & ->)]].
  - constructor; [exact Hc | constructor].
  - constructor; [exact Hc |].
    apply (IH l' rest Hw' (Hc6 Hf Hc) (Hc5 Hc) Hrest).
Qed.

Lemma DEDENT_closes (tok : Token) : Type_ tok = DEDENT -> closes (Type_ tok) = true.
Proof. intros ->. reflexivity. Qed.

(** Two [DEDENT] tokens in a row: only closing tokens follow. *)
Lemma Lex_two_dedents (pre : list Token) :
  forall (fuel : nat) (l : Lexer) (d1 d2 : Token) (post : list Token),
    wellFormed l ->
    Lex IsLetter IsDigit fuel l = Some (Ok (pre ++ d1 :: d2 :: post)) ->
    Type_ d1 = DEDENT -> Type_ d2 = DEDENT ->
    Forall (fun tok => closes (Type_ tok) = true) post.
Proof.
  induction pre as [| t pre IH]; intros fuel l d1 d2 post Hwf H H1 H2;
    (destruct fuel as [| fuel]; [discriminate |]);
    destruct (Lex_turn _ _ _ Hwf H) as (tok & l1 & Hn & Ht & Hcase);
    destruct Hcase as [[_ Heq] | [_ (rest & Hrest & Heq)]];
    cbn [app] in Heq; try discriminate Heq.
  - injection Heq as <- <-.
    destruct Ht as (Hw1 & _ & _ & _ & Hc5 & _).
    pose proof (Hc5 (DEDENT_closes _ H1)) as Hf1.
    destruct fuel as [| fuel]; [discriminate |].
    destruct (Lex_turn _ _ _ Hw1 Hrest) as (tok2 & l2 & Hn2 & Ht2 & Hcase2).
    destruct Hcase2 as [[_ Heq2] | [_ (rest2 & Hrest2 & Heq2)]].
    + injection Heq2 as _ ->. constructor.
    + injection Heq2 as <- <-.
      destruct Ht2 as (Hw2 & _ & _ & _ & Hd5 & Hd6).
      apply (Lex_at_end fuel l2 post Hw2
               (Hd6 Hf1 (DEDENT_closes _ H2)) (Hd5 (DEDENT_closes _ H2)) Hrest2).
  - injection Heq as _ Heq. destruct pre; discriminate Heq.
  - injection Heq as <- <-.
    destruct Ht as (Hw1 & _).
    apply (IH fuel l1 d1 d2 post Hw1 Hrest H1 H2).
Qed.


Lemma forNotAtEnd_invariant {S : Type} (lexerOf : S -> Lexer) (body : S -> flow S)
    (J : S -> Prop) :
  (forall s s1, J s -> isAtEnd (lexerOf s) = false -> body s = Continue s1 -> J s1) ->
  forall (fuel : nat) (s s' : S),
    J s -> forNotAtEnd lexerOf body fuel s = Some s' ->
    (J s' /\ isAtEnd (lexerOf s') = true) \/
    (exists s0, J s0 /\ isAtEnd (lexerOf s0) = false /\ body s0 = Break s').
Proof.
  intros Hbody. induction fuel as [| fuel IH]; intros s s' HJ H; [discriminate |].
  cbn [forNotAtEnd] in H. destruct (isAtEnd (lexerOf s)) eqn:E.
  - injection H as <-. left. split; assumption.
  - destruct (body s) as [s1 | s1] eqn:Hb.
    + apply (IH s1 s'); [eapply Hbody; eassumption | exact H].
    + injection H as <-. right. exists s. repeat split; assumption.
Qed.

Lemma lexeme_length (l : Lexer) (a b : Z) :
  0 <= a <= b -> b <= len (src l) -> len (lexeme l a b) = b - a.
Proof.
  intros H1 H2. unfold lexeme, len in *. rewrite length_take, length_drop. lia.
Qed.

Lemma lexeme_snoc (l : Lexer) (a b : Z) :
  0 <= a <= b -> b < len (src l) ->
  lexeme l a (b + 1) = lexeme l a b ++ [runeAt l b].
Proof.
  intros H1 H2. unfold lexeme, runeAt.
  replace (Z.to_nat (b + 1 - a)) with (S (Z.to_nat (b - a))) by lia.
  assert (Hlt : (Z.to_nat b < length (src l))%nat) by (unfold len in H2; lia).
  destruct (lookup_lt_is_Some_2 (src l) (Z.to_nat b) Hlt) as [x Hx].
  rewrite (take_S_r _ _ x).
  - rewrite nth_lookup, Hx. reflexivity.
  - rewrite lookup_drop. replace (Z.to_nat a + Z.to_nat (b - a))%nat with (Z.to_nat b) by lia.
    exact Hx.
Qed.

Lemma countRune_app (ch : rune) (a b : list rune) :
  countRune ch (a ++ b) = countRune ch a + countRune ch b.
Proof. induction a as [| x a IH]; cbn [countRune app]; [reflexivity | lia]. Qed.

Lemma peek_runeAt (l m : Lexer) :
  src m = src l -> isAtEnd m = false -> peek m = runeAt l (pos m).
Proof. intros Hs E. unfold peek, runeAt. rewrite E, Hs. reflexivity. Qed.

Lemma lexNumber_shape :
  forall (fuel : nat) (l l' : Lexer) (tok : Token),
    IsDigit (rn ".") = false ->
    0 <= pos l <= len (src l) ->
    lexNumber IsDigit fuel l = Some (tok, l') ->
    Type_ tok = NUMBER /\ src l' = src l /\
    Lexeme tok = lexeme l (pos l) (pos l') /\
    len (Lexeme tok) = pos l' - pos l /\
    Forall (fun ch => IsDigit ch = true \/ ch = rn ".") (Lexeme tok) /\
    countRune (rn ".") (Lexeme tok) <= 1 /\
    (isAtEnd l' = true \/
     (IsDigit (peek l') = false /\
      (peek l' = rn "." -> countRune (rn ".") (Lexeme tok) = 1))).
Proof.
  intros fuel l l' tok Hdot Hpos H. unfold lexNumber in H.
  set (J := fun s : bool * Lexer =>
              src (snd s) = src l /\ pos l <= pos (snd s) <= len (src l) /\
              Forall (fun ch => IsDigit ch = true \/ ch = rn ".")
                     (lexeme l (pos l) (pos (snd s))) /\
              countRune (rn ".") (lexeme l (pos l) (pos (snd s))) =
                (if fst s then 1 else 0)).
  match type of H with
  | andThen (forNotAtEnd snd ?b fuel ?s) _ = _ =>
      destruct (forNotAtEnd snd b fuel s) as [[d m] |] eqn:E; [| discriminate];
      pose proof (forNotAtEnd_invariant snd b J) as Hinv
  end.
  cbn [andThen] in H. injection H as <- <-. cbn [Type_ Lexeme].
  assert (HJ0 : J (false, l)).
  { unfold J. cbn [fst snd]. unfold lexeme. rewrite Z.sub_diag. cbn [Z.to_nat take].
    repeat split; try lia. constructor. }
  assert (Hstep : forall s s1, J s -> isAtEnd (snd s) = false ->
            (let '(hasDot, l0) := s in
             if isDigit IsDigit (peek l0) then Continue (hasDot, snd (advance l0))
             else if (peek l0 =? rn ".") && negb hasDot
                  then Continue (true, snd (advance l0))
                  else Break (hasDot, l0)) = Continue s1 -> J s1).
  { intros [h m0] s1 (J1 & J2 & J3 & J4) E0 Hb. cbn [fst snd] in *.
    assert (Hin : pos m0 < len (src l)) by (apply isAtEnd_false in E0; rewrite <- J1; exact E0).
    pose proof (peek_runeAt l m0 J1 E0) as Hpk.
    destruct (advance_steps m0 E0) as [(S1 & _ & _ & S4) P1].
    unfold isDigit in Hb.
    destruct (IsDigit (peek m0)) eqn:Hd.
    - injection Hb as <-. unfold J. cbn [fst snd]. rewrite P1, S1, J1.
      rewrite lexeme_snoc by lia. rewrite <- Hpk.
      split; [reflexivity |]. split; [lia |]. split.
      + apply Forall_app. split; [exact J3 |]. constructor; [left; exact Hd | constructor].
      + rewrite countRune_app, J4. cbn [countRune].
        destruct (peek m0 =? rn ".") eqn:Hp; [| lia].
        apply Z.eqb_eq in Hp. rewrite Hp in Hd. congruence.
    - destruct ((peek m0 =? rn ".") && negb h) eqn:Hp; [| discriminate].
      injection Hb as <-. apply andb_true_iff in Hp as [Hp Hh].
      apply negb_true_iff in Hh. subst h.
      unfold J. cbn [fst snd]. rewrite P1, S1, J1.
      rewrite lexeme_snoc by lia. rewrite <- Hpk.
      split; [reflexivity |]. split; [lia |]. split.
      + apply Forall_app. split; [exact J3 |].
        constructor; [right; apply Z.eqb_eq; exact Hp | constructor].
      + rewrite countRune_app, J4. cbn [countRune]. rewrite Hp. reflexivity. }
  destruct (Hinv Hstep fuel (false, l) (d, m) HJ0 E)
    as [[(J1 & J2 & J3 & J4) Hend] | ([h m0] & (J1 & J2 & J3 & J4) & E0 & Hb)];
    cbn [fst snd] in *.
  - replace (lexeme m (pos l) (pos m)) with (lexeme l (pos l) (pos m))
      by (unfold lexeme; rewrite J1; reflexivity).
    split; [reflexivity |]. split; [exact J1 |]. split; [reflexivity |].
    split; [apply lexeme_length; lia |]. split; [exact J3 |].
    split; [rewrite J4; destruct d; lia |]. left. exact Hend.
  - unfold isDigit in Hb. destruct (IsDigit (peek m0)) eqn:Hd; [discriminate |].
    destruct ((peek m0 =? rn ".") && negb h) eqn:Hp; [discriminate |].
    injection Hb as <- <-.
    replace (lexeme m0 (pos l) (pos m0)) with (lexeme l (pos l) (pos m0))
      by (unfold lexeme; rewrite J1; reflexivity).
    split; [reflexivity |]. split; [exact J1 |]. split; [reflexivity |].
    split; [apply lexeme_length; lia |]. split; [exact J3 |].
    split; [rewrite J4; destruct h; lia |]. right. split; [exact Hd |].
    intros Hpeek. rewrite J4. rewrite Hpeek, Z.eqb_refl in Hp.
    destruct h; [reflexivity | discriminate].
Qed.

End LexerTheorems.

(** X20: [Lex] returns on every source, whatever [unicode.IsLetter] and
    [unicode.IsDigit] are: with fuel for twice the runes of the source and
    three more it gives a list of tokens, with any other fuel the same list or
    none; it never panics, so the index into the indentation stack is always
    in range.  The list ends with an [EOF] token and holds no other. *)
Theorem Lex_ends_with_the_only_EOF :
  forall (IsLetter IsDigit : lexer.rune -> bool) (source : list lexer.rune),
    exists tokens init eof,
      lexer.Lex IsLetter IsDigit (2 * length source + 3) (lexer.New source)
        = Some (Ok tokens) /\
      (forall fuel,
          lexer.Lex IsLetter IsDigit fuel (lexer.New source) = None \/
          lexer.Lex IsLetter IsDigit fuel (lexer.New source) = Some (Ok tokens)) /\
      tokens = init ++ [eof] /\ lexer.Type_ eof = lexer.EOF /\
      Forall (fun tok => lexer.Type_ tok <> lexer.EOF) init.
Proof.
  intros IsLetter IsDigit source.
  destruct (Lex_spec IsLetter IsDigit (2 * length source + 3) (lexer.New source)
              (New_wellFormed source))
    as (tokens & HL & (init & eof & -> & Heof & Hinit) & _).
  { rewrite New_measure. lia. }
  exists (init ++ [eof]), init, eof. split; [exact HL |]. split; [| split; [reflexivity |]].
  - intros fuel.
    destruct (lexer.Lex IsLetter IsDigit fuel (lexer.New source)) as [r |] eqn:E;
      [right | left; reflexivity].
    rewrite (Lex_fuel IsLetter IsDigit _ _ _ _ _ E HL). reflexivity.
  - split.
    + unfold lexer.isEOF in Heof. destruct (lexer.Type_ eof); try discriminate.
      reflexivity.
    + eapply Forall_impl; [exact Hinit |]. intros tok Hne Heq.
      cbv beta in Hne. unfold lexer.isEOF in Hne. rewrite Heq in Hne. discriminate.
Qed.

(** X21: the tokens of [Lex] are balanced.  The list holds as many
    [DEDENT] as [INDENT] tokens, and no start of it holds more [DEDENT] than
    [INDENT] tokens: at the end of the source the lexer closes every block
    that is open. *)
Theorem indentation_tokens_are_balanced :
  forall (IsLetter IsDigit : lexer.rune -> bool) (source : list lexer.rune)
         (fuel : nat) (tokens : list lexer.Token),
    lexer.Lex IsLetter IsDigit fuel (lexer.New source) = Some (Ok tokens) ->
    balance tokens = 0 /\ forall k : nat, 0 <= balance (take k tokens).
Proof.
  intros IsLetter IsDigit source fuel tokens H.
  destruct (Lex_spec IsLetter IsDigit (2 * length source + 3) (lexer.New source)
              (New_wellFormed source))
    as (tokens' & HL & _ & Hb & Hpre).
  { rewrite New_measure. lia. }
  pose proof (Lex_fuel IsLetter IsDigit _ _ _ _ _ H HL) as Heq.
  injection Heq as ->. cbn [lexer.New lexer.indentStack] in Hb, Hpre.
  change (len [0]) with 1 in Hb, Hpre.
  split; [lia |]. intros k. specialize (Hpre k). lia.
Qed.

Lemma indentation_balanced_witness :
  balance nestedTokens = 0 /\ forall k : nat, 0 <= balance (take k nestedTokens).
Proof.
  apply (indentation_tokens_are_balanced asciiLetter asciiDigit nested 30 nestedTokens).
  vm_compute. reflexivity.
Defined.

(** X22: a line gets one [DEDENT] at most, however many blocks it closes.
    Where two [DEDENT] tokens follow each other in the tokens of [Lex], only
    [DEDENT] tokens and the [EOF] come after them: [lexIndentation] pops one
    level and goes on with the text of the line, and the levels left are
    closed at the end of the source. *)
Theorem a_line_gets_one_DEDENT :
  forall (IsLetter IsDigit : lexer.rune -> bool) (source : list lexer.rune)
         (fuel : nat) (tokens pre post : list lexer.Token) (d1 d2 : lexer.Token),
    lexer.Lex IsLetter IsDigit fuel (lexer.New source) = Some (Ok tokens) ->
    tokens = pre ++ [d1; d2] ++ post ->
    lexer.Type_ d1 = lexer.DEDENT -> lexer.Type_ d2 = lexer.DEDENT ->
    Forall (fun tok => lexer.Type_ tok = lexer.DEDENT \/ lexer.Type_ tok = lexer.EOF)
           post.
Proof.
  intros IsLetter IsDigit source fuel tokens pre post d1 d2 H -> H1 H2.
  eapply Forall_impl.
  - exact (Lex_two_dedents IsLetter IsDigit pre fuel (lexer.New source) d1 d2 post
             (New_wellFormed source) H H1 H2).
  - intros tok Hc. cbv beta in Hc. destruct (lexer.Type_ tok); try discriminate; auto.
Qed.

Lemma one_DEDENT_witness :
  Forall (fun tok => lexer.Type_ tok = lexer.DEDENT \/ lexer.Type_ tok = lexer.EOF)
         [lexer.mkToken lexer.EOF [] 3 3].
Proof.
  apply (a_line_gets_one_DEDENT asciiLetter asciiDigit nested 30 nestedTokens
           (take 7 nestedTokens) [lexer.mkToken lexer.EOF [] 3 3]
           (lexer.mkToken lexer.DEDENT [] 3 3) (lexer.mkToken lexer.DEDENT [] 3 3)).
  - vm_compute. reflexivity.
  - reflexivity.
  - reflexivity.
  - reflexivity.
Defined.

Section LexerReturns.

Import lexer.

Variable IsDigit : rune -> bool.

(** With more fuel than runes left, [lexNumber] returns. *)
Lemma lexNumber_returns (fuel : nat) (l : Lexer) :
  pos l <= len (src l) -> (remaining l < fuel)%nat ->
  exists r, lexNumber IsDigit fuel l = Some r.
Proof.
  intros Hpos Hfuel. unfold lexNumber.
  match goal with
  | |- context [forNotAtEnd snd ?b _ _] =>
      destruct (forNotAtEnd_steps snd b (fun _ => True)) with (fuel := fuel) (s := (false, l))
        as ([d l'] & H1 & _)
  end.
  - intros [d l0] _ E0. cbn [snd] in *. cbv zeta.
    destruct (isDigit IsDigit (peek l0)).
    + destruct (advance_steps l0 E0). cbn [snd].
      split; [exact I |]. split; [assumption | lia].
    + case_if.
      * destruct (advance_steps l0 E0). cbn [snd].
        split; [exact I |]. split; [assumption | lia].
      * cbn [snd]. split; [exact I |]. apply steps_refl.
        apply isAtEnd_false in E0. lia.
  - exact I.
  - cbn [snd]. exact Hpos.
  - exact Hfuel.
  - rewrite H1. cbn [andThen]. eexists. reflexivity.
Qed.

(** The result of a function with fuel does not depend on the fuel. *)
Lemma fuelMonotone_same {A B : Type} (f : nat -> A -> option B) :
  fuelMonotone f ->
  forall (fuel fuel' : nat) (a : A) (b b' : B),
    f fuel a = Some b -> f fuel' a = Some b' -> b = b'.
Proof.
  intros Hf fuel fuel' a b b' H H'.
  pose proof (Hf fuel (Nat.max fuel fuel') a b H (Nat.le_max_l _ _)) as E.
  pose proof (Hf fuel' (Nat.max fuel fuel') a b' H' (Nat.le_max_r _ _)) as E'.
  congruence.
Qed.

End LexerReturns.

(** X23: the lexeme of a [NUMBER] token.  From a position inside the source
    [lexNumber] returns, the same token and lexer whatever the fuel above the
    number of runes left.  What it returns, when [unicode.IsDigit] holds no
    dot for a digit, is the runes of the source from where it started to where
    it stopped: digits and dots, one dot at most; and it stopped at the end of
    the source, or before a rune that is no digit and, if a dot, a second
    one. *)
Theorem lexNumber_reads_digits_and_one_dot :
  forall (IsDigit : lexer.rune -> bool) (l : lexer.Lexer),
    IsDigit (lexer.rn ".") = false ->
    0 <= lexer.pos l <= len (lexer.src l) ->
    exists (tok : lexer.Token) (l' : lexer.Lexer),
      (forall fuel : nat,
          (remaining l < fuel)%nat ->
          lexer.lexNumber IsDigit fuel l = Some (tok, l')) /\
      lexer.Type_ tok = lexer.NUMBER /\ lexer.src l' = lexer.src l /\
      lexer.Lexeme tok = lexer.lexeme l (lexer.pos l) (lexer.pos l') /\
      len (lexer.Lexeme tok) = lexer.pos l' - lexer.pos l /\
      Forall (fun ch => IsDigit ch = true \/ ch = lexer.rn ".") (lexer.Lexeme tok) /\
      countRune (lexer.rn ".") (lexer.Lexeme tok) <= 1 /\
      (lexer.isAtEnd l' = true \/
       (IsDigit (lexer.peek l') = false /\
        (lexer.peek l' = lexer.rn "." ->
         countRune (lexer.rn ".") (lexer.Lexeme tok) = 1))).
Proof.
  intros IsDigit l Hdot Hpos.
  destruct (lexNumber_returns IsDigit (S (remaining l)) l) as ([tok l'] & H);
    [lia | lia |].
  exists tok, l'. split.
  - intros fuel Hfuel.
    destruct (lexNumber_returns IsDigit fuel l) as (r & Hr); [lia | exact Hfuel |].
    rewrite Hr. f_equal.
    exact (fuelMonotone_same _ (lexNumber_monotone IsDigit) _ _ _ _ _ Hr H).
  - exact (lexNumber_shape IsDigit _ l l' tok Hdot Hpos H).
Qed.

Lemma lexNumber_witness :
  exists (tok : lexer.Token) (l' : lexer.Lexer),
    (forall fuel : nat,
        (remaining atNumber < fuel)%nat ->
        lexer.lexNumber asciiDigit fuel atNumber = Some (tok, l')) /\
    lexer.Type_ tok = lexer.NUMBER /\ lexer.src l' = lexer.src atNumber /\
    lexer.Lexeme tok = lexer.lexeme atNumber (lexer.pos atNumber) (lexer.pos l') /\
    len (lexer.Lexeme tok) = lexer.pos l' - lexer.pos atNumber /\
    Forall (fun ch => asciiDigit ch = true \/ ch = lexer.rn ".") (lexer.Lexeme tok) /\
    countRune (lexer.rn ".") (lexer.Lexeme tok) <= 1 /\
    (lexer.isAtEnd l' = true \/
     (asciiDigit (lexer.peek l') = false /\
      (lexer.peek l' = lexer.rn "." ->
       countRune (lexer.rn ".") (lexer.Lexeme tok) = 1))).
Proof.
  apply (lexNumber_reads_digits_and_one_dot asciiDigit atNumber).
  - reflexivity.
  - vm_compute. split; discriminate.
Defined.

(** On [1.5.2] the token is [1.5], and the lexer stops before the second
    dot. *)
Lemma lexNumber_stops_at_the_second_dot :
  lexer.lexNumber asciiDigit 10 atNumber =
  Some (lexer.mkToken lexer.NUMBER (lexer.runes "1.5") 1 0, afterNumber).
Proof. vm_compute. reflexivity. Qed.

(** *** The lexemes of [NUMBER] tokens are what [parseNumber] reads *)

Section NumberLexemes.

Import lexer.

Lemma countRune_nonneg (ch : rune) (lex : list rune) : 0 <= countRune ch lex.
Proof.
  induction lex as [| x lex IH]; cbn [countRune]; [lia |].
  destruct (x =? ch); lia.
Qed.

Lemma digit_of_asciiDigit (ch : rune) :
  asciiDigit ch = true -> digit (ascii_of_nat (Z.to_nat ch)) = Some (ch - 48).
Proof.
  unfold asciiDigit, digit. intros H.
  apply andb_true_iff in H as [H1 H2]. apply Z.leb_le in H1, H2.
  rewrite nat_ascii_embedding by lia. rewrite Z2Nat.id by lia.
  replace ((48 <=? ch) && (ch <=? 57)) with true; [reflexivity |].
  symmetry. apply andb_true_iff. split; apply Z.leb_le; lia.
Qed.

Lemma no_dots_digits (lex : list rune) :
  Forall (fun ch => asciiDigit ch = true \/ ch = rn ".") lex ->
  countRune (rn ".") lex <= 0 ->
  Forall (fun ch => asciiDigit ch = true) lex.
Proof.
  induction 1 as [| x lex Hx _ IH]; cbn [countRune]; intros Hc; [constructor |].
  pose proof (countRune_nonneg (rn ".") lex).
  destruct (x =? rn ".") eqn:E; [lia |].
  constructor; [| apply IH; lia].
  destruct Hx as [Hx | ->]; [exact Hx |]. rewrite Z.eqb_refl in E. discriminate.
Qed.

(** Digits, and after one dot at most, digits. *)
Lemma digits_dot_digits (lex : list rune) :
  Forall (fun ch => asciiDigit ch = true \/ ch = rn ".") lex ->
  countRune (rn ".") lex <= 1 ->
  exists ds1 ds2,
    Forall (fun ch => asciiDigit ch = true) ds1 /\
    Forall (fun ch => asciiDigit ch = true) ds2 /\
    (lex = ds1 \/ lex = ds1 ++ rn "." :: ds2).
Proof.
  induction 1 as [| x lex Hx Hlex IH]; cbn [countRune]; intros Hc.
  - exists [], []. split; [constructor |]. split; [constructor |]. left. reflexivity.
  - pose proof (countRune_nonneg (rn ".") lex).
    destruct (x =? rn ".") eqn:E.
    + apply Z.eqb_eq in E. subst x.
      exists [], lex. split; [constructor |].
      split; [apply no_dots_digits; [exact Hlex | lia] |].
      right. reflexivity.
    + destruct IH as (ds1 & ds2 & H1 & H2 & Hs); [lia |].
      assert (Hd : asciiDigit x = true).
      { destruct Hx as [Hx | ->]; [exact Hx |]. rewrite Z.eqb_refl in E. discriminate. }
      exists (x :: ds1), ds2. split; [constructor; assumption |].
      split; [exact H2 |].
      destruct Hs as [-> | ->]; [left | right]; reflexivity.
Qed.

Lemma digits_of_text (ds : list rune) :
  Forall (fun ch => asciiDigit ch = true) ds ->
  forall (rest : list rune) (acc count : Z),
    exists acc',
      digits (text (ds ++ rest)) acc count = digits (text rest) acc' (count + len ds).
Proof.
  induction 1 as [| x ds Hx _ IH]; intros rest acc count.
  - exists acc. cbn [app]. change (len (@nil rune)) with 0. rewrite Z.add_0_r. reflexivity.
  - cbn [app]. unfold text. cbn [map string_of_list_ascii digits].
    rewrite (digit_of_asciiDigit x Hx).
    destruct (IH rest (10 * acc + (x - 48)) (count + 1)) as [acc' IH'].
    exists acc'. unfold text in IH'. rewrite IH'. rewrite len_cons. f_equal. lia.
Qed.

Lemma numberLexeme_of_shape (lex : list rune) (first : rune) (rest : list rune) :
  lex = first :: rest -> asciiDigit first = true ->
  Forall (fun ch => asciiDigit ch = true \/ ch = rn ".") lex ->
  countRune (rn ".") lex <= 1 ->
  numberLexeme (text lex) = true.
Proof.
  intros Hlex Hfirst Hall Hdots.
  destruct (digits_dot_digits lex Hall Hdots) as (ds1 & ds2 & H1 & H2 & Hs).
  assert (Hlen : 0 < len ds1).
  { destruct ds1 as [| d ds1]; [| rewrite len_cons; pose proof (len_nonneg ds1); lia].
    destruct Hs as [Hs | Hs]; rewrite Hs in Hlex; [discriminate |].
    cbn [app] in Hlex. injection Hlex as <- _. discriminate. }
  unfold numberLexeme.
  destruct Hs as [-> | ->].
  - rewrite <- (app_nil_r ds1).
    destruct (digits_of_text ds1 H1 [] 0 0) as [acc' ->].
    cbn [text map string_of_list_ascii digits].
    replace (0 <? 0 + len ds1) with true by (symmetry; apply Z.ltb_lt; lia).
    reflexivity.
  - destruct (digits_of_text ds1 H1 (rn "." :: ds2) 0 0) as [acc' ->].
    unfold text at 1. cbn [map string_of_list_ascii].
    change (ascii_of_nat (Z.to_nat (rn "."))) with "."%char.
    cbn [digits]. change (digit "."%char) with (@None Z). cbv iota.
    replace (0 <? 0 + len ds1) with true by (symmetry; apply Z.ltb_lt; lia).
    cbn [andb].
    fold (text ds2). rewrite <- (app_nil_r ds2).
    destruct (digits_of_text ds2 H2 [] 0 0) as [acc2 ->].
    reflexivity.
Qed.

End NumberLexemes.

Section NumberTokens.

Import lexer.

Lemma lexeme_head (l : Lexer) (a b : Z) :
  0 <= a < b -> a < len (src l) -> exists rest, lexeme l a b = runeAt l a :: rest.
Proof.
  intros Hab Ha. unfold lexeme, runeAt.
  destruct (src l !! Z.to_nat a) as [x |] eqn:E.
  2:{ apply lookup_ge_None in E. unfold len in Ha. lia. }
  rewrite (drop_S _ _ _ E), (nth_lookup_Some _ _ _ _ E).
  replace (Z.to_nat (b - a)) with (S (Z.to_nat (b - a - 1))) by lia.
  cbn [take]. eexists. reflexivity.
Qed.

(** The [NUMBER] tokens of ASCII digits are number lexemes: what [lexNumber]
    returns from an ASCII digit is a lexeme that [parseNumber] reads in
    full. *)
Lemma lexNumber_makes_number_lexemes (l : Lexer) :
  0 <= pos l -> isAtEnd l = false -> asciiDigit (peek l) = true ->
  exists (tok : Token) (l' : Lexer),
    (forall fuel : nat,
        (remaining l < fuel)%nat -> lexNumber asciiDigit fuel l = Some (tok, l')) /\
    numberLexeme (text (Lexeme tok)) = true.
Proof.
  intros Hpos E Hd.
  pose proof (proj1 (isAtEnd_false l) E) as Hin.
  destruct (lexNumber_lexes asciiDigit (S (remaining l)) l E Hd) as ([tok l'] & H & Hlex);
    [lia |].
  destruct Hlex as ((Hsrc & _ & _ & Hle) & Hlt & _). cbn [snd] in *.
  destruct (lexNumber_shape asciiDigit _ l l' tok eq_refl (conj Hpos (Z.lt_le_incl _ _ Hin)) H)
    as (_ & _ & Hlexeme & _ & Hall & Hdots & _).
  exists tok, l'. split.
  - intros fuel Hfuel.
    destruct (lexNumber_returns asciiDigit fuel l) as (r & Hr); [lia | exact Hfuel |].
    rewrite Hr. f_equal.
    exact (fuelMonotone_same _ (lexNumber_monotone asciiDigit) _ _ _ _ _ Hr H).
  - destruct (lexeme_head l (pos l) (pos l')) as [rest Hhead]; [lia | exact Hin |].
    apply (numberLexeme_of_shape (Lexeme tok) (runeAt l (pos l)) rest).
    + rewrite Hlexeme. exact Hhead.
    + unfold peek in Hd. rewrite E in Hd. exact Hd.
    + exact Hall.
    + exact Hdots.
Qed.

End NumberTokens.

Section LexerStrings.

Import lexer.

Lemma nextLine_src_pos (l : Lexer) (b : bool) :
  src (if b then nextLine l else l) = src l /\
  pos (if b then nextLine l else l) = pos l.
Proof. destruct b; split; reflexivity. Qed.

Lemma lexString_shape (quote : rune) (fuel : nat) (l l' : Lexer) (tok : Token) :
  0 <= pos l -> isAtEnd l = false ->
  lexString quote fuel l = Some (tok, l') ->
  Type_ tok = STRING /\ src l' = src l /\
  Lexeme tok = lexeme l (pos l + 1) (pos l + 1 + len (Lexeme tok)) /\
  Forall (fun ch => ch <> quote) (Lexeme tok) /\
  ((pos l' = pos l + 1 + len (Lexeme tok) + 1 /\ pos l' <= len (src l) /\
    runeAt l (pos l' - 1) = quote) \/
   (pos l' = pos l + 1 + len (Lexeme tok) /\ pos l' = len (src l))).
Proof.
  intros Hpos E H. unfold lexString in H.
  destruct (advance_steps l E) as [(S1 & _ & _ & S4) P1].
  set (l1 := snd (advance l)) in *.
  set (J := fun m : Lexer =>
              src m = src l /\ pos l + 1 <= pos m <= len (src l) /\
              Forall (fun ch => ch <> quote) (lexeme l (pos l + 1) (pos m))).
  match type of H with
  | andThen (forNotAtEnd id ?b fuel ?s) _ = _ =>
      destruct (forNotAtEnd id b fuel s) as [m |] eqn:Eloop; [| discriminate];
      pose proof (forNotAtEnd_invariant id b J) as Hinv
  end.
  cbn [andThen] in H.
  assert (HJ1 : J l1).
  { unfold J. rewrite P1, S1. split; [reflexivity |]. rewrite <- S1. split; [lia |].
    unfold lexeme. rewrite Z.sub_diag. constructor. }
  assert (Hstep : forall s s1, J s -> isAtEnd (id s) = false ->
            (if negb (peek s =? quote)
             then let '(ch, l0) := advance s in
                  Continue (if ch =? newline then nextLine l0 else l0)
             else Break s) = Continue s1 -> J s1).
  { intros m0 m1 (J1 & J2 & J3) E0 Hb. unfold id in E0.
    destruct (negb (peek m0 =? quote)) eqn:Hq; [| discriminate].
    apply negb_true_iff, Z.eqb_neq in Hq.
    pose proof (peek_runeAt l m0 J1 E0) as Hpk.
    destruct (advance_steps m0 E0) as [(T1 & _ & _ & T4) Q1].
    destruct (advance m0) as [ch m0'] eqn:Ha. cbn [snd] in *.
    injection Hb as <-. unfold J.
    destruct (nextLine_src_pos m0' (ch =? newline)) as [-> ->].
    rewrite T1, J1, Q1.
    assert (Hin : pos m0 < len (src l))
      by (apply isAtEnd_false in E0; rewrite <- J1; exact E0).
    split; [reflexivity |]. split; [lia |].
    rewrite lexeme_snoc by lia. apply Forall_app. split; [exact J3 |].
    constructor; [rewrite <- Hpk; exact Hq | constructor]. }
  assert (Hlex : forall k, src k = src l -> pos l + 1 <= pos k <= len (src l) ->
                 lexeme k (pos l1) (pos k) = lexeme l (pos l + 1) (pos k) /\
                 len (lexeme k (pos l1) (pos k)) = pos k - (pos l + 1)).
  { intros k Hs Hr. rewrite P1.
    replace (lexeme k (pos l + 1) (pos k)) with (lexeme l (pos l + 1) (pos k))
      by (unfold lexeme; rewrite Hs; reflexivity).
    split; [reflexivity | apply lexeme_length; lia]. }
  destruct (Hinv Hstep fuel l1 m HJ1 Eloop)
    as [[(J1 & J2 & J3) Hend] | (m0 & (J1 & J2 & J3) & E0 & Hb)].
  - unfold id in Hend. rewrite Hend in H. cbn [negb] in H. injection H as <- <-.
    cbn [Type_ Lexeme]. destruct (Hlex m J1 J2) as [Hl Hn]. rewrite Hl in *.
    split; [reflexivity |]. split; [exact J1 |].
    split; [rewrite Hn; f_equal; lia |]. split; [exact J3 |].
    right. apply isAtEnd_true in Hend. rewrite J1 in Hend. lia.
  - unfold id in E0.
    destruct (negb (peek m0 =? quote)) eqn:Hq.
    { destruct (advance m0); discriminate. }
    injection Hb as <-. apply negb_false_iff, Z.eqb_eq in Hq.
    rewrite E0 in H. cbn [negb] in H. injection H as <- <-.
    cbn [Type_ Lexeme]. destruct (Hlex m0 J1 J2) as [Hl Hn]. rewrite Hl in *.
    destruct (advance_steps m0 E0) as [(T1 & _ & _ & T4) Q1].
    assert (Hin : pos m0 < len (src l))
      by (apply isAtEnd_false in E0; rewrite <- J1; exact E0).
    split; [reflexivity |]. split; [congruence |].
    split; [rewrite Hn; f_equal; lia |]. split; [exact J3 |].
    left. rewrite Q1. split; [lia |]. split; [lia |].
    replace (pos m0 + 1 - 1) with (pos m0) by lia.
    rewrite <- (peek_runeAt l m0 J1 E0). exact Hq.
Qed.

End LexerStrings.

(** X25: the lexeme of a [STRING] token.  From an opening quote [lexString]
    returns, the same token and lexer whatever the fuel above the number of
    runes left.  What it returns is the runes after the opening quote up to
    the next rune that is the quote, none of them the quote: no rune escapes a
    quote.  The lexer has then passed the closing quote, or, if there is none,
    it is at the end of the source, with no error for the string that is not
    closed. *)
Theorem lexString_reads_up_to_the_next_quote :
  forall (quote : lexer.rune) (l : lexer.Lexer),
    0 <= lexer.pos l -> lexer.isAtEnd l = false ->
    exists (tok : lexer.Token) (l' : lexer.Lexer),
      (forall fuel : nat,
          (remaining l < fuel)%nat ->
          lexer.lexString quote fuel l = Some (tok, l')) /\
      lexer.Type_ tok = lexer.STRING /\ lexer.src l' = lexer.src l /\
      lexer.Lexeme tok =
        lexer.lexeme l (lexer.pos l + 1) (lexer.pos l + 1 + len (lexer.Lexeme tok)) /\
      Forall (fun ch => ch <> quote) (lexer.Lexeme tok) /\
      ((lexer.pos l' = lexer.pos l + 1 + len (lexer.Lexeme tok) + 1 /\
        lexer.pos l' <= len (lexer.src l) /\
        lexer.runeAt l (lexer.pos l' - 1) = quote) \/
       (lexer.pos l' = lexer.pos l + 1 + len (lexer.Lexeme tok) /\
        lexer.pos l' = len (lexer.src l))).
Proof.
  intros quote l Hpos E.
  destruct (lexString_lexes quote (S (remaining l)) l E) as ([tok l'] & H & _);
    [lia |].
  exists tok, l'. split.
  - intros fuel Hfuel.
    destruct (lexString_lexes quote fuel l E Hfuel) as (r & Hr & _).
    rewrite Hr. f_equal.
    exact (fuelMonotone_same _ (lexString_monotone quote) _ _ _ _ _ Hr H).
  - exact (lexString_shape quote _ l l' tok Hpos E H).
Qed.

Lemma lexString_witness :
  exists (tok : lexer.Token) (l' : lexer.Lexer),
    (forall fuel : nat,
        (remaining atString < fuel)%nat ->
        lexer.lexString lexer.singleQuote fuel atString = Some (tok, l')) /\
    lexer.Type_ tok = lexer.STRING /\ lexer.src l' = lexer.src atString /\
    lexer.Lexeme tok =
      lexer.lexeme atString (lexer.pos atString + 1)
        (lexer.pos atString + 1 + len (lexer.Lexeme tok)) /\
    Forall (fun ch => ch <> lexer.singleQuote) (lexer.Lexeme tok) /\
    ((lexer.pos l' = lexer.pos atString + 1 + len (lexer.Lexeme tok) + 1 /\
      lexer.pos l' <= len (lexer.src atString) /\
      lexer.runeAt atString (lexer.pos l' - 1) = lexer.singleQuote) \/
     (lexer.pos l' = lexer.pos atString + 1 + len (lexer.Lexeme tok) /\
      lexer.pos l' = len (lexer.src atString))).
Proof.
  apply (lexString_reads_up_to_the_next_quote lexer.singleQuote atString).
  - vm_compute. discriminate.
  - reflexivity.
Defined.

(** On ['a\'b'] the token is [a\]: the backslash does not escape the quote
    after it. *)
Lemma lexString_stops_at_the_escaped_quote :
  lexer.lexString lexer.singleQuote 10 atString =
  Some (lexer.mkToken lexer.STRING [97; 92] 1 0, afterString).
Proof. vm_compute. reflexivity. Qed.
